(** * fenics_adjoint: tape blocks for equation solves and assignments

    A shallow embedding of [fenics_adjoint/solving.py] (the annotated
    [solve] entry point and [SolveBlock]) and of the [AssignBlock] of
    [fenics_adjoint/types/function.py].

    Python objects are references into typed stores, methods are
    computations in a state-and-exception monad, and the numerical backend
    (dolfin/ufl) is an interface whose calls are recorded, in program
    order, in a call log. *)

From stdpp Require Import gmap list.
From Stdlib Require Import ZArith.

Local Open Scope Z_scope.

(** ** Object references *)

(** The backend classes the source dispatches on with [isinstance]. *)
Inductive kind := KFunction | KConstant | KDirichletBC | KExpression | KOther.

(** A reference to a Python object: its class and its identity. *)
Record obj := Obj { okind : kind; oid : nat }.

#[global] Instance kind_eq_dec : EqDecision kind.
Proof. solve_decision. Defined.

#[global] Instance obj_eq_dec : EqDecision obj.
Proof. solve_decision. Defined.

Definition kind_code (k : kind) : nat :=
  match k with
  | KFunction => 0 | KConstant => 1 | KDirichletBC => 2
  | KExpression => 3 | KOther => 4
  end%nat.

Definition code_kind (n : nat) : kind :=
  match n with
  | 0 => KFunction | 1 => KConstant | 2 => KDirichletBC
  | 3 => KExpression | _ => KOther
  end%nat.

#[global] Instance kind_countable : Countable kind.
Proof. apply (inj_countable' kind_code code_kind). by intros []. Defined.

#[global] Instance obj_countable : Countable obj.
Proof.
  apply (inj_countable' (fun o => (okind o, oid o)) (fun p => Obj p.1 p.2)).
  by intros [].
Defined.

(** [isinstance(o, backend.K)]. *)
Definition isinstance (o : obj) (k : kind) : bool := bool_decide (okind o = k).

(** The direction handed to [backend.derivative]:
    [backend.TrialFunction(V)] or [backend.Constant(1)]. *)
Inductive direction := TrialFunction (V : nat) | ConstantOne.

(** One side of an equation: a [ufl.Form], or something that is not a form
    (the native number of [F == 0]). *)
Inductive side (form : Type) := SForm (f : form) | SNum (z : Z).
Arguments SForm {form} f.
Arguments SNum {form} z.

(** A positional argument of [solve]. *)
Inductive pyarg (form : Type) :=
| AEquation (l r : side form)   (* a ufl.equation.Equation *)
| AObj (o : obj)                (* any other object *)
| AList (l : list obj).         (* a Python list of objects *)
Arguments AEquation {form} l r.
Arguments AObj {form} o.
Arguments AList {form} l.

(** An accumulated adjoint: a native number (the number 0 is the zero
    sentinel; only the test against 0 matters, and the numbers are kept
    as integers), a backend vector, or the list of (vector, space) pairs
    reported for an expression. *)
Inductive adj (tensor : Type) :=
| ANum (x : Z)
| AVec (v : tensor)
| APairs (l : list (tensor * nat)).
Arguments ANum {tensor} x.
Arguments AVec {tensor} v.
Arguments APairs {tensor} l.

(** [isinstance(dJdu, (int, float)) and dJdu == 0]. *)
Definition is_zero {tensor} (a : adj tensor) : bool :=
  match a with
  | ANum x => bool_decide (x = 0)
  | _ => false
  end.

(** The content of a backend Function: its function space and its vector. *)
Record FunctionData (tensor : Type) :=
  { fn_space : nat; fn_vector : tensor }.
Arguments fn_space {tensor} f.
Arguments fn_vector {tensor} f.

(** ** Exceptions *)

Inductive exn :=
| NotImplementedError
| IndexError
| AttributeError
| BackendError        (* raised inside a backend call *)
| InvalidReference.   (* a reference to an object absent from its store *)

Inductive result (A : Type) := Ok (a : A) | Raise (e : exn).
Arguments Ok {A} a.
Arguments Raise {A} e.

(** ** The backend interface

    The operations of dolfin/ufl the source calls.  They are parameters of
    the development: nothing is assumed about them beyond their types and
    [adj_plus_zero]. *)
Class Backend := {
  form : Type;
  tensor : Type;
  bcdata : Type;
  (* ufl *)
  coefficients : form -> list obj;
  action : form -> obj -> form;
  form_sub : form -> form -> form;
  form_neg : form -> form;
  replace : form -> gmap obj obj -> form;
  derivative : form -> obj -> direction -> form;
  (* assembly and linear algebra *)
  zero_vector : nat -> tensor;
  assemble : gmap nat (FunctionData tensor) -> form -> tensor;
  transpose : tensor -> tensor;
  zero_rows : list nat -> tensor -> tensor;
  mat_vec : tensor -> tensor -> tensor;
  inner : tensor -> tensor -> Z;
  solve_linear : tensor -> tensor -> adj tensor -> option tensor;
  (* boundary conditions *)
  homogenize : bcdata -> bcdata;
  bc_apply : bcdata -> tensor -> tensor;
  boundary_dofs : bcdata -> list nat;
  user_sub_domain : bcdata -> nat;
  make_bc : nat -> tensor -> nat -> bcdata;
  (* equation solve and assignment *)
  solve_variational :
    gmap nat (FunctionData tensor) -> gmap nat bcdata ->
    side form -> side form -> nat -> list obj -> option tensor;
  (* what a solve that fails leaves in the unknown, which it works on in place *)
  solve_failed :
    gmap nat (FunctionData tensor) -> gmap nat bcdata ->
    side form -> side form -> nat -> list obj -> tensor;
  assign_from : obj -> FunctionData tensor -> option (FunctionData tensor);
  (* the sum the adjoint accumulator forms with [+=] *)
  adj_plus : adj tensor -> adj tensor -> adj tensor;
  adj_plus_zero : forall a, adj_plus a (ANum 0) = a
}.

Section Embedding.
Context `{B : Backend}.

(** ** Blocks and block outputs *)

(** Modelled from the spec: [pyadjoint.block.BlockOutput] is not among the
    sources.  A block output wraps the value that produced it, an optional
    checkpoint (an independent copy of the value) and the accumulated
    adjoint, which starts at the zero sentinel. *)
Record BlockOutput := {
  output : obj;
  checkpoint : option obj;
  adj_value : adj tensor
}.

Record SolveBlock := {
  sb_dependencies : list nat;
  sb_outputs : list nat;
  lhs : side form;
  rhs : side form;
  func : obj;
  bcs : list obj;
  linear : bool
}.

Record AssignBlock := {
  ab_dependencies : list nat;
  ab_outputs : list nat
}.

Inductive Block := BSolve (b : SolveBlock) | BAssign (b : AssignBlock).

Definition get_dependencies (b : Block) : list nat :=
  match b with
  | BSolve b => sb_dependencies b
  | BAssign b => ab_dependencies b
  end.

Definition get_outputs (b : Block) : list nat :=
  match b with
  | BSolve b => sb_outputs b
  | BAssign b => ab_outputs b
  end.

(** ** The call log *)

(** The calls of the backend, with their arguments, and the two tape
    operations of [solve], in program order. *)
Inductive event :=
| EAction (f : form) (u : obj)
| EReplace (f : form) (m : gmap obj obj)
| EDerivative (f : form) (w : obj) (d : direction)
| EAssemble (f : form)
| EDirichletBCCopy (src new : nat)
| EDirichletBCNew (new V sub : nat)
| EHomogenize (bc : nat)
| EApply (bc : nat) (t : tensor)
| EBoundaryValues (bc : nat)
| ETranspose (t : tensor)
| EZeroRows (rows : list nat) (t : tensor)
| EMatVec (m v : tensor)
| EInner (a b : tensor)
| ESolveLinear (A x : tensor) (b : adj tensor)
| ESolveVariational (l r : side form) (u : obj) (bs : list obj)
| ESolveOther (args : list (pyarg form))
| EFunctionCopy (src new : nat)
| EAssign (dst src : obj)
| EAddBlock (b : nat)
| EAddOutput (b bo : nat).

(** ** Program state *)

Record state := State {
  next_id : nat;
  functions : gmap nat (FunctionData tensor);
  bconds : gmap nat bcdata;
  block_outputs : gmap nat BlockOutput;
  attached : gmap obj nat;
  blocks : gmap nat Block;
  tape : list nat;
  calls : list event
}.

Definition set_next_id (n : nat) (s : state) : state :=
  State n (functions s) (bconds s) (block_outputs s) (attached s)
        (blocks s) (tape s) (calls s).
Definition set_functions (f : gmap nat (FunctionData tensor)) (s : state) : state :=
  State (next_id s) f (bconds s) (block_outputs s) (attached s)
        (blocks s) (tape s) (calls s).
Definition set_bconds (b : gmap nat bcdata) (s : state) : state :=
  State (next_id s) (functions s) b (block_outputs s) (attached s)
        (blocks s) (tape s) (calls s).
Definition set_block_outputs (b : gmap nat BlockOutput) (s : state) : state :=
  State (next_id s) (functions s) (bconds s) b (attached s)
        (blocks s) (tape s) (calls s).
Definition set_attached (a : gmap obj nat) (s : state) : state :=
  State (next_id s) (functions s) (bconds s) (block_outputs s) a
        (blocks s) (tape s) (calls s).
Definition set_blocks (b : gmap nat Block) (s : state) : state :=
  State (next_id s) (functions s) (bconds s) (block_outputs s) (attached s)
        b (tape s) (calls s).
Definition set_tape (t : list nat) (s : state) : state :=
  State (next_id s) (functions s) (bconds s) (block_outputs s) (attached s)
        (blocks s) t (calls s).
Definition set_calls (c : list event) (s : state) : state :=
  State (next_id s) (functions s) (bconds s) (block_outputs s) (attached s)
        (blocks s) (tape s) c.

(** ** The monad *)

Definition M (A : Type) : Type := state -> result A * state.

Definition ret {A} (a : A) : M A := fun s => (Ok a, s).

Definition raise {A} (e : exn) : M A := fun s => (Raise e, s).

Definition bind {A C} (m : M A) (k : A -> M C) : M C :=
  fun s =>
    match m s with
    | (Ok a, s') => k a s'
    | (Raise e, s') => (Raise e, s')
    end.

Notation "x <- m ;; k" := (bind m (fun x => k))
  (at level 60, m at next level, right associativity).
Notation "m ;;; k" := (bind m (fun _ => k))
  (at level 60, right associativity).

Definition gets {A} (f : state -> A) : M A := fun s => (Ok (f s), s).

Definition modify (f : state -> state) : M unit := fun s => (Ok tt, f s).

(** A [for] loop threading an accumulator. *)
Fixpoint foldM {A X} (f : A -> X -> M A) (a : A) (xs : list X) : M A :=
  match xs with
  | [] => ret a
  | x :: xs' => a' <- f a x ;; foldM f a' xs'
  end.

(** [xs[i]]. *)
Definition index {A} (xs : list A) (i : nat) : M A :=
  match xs !! i with
  | Some x => ret x
  | None => raise IndexError
  end.

Definition log (e : event) : M unit :=
  modify (fun s => set_calls (calls s ++ [e]) s).

(** A fresh object identity. *)
Definition fresh : M nat :=
  fun s => (Ok (next_id s), set_next_id (S (next_id s)) s).

(** ** BlockOutput, OverloadedType, Block and Tape *)

Definition block_output (bo : nat) : M BlockOutput :=
  fun s =>
    match block_outputs s !! bo with
    | Some b => (Ok b, s)
    | None => (Raise InvalidReference, s)
    end.

(** Modelled from the spec: [BlockOutput.get_output] is not among the
    sources; it returns the value the block output wraps. *)
Definition get_output (bo : nat) : M obj :=
  b <- block_output bo ;; ret (output b).

(** The object a block output stands for in a replay: its checkpoint, and
    its live value when it was never saved (the source tests [c != c_rep]
    for this case). *)
Definition saved_output (b : BlockOutput) : obj :=
  default (output b) (checkpoint b).

(** Modelled from the spec: [BlockOutput.get_saved_output] is not among the
    sources; it returns the checkpoint. *)
Definition get_saved_output (bo : nat) : M obj :=
  b <- block_output bo ;; ret (saved_output b).

(** Modelled from the spec: [BlockOutput.get_adj_output] is not among the
    sources; it returns the accumulator, the zero sentinel if never
    written. *)
Definition get_adj_output (bo : nat) : M (adj tensor) :=
  b <- block_output bo ;; ret (adj_value b).

(** The accumulator after a contribution [c]. *)
Definition accumulate (a c : adj tensor) : adj tensor :=
  if is_zero a then c else adj_plus a c.

(** Modelled from the spec: [BlockOutput.add_adj_output] is not among the
    sources; a zero-sentinel accumulator is replaced by the contribution,
    any other one is added to. *)
Definition add_adj_output (bo : nat) (c : adj tensor) : M unit :=
  b <- block_output bo ;;
  modify (fun s =>
    set_block_outputs
      (<[bo := {| output := output b; checkpoint := checkpoint b;
                  adj_value := accumulate (adj_value b) c |}]>
         (block_outputs s)) s).

(** [bo.checkpoint = ck]. *)
Definition set_checkpoint (bo : nat) (ck : obj) : M unit :=
  b <- block_output bo ;;
  modify (fun s =>
    set_block_outputs
      (<[bo := {| output := output b; checkpoint := Some ck;
                  adj_value := adj_value b |}]>
         (block_outputs s)) s).

(** Modelled from the spec: [OverloadedType.get_block_output] is not among
    the sources; it returns the block output attached to the value.  An
    object that is not an overloaded type has no such method. *)
Definition get_block_output (o : obj) : M nat :=
  fun s =>
    match attached s !! o with
    | Some bo => (Ok bo, s)
    | None => (Raise AttributeError, s)
    end.

(** Modelled from the spec: [OverloadedType.create_block_output] is not
    among the sources; it attaches a fresh block output to the value:
    no checkpoint yet, adjoint at the zero sentinel. *)
Definition create_block_output (o : obj) : M nat :=
  bo <- fresh ;;
  modify (fun s =>
    set_attached (<[o := bo]> (attached s))
      (set_block_outputs
         (<[bo := {| output := o; checkpoint := None; adj_value := ANum 0 |}]>
            (block_outputs s)) s)) ;;;
  ret bo.

(** Modelled from the spec: [Block.add_dependency] is not among the
    sources; in the construction of a SolveBlock each dependency is
    deduplicated by block-output identity. *)
Definition add_dependency (dep : nat) (self : SolveBlock) : SolveBlock :=
  {| sb_dependencies :=
       if bool_decide (dep ∈ sb_dependencies self) then sb_dependencies self
       else sb_dependencies self ++ [dep];
     sb_outputs := sb_outputs self;
     lhs := lhs self; rhs := rhs self; func := func self; bcs := bcs self;
     linear := linear self |}.

(** Modelled from the spec: [Block.add_output] is not among the sources;
    it appends to the block's outputs.  The block is the object [b] of the
    block store, which the tape refers to. *)
Definition add_output (b bo : nat) : M unit :=
  fun s =>
    match blocks s !! b with
    | Some (BSolve blk) =>
        (Ok tt,
         set_calls (calls s ++ [EAddOutput b bo])
           (set_blocks
              (<[b := BSolve
                   {| sb_dependencies := sb_dependencies blk;
                      sb_outputs := sb_outputs blk ++ [bo];
                      lhs := lhs blk; rhs := rhs blk; func := func blk;
                      bcs := bcs blk; linear := linear blk |}]>
                 (blocks s)) s))
    | Some (BAssign blk) =>
        (Ok tt,
         set_calls (calls s ++ [EAddOutput b bo])
           (set_blocks
              (<[b := BAssign
                   {| ab_dependencies := ab_dependencies blk;
                      ab_outputs := ab_outputs blk ++ [bo] |}]>
                 (blocks s)) s))
    | None => (Raise InvalidReference, s)
    end.

(** Modelled from the spec: [Tape.add_block] is not among the sources; it
    appends the block to the working tape. *)
Definition add_block (b : nat) : M unit :=
  modify (fun s => set_calls (calls s ++ [EAddBlock b]) (set_tape (tape s ++ [b]) s)).

(** The block object a constructor call returns. *)
Definition new_block (blk : Block) : M nat :=
  b <- fresh ;;
  modify (fun s => set_blocks (<[b := blk]> (blocks s)) s) ;;;
  ret b.

(** ** SolveBlock.__init__ *)

(** [args[1]] and a single boundary condition are kept as object
    references: the embedding covers the calls in which they are objects.
    An equation or a list in the place of a boundary condition has no
    [get_block_output]: the constructor raises the AttributeError of that
    call, here.  An equation or a list as second argument is stored by
    the source constructor, and [solve] fails on it only later, at
    [args[1].create_block_output()], with the block already on the tape;
    here the AttributeError is raised at once, and the statements on a
    failing construction are for a second argument that is an object. *)
Definition as_object (a : pyarg form) : M obj :=
  match a with
  | AObj o => ret o
  | _ => raise AttributeError
  end.

(** [self.lhs.coefficients()]: only a form has coefficients. *)
Definition side_coefficients (sd : side form) : M (list obj) :=
  match sd with
  | SForm f => ret (coefficients f)
  | SNum _ => raise AttributeError
  end.

(** [for c in cs: self.add_dependency(c.get_block_output())]. *)
Definition add_dependencies (cs : list obj) (self : SolveBlock) : M SolveBlock :=
  foldM (fun self c => bo <- get_block_output c ;; ret (add_dependency bo self))
        self cs.

Definition is_form (sd : side form) : bool :=
  match sd with SForm _ => true | SNum _ => false end.

Definition SolveBlock_init (args : list (pyarg form)) : M SolveBlock :=
  a0 <- index args 0 ;;
  match a0 with
  | AEquation l r =>
      (* Variational problem. *)
      a1 <- index args 1 ;;
      f <- as_object a1 ;;
      (* Store boundary conditions in a list. *)
      bs <- match args !! 2%nat with
            | Some (AList l) => ret l
            | Some a2 => bc <- as_object a2 ;; ret [bc]
            | None => ret []
            end ;;
      let self lin :=
        {| sb_dependencies := []; sb_outputs := [];
           lhs := l; rhs := r; func := f; bcs := bs; linear := lin |} in
      self <- (if is_form l && is_form r
               then (* Add dependence on coefficients on the right hand side. *)
                    cs <- side_coefficients r ;;
                    add_dependencies cs (self true)
               else ret (self false)) ;;
      self <- add_dependencies bs self ;;
      cs <- side_coefficients l ;;
      add_dependencies cs self
  | _ =>
      (* Linear algebra problem. *)
      raise NotImplementedError
  end.

(** ** The backend's equation solve *)

(** [backend.solve(lhs == rhs, u, bcs)]: the solution is written into the
    Function [u].  The backend solves in place: when the solve fails, the
    Function [u] holds whatever the backend has left in it. *)
Definition solve_eq (l r : side form) (u : obj) (bs : list obj) : M unit :=
  log (ESolveVariational l r u bs) ;;;
  fun s =>
    match u with
    | Obj KFunction i =>
        match functions s !! i with
        | Some d =>
            match solve_variational (functions s) (bconds s) l r i bs with
            | Some v =>
                (Ok tt,
                 set_functions
                   (<[i := {| fn_space := fn_space d; fn_vector := v |}]>
                      (functions s)) s)
            | None =>
                (Raise BackendError,
                 set_functions
                   (<[i := {| fn_space := fn_space d;
                              fn_vector :=
                                solve_failed (functions s) (bconds s) l r i bs |}]>
                      (functions s)) s)
            end
        | None => (Raise InvalidReference, s)
        end
    | _ => (Raise BackendError, s)
    end.

(** [backend.solve] on the arguments of [solve].  A variational solve goes
    through [solve_eq]; any other call works on objects whose content is
    outside the stores and is only recorded. *)
Definition backend_solve (args : list (pyarg form)) : M unit :=
  match args with
  | [AEquation l r; AObj u] => solve_eq l r u []
  | [AEquation l r; AObj u; AObj bc] => solve_eq l r u [bc]
  | [AEquation l r; AObj u; AList bs] => solve_eq l r u bs
  | _ => log (ESolveOther args)
  end.

(** ** solve *)

Definition solve (args : list (pyarg form)) (annotate_tape : option bool) : M unit :=
  (if default true annotate_tape then
     block <- SolveBlock_init args ;;
     b <- new_block (BSolve block) ;;
     add_block b ;;;
     a1 <- index args 1 ;;
     u <- as_object a1 ;;
     bo <- create_block_output u ;;
     add_output b bo
   else ret tt) ;;;
  backend_solve args.

(** ** Backend objects in the stores *)

Definition function_data (o : obj) : M (FunctionData tensor) :=
  fun s =>
    match o with
    | Obj KFunction i =>
        match functions s !! i with
        | Some d => (Ok d, s)
        | None => (Raise InvalidReference, s)
        end
    | _ => (Raise AttributeError, s)
    end.

(** [o.function_space()]. *)
Definition function_space (o : obj) : M nat :=
  d <- function_data o ;; ret (fn_space d).

(** [o.vector()]. *)
Definition vector (o : obj) : M tensor :=
  d <- function_data o ;; ret (fn_vector d).

(** The backend writes [v] into the vector of the Function [o]. *)
Definition set_vector (o : obj) (v : tensor) : M unit :=
  d <- function_data o ;;
  modify (fun s =>
    set_functions
      (<[oid o := {| fn_space := fn_space d; fn_vector := v |}]> (functions s)) s).

(** [Function(V)]: a new Function on the space [V]. *)
Definition new_Function (V : nat) : M obj :=
  i <- fresh ;;
  modify (fun s =>
    set_functions
      (<[i := {| fn_space := V; fn_vector := zero_vector V |}]> (functions s)) s) ;;;
  ret (Obj KFunction i).

Definition bc_data (bc : obj) : M bcdata :=
  fun s =>
    match bc with
    | Obj KDirichletBC i =>
        match bconds s !! i with
        | Some d => (Ok d, s)
        | None => (Raise InvalidReference, s)
        end
    | _ => (Raise AttributeError, s)
    end.

(** [backend.DirichletBC(bc)]: a new boundary condition, copy of [bc]. *)
Definition DirichletBC_copy (bc : obj) : M obj :=
  d <- bc_data bc ;;
  n <- fresh ;;
  log (EDirichletBCCopy (oid bc) n) ;;;
  modify (fun s => set_bconds (<[n := d]> (bconds s)) s) ;;;
  ret (Obj KDirichletBC n).

(** [bc.homogenize()]. *)
Definition bc_homogenize (bc : obj) : M unit :=
  d <- bc_data bc ;;
  log (EHomogenize (oid bc)) ;;;
  modify (fun s => set_bconds (<[oid bc := homogenize d]> (bconds s)) s).

(** [bc = backend.DirichletBC(bc); bc.homogenize()]: the homogenized copy
    the loop over [self.bcs] works with. *)
Definition homogenized_copy (bc : obj) : M obj :=
  bc <- DirichletBC_copy bc ;;
  bc_homogenize bc ;;;
  ret bc.

(** [backend.DirichletBC(V, adj_var, sub)], with [x] the vector of
    [adj_var]. *)
Definition DirichletBC_new (V : nat) (x : tensor) (sub : nat) : M obj :=
  n <- fresh ;;
  log (EDirichletBCNew n V sub) ;;;
  modify (fun s => set_bconds (<[n := make_bc V x sub]> (bconds s)) s) ;;;
  ret (Obj KDirichletBC n).

(** [bc.apply(t)]: the content of [t] after the call. *)
Definition apply_bc (bc : obj) (t : tensor) : M tensor :=
  d <- bc_data bc ;;
  log (EApply (oid bc) t) ;;;
  ret (bc_apply d t).

(** [for bc in bcs: for key in bc.get_boundary_values(): bc_rows.append(key)]. *)
Definition collect_bc_rows (bs : list obj) : M (list nat) :=
  foldM (fun rows bc =>
           d <- bc_data bc ;;
           log (EBoundaryValues (oid bc)) ;;;
           ret (rows ++ boundary_dofs d))
        [] bs.

(** A backend call on a side that has to be a form. *)
Definition as_form (sd : side form) : M form :=
  match sd with
  | SForm f => ret f
  | SNum _ => raise BackendError
  end.

(** [backend.replace(F, m)]. *)
Definition backend_replace (F : side form) (m : gmap obj obj) : M form :=
  f <- as_form F ;;
  log (EReplace f m) ;;;
  ret (replace f m).

(** [backend.assemble(f)]. *)
Definition backend_assemble (f : form) : M tensor :=
  log (EAssemble f) ;;;
  fns <- gets functions ;;
  ret (assemble fns f).

(** [backend.derivative(F, w, d)]. *)
Definition backend_derivative (F : form) (w : obj) (d : direction) : M form :=
  log (EDerivative F w d) ;;;
  ret (derivative F w d).

(** ** SolveBlock.evaluate_adj *)

(** The local variables alive at the test of [dJdu]. *)
Record adj_locals := {
  fwd_block_output : nat;
  V : nat;
  adj_var : obj;
  replaced_coeffs : gmap obj obj;
  F_form : form;
  dFdu : tensor;
  dJdu : adj tensor
}.

(** The body of [evaluate_adj] down to [dJdu = fwd_block_output.get_adj_output()]. *)
Definition linearise (self : SolveBlock) : M adj_locals :=
  fwd <- index (sb_outputs self) 0 ;;
  u <- get_output fwd ;;
  V <- function_space u ;;
  adj_var <- new_Function V ;;
  p <- (if linear self then
          Vf <- function_space (func self) ;;
          tmp_u <- new_Function Vf ;;
          l <- as_form (lhs self) ;;
          log (EAction l tmp_u) ;;;
          r <- as_form (rhs self) ;;
          ret (tmp_u, SForm (form_sub (action l tmp_u) r))
        else ret (func self, lhs self)) ;;
  let '(tmp_u, F) := p in
  replaced <-
    foldM (fun m bo =>
             coeff <- get_output bo ;;
             cs <- side_coefficients F ;;
             if bool_decide (coeff ∈ cs)
             then c_rep <- get_saved_output bo ;; ret (<[coeff := c_rep]> m)
             else ret m)
          (∅ : gmap obj obj) (sb_dependencies self) ;;
  saved <- get_saved_output fwd ;;
  let replaced := <[tmp_u := saved]> replaced in
  F <- backend_replace F replaced ;;
  (* Obtain (dFdu)^T. *)
  saved <- get_saved_output fwd ;;
  Vu <- function_space u ;;
  dFdu <- backend_derivative F saved (TrialFunction Vu) ;;
  dFdu <- backend_assemble dFdu ;;
  (* Get dJdu from previous calculations. *)
  dJdu <- get_adj_output fwd ;;
  ret {| fwd_block_output := fwd; V := V; adj_var := adj_var;
         replaced_coeffs := replaced; F_form := F; dFdu := dFdu; dJdu := dJdu |}.

(** Homogenize and apply boundary conditions: the loop over [self.bcs].
    It returns the local list [bcs] and the content of [dFdu]. *)
Definition homogenize_and_apply (bs : list obj) (dFdu : tensor) : M (list obj * tensor) :=
  foldM (fun acc bc =>
           bc <- (if isinstance bc KDirichletBC
                  then homogenized_copy bc
                  else ret bc) ;;
           dFdu <- apply_bc bc acc.2 ;;
           ret (acc.1 ++ [bc], dFdu))
        ([], dFdu) bs.

(** The sensitivity of one dependency: the body of the last loop. *)
Definition dependency_adj (self : SolveBlock) (loc : adj_locals) (bs : list obj)
    (bo : nat) : M unit :=
  c <- get_output bo ;;
  if bool_decide (c ≠ func self) then
    match okind c with
    | KFunction =>
        let c_rep := default c (replaced_coeffs loc !! c) in
        Vc <- function_space c ;;
        dFdm <- backend_derivative (F_form loc) c_rep (TrialFunction Vc) ;;
        dFdm <- backend_assemble (form_neg dFdm) ;;
        bc_rows <- collect_bc_rows bs ;;
        log (EZeroRows bc_rows dFdm) ;;;
        let dFdm := zero_rows bc_rows dFdm in
        log (ETranspose dFdm) ;;;
        let dFdm := transpose dFdm in
        x <- vector (adj_var loc) ;;
        log (EMatVec dFdm x) ;;;
        add_adj_output bo (AVec (mat_vec dFdm x))
    | KConstant =>
        dFdm <- backend_derivative (F_form loc) c ConstantOne ;;
        dFdm <- backend_assemble (form_neg dFdm) ;;
        dFdm <- foldM (fun t bc => apply_bc bc t) dFdm bs ;;
        x <- vector (adj_var loc) ;;
        log (EInner dFdm x) ;;;
        add_adj_output bo (ANum (inner dFdm x))
    | KDirichletBC =>
        d <- bc_data c ;;
        x <- vector (adj_var loc) ;;
        tmp_bc <- DirichletBC_new (V loc) x (user_sub_domain d) ;;
        adj_output <- new_Function (V loc) ;;
        y <- vector adj_output ;;
        y <- apply_bc tmp_bc y ;;
        set_vector adj_output y ;;;
        y <- vector adj_output ;;
        add_adj_output bo (AVec y)
    | KExpression =>
        let c_rep := default c (replaced_coeffs loc !! c) in
        dFdm <- backend_derivative (F_form loc) c_rep (TrialFunction (V loc)) ;;
        dFdm <- backend_assemble (form_neg dFdm) ;;
        bc_rows <- collect_bc_rows bs ;;
        log (EZeroRows bc_rows dFdm) ;;;
        let dFdm := zero_rows bc_rows dFdm in
        log (ETranspose dFdm) ;;;
        let dFdm := transpose dFdm in
        x <- vector (adj_var loc) ;;
        log (EMatVec dFdm x) ;;;
        add_adj_output bo (APairs [(mat_vec dFdm x, V loc)])
    | KOther => ret tt
    end
  else ret tt.

(** The body of [evaluate_adj] after the test of [dJdu]. *)
Definition propagate (self : SolveBlock) (loc : adj_locals) : M unit :=
  (* Homogenize and apply boundary conditions on adj_dFdu and dJdu. *)
  p <- homogenize_and_apply (bcs self) (dFdu loc) ;;
  let '(bs, dFdu) := p in
  log (ETranspose dFdu) ;;;
  let dFdu := transpose dFdu in
  (* Solve the adjoint equations. *)
  x <- vector (adj_var loc) ;;
  log (ESolveLinear dFdu x (dJdu loc)) ;;;
  match solve_linear dFdu x (dJdu loc) with
  | Some x =>
      set_vector (adj_var loc) x ;;;
      foldM (fun _ bo => dependency_adj self loc bs bo) tt (sb_dependencies self)
  | None => raise BackendError
  end.

Definition SolveBlock_evaluate_adj (self : SolveBlock) : M unit :=
  loc <- linearise self ;;
  if is_zero (dJdu loc) then ret tt else propagate self loc.

(** ** SolveBlock.recompute *)

(** [Function._ad_create_checkpoint]: [self.copy(deepcopy=True)], a new
    Function holding a copy of the data. *)
Definition _ad_create_checkpoint (o : obj) : M obj :=
  d <- function_data o ;;
  n <- fresh ;;
  log (EFunctionCopy (oid o) n) ;;;
  modify (fun s => set_functions (<[n := d]> (functions s)) s) ;;;
  ret (Obj KFunction n).

(** The local variables of the loop over the dependencies. *)
Record replay_locals := {
  rl_func : obj;
  replace_lhs_coeffs : gmap obj obj;
  replace_rhs_coeffs : gmap obj obj
}.

(** The body of the loop over the dependencies. *)
Definition substitute (self : SolveBlock) (acc : replay_locals) (bo : nat)
    : M replay_locals :=
  c <- get_output bo ;;
  c_rep <- get_saved_output bo ;;
  if bool_decide (c ≠ c_rep) then
    lcs <- side_coefficients (lhs self) ;;
    let acc :=
      if bool_decide (c ∈ lcs)
      then {| rl_func := if bool_decide (c = func self) then c_rep else rl_func acc;
              replace_lhs_coeffs := <[c := c_rep]> (replace_lhs_coeffs acc);
              replace_rhs_coeffs := replace_rhs_coeffs acc |}
      else acc in
    if linear self then
      rcs <- side_coefficients (rhs self) ;;
      ret (if bool_decide (c ∈ rcs)
           then {| rl_func := rl_func acc;
                   replace_lhs_coeffs := replace_lhs_coeffs acc;
                   replace_rhs_coeffs := <[c := c_rep]> (replace_rhs_coeffs acc) |}
           else acc)
    else ret acc
  else ret acc.

Definition SolveBlock_recompute (self : SolveBlock) : M unit :=
  acc <- foldM (substitute self)
           {| rl_func := func self; replace_lhs_coeffs := ∅; replace_rhs_coeffs := ∅ |}
           (sb_dependencies self) ;;
  l <- backend_replace (lhs self) (replace_lhs_coeffs acc) ;;
  r <- (if linear self
        then r <- backend_replace (rhs self) (replace_rhs_coeffs acc) ;; ret (SForm r)
        else ret (SNum 0)) ;;
  solve_eq (SForm l) r (rl_func acc) (bcs self) ;;;
  (* Save output for use in later re-computations. *)
  ck <- _ad_create_checkpoint (rl_func acc) ;;
  out <- index (sb_outputs self) 0 ;;
  set_checkpoint out ck.

(** ** AssignBlock *)

Definition AssignBlock_evaluate_adj (self : AssignBlock) : M unit :=
  out <- index (ab_outputs self) 0 ;;
  adj_input <- get_adj_output out ;;
  dep <- index (ab_dependencies self) 1 ;;
  add_adj_output dep adj_input.

(** [backend.Function.assign(dst, src)]: the data of a source Function is
    copied into [dst]; assigning a Function to itself does nothing. *)
Definition Function_assign (dst src : obj) : M unit :=
  log (EAssign dst src) ;;;
  d <- function_data dst ;;
  match okind src with
  | KFunction =>
      v <- function_data src ;;
      modify (fun s => set_functions (<[oid dst := v]> (functions s)) s)
  | _ =>
      match assign_from src d with
      | Some v => modify (fun s => set_functions (<[oid dst := v]> (functions s)) s)
      | None => raise BackendError
      end
  end.

Definition AssignBlock_recompute (self : AssignBlock) : M unit :=
  let deps := ab_dependencies self in
  other_bo <- index deps 1 ;;
  out <- index (ab_outputs self) 0 ;;
  dst <- get_saved_output out ;;
  src <- get_saved_output other_bo ;;
  Function_assign dst src.

(** ** Dispatch on the block *)

Definition evaluate_adj (b : Block) : M unit :=
  match b with
  | BSolve self => SolveBlock_evaluate_adj self
  | BAssign self => AssignBlock_evaluate_adj self
  end.

Definition recompute (b : Block) : M unit :=
  match b with
  | BSolve self => SolveBlock_recompute self
  | BAssign self => AssignBlock_recompute self
  end.

(** ** Observations on arguments and call logs *)

(** [isinstance(a, ufl.equation.Equation)]. *)
Definition is_equation (a : pyarg form) : bool :=
  match a with AEquation _ _ => true | _ => false end.

(** The event is a call of [backend.solve] on the arguments of [solve]. *)
Definition is_forward_solve (e : event) : bool :=
  match e with
  | ESolveVariational _ _ _ _ | ESolveOther _ => true
  | _ => false
  end.

Definition is_add_output (e : event) : bool :=
  match e with EAddOutput _ _ => true | _ => false end.

(** The event is a backend solve, of an equation or of a linear system. *)
Definition is_solve (e : event) : bool :=
  match e with
  | ESolveVariational _ _ _ _ | ESolveOther _ | ESolveLinear _ _ _ => true
  | _ => false
  end.

Definition is_assemble (e : event) : bool :=
  match e with EAssemble _ => true | _ => false end.

(** The events the linear branch adds: the action of the left-hand side
    on the placeholder. *)
Definition action_calls (self : SolveBlock) (tmp_u : obj) : list event :=
  if linear self then
    match lhs self with
    | SForm l => [EAction l tmp_u]
    | SNum _ => []
    end
  else [].

(** A homogenization recorded in the log concerns an object created at or
    after the identity [n0]. *)
Definition homogenizes_fresh (n0 : nat) (e : event) : Prop :=
  match e with
  | EHomogenize n => (n0 <= n)%nat
  | _ => True
  end.




(** Some event satisfying [p] comes strictly before one satisfying [q]. *)
Fixpoint precedes (p q : event -> bool) (l : list event) : bool :=
  match l with
  | [] => false
  | e :: l' => (p e && existsb q l') || precedes p q l'
  end.

(** ** Relations between states *)

(** [preserves R m]: every run of [m] relates its initial to its final
    state by [R], whether it returns or raises. *)
Definition preserves {A} (R : relation state) (m : M A) : Prop :=
  forall s r s', m s = (r, s') -> R s s'.

(** [quiet s s']: no block output has changed and no backend solve has
    been called between [s] and [s']. *)
Definition quiet (s s' : state) : Prop :=
  block_outputs s' = block_outputs s /\
  exists l, calls s' = calls s ++ l /\ Forall (fun e => is_solve e = false) l.

(** [originals_kept s s']: every boundary condition that exists in [s]
    has the same content in [s'], and whatever was homogenized in between
    was created in between. *)
Definition originals_kept (s s' : state) : Prop :=
  (next_id s <= next_id s')%nat /\
  (forall i, (i < next_id s)%nat -> bconds s' !! i = bconds s !! i) /\
  exists l, calls s' = calls s ++ l /\ Forall (homogenizes_fresh (next_id s)) l.

(** The loop of [recompute] over the dependencies [xs], seen on the
    replacement of one side, whose coefficients are [cs]: it leads from [m]
    to [m'].  Every new entry replaces a dependency that occurs in the side
    and differs from its saved output by that saved output, no entry is
    lost, and every such dependency has an entry. *)
Definition substituted (s : state) (xs : list nat) (cs : list obj)
    (m m' : gmap obj obj) : Prop :=
  (forall c r, m' !! c = Some r ->
     m !! c = Some r \/
     (c ≠ r /\ c ∈ cs /\ exists bo b, bo ∈ xs /\ block_outputs s !! bo = Some b /\
        output b = c /\ saved_output b = r)) /\
  (forall c, is_Some (m !! c) -> is_Some (m' !! c)) /\
  (forall bo b, bo ∈ xs -> block_outputs s !! bo = Some b ->
     output b ∈ cs -> output b ≠ saved_output b -> is_Some (m' !! output b)).


(** ** Checkpoints, AssignBlock.__init__ and Function.assign *)

(** [Function._ad_restore_at_checkpoint]. *)
Definition _ad_restore_at_checkpoint (self checkpoint : obj) : obj := checkpoint.

(** [o._ad_create_checkpoint()] on any value.  For a Function it is the
    method of the source.  Modelled from the spec: the checkpoint methods
    of the other overloaded types are not among the sources; a checkpoint
    is an independent copy of the value, a new object of the same class
    with the content of the value where a store holds one. *)
Definition create_checkpoint (o : obj) : M obj :=
  match okind o with
  | KFunction => _ad_create_checkpoint o
  | KDirichletBC =>
      d <- bc_data o ;;
      n <- fresh ;;
      modify (fun s => set_bconds (<[n := d]> (bconds s)) s) ;;;
      ret (Obj KDirichletBC n)
  | KConstant => n <- fresh ;; ret (Obj KConstant n)
  | KExpression => n <- fresh ;; ret (Obj KExpression n)
  | KOther => raise AttributeError
  end.

(** Modelled from the spec: [BlockOutput.save_output] is not among the
    sources; it copies the current value into the checkpoint. *)
Definition save_output (bo : nat) : M unit :=
  b <- block_output bo ;;
  ck <- create_checkpoint (output b) ;;
  set_checkpoint bo ck.

(** Modelled from the spec: [Block.add_dependency], as [add_dependency],
    on the block object [b] of the block store. *)
Definition add_dependency_to (b dep : nat) : M unit :=
  fun s =>
    match blocks s !! b with
    | Some (BAssign blk) =>
        (Ok tt,
         set_blocks
           (<[b := BAssign
                {| ab_dependencies :=
                     if bool_decide (dep ∈ ab_dependencies blk)
                     then ab_dependencies blk
                     else ab_dependencies blk ++ [dep];
                   ab_outputs := ab_outputs blk |}]>
              (blocks s)) s)
    | Some (BSolve blk) =>
        (Ok tt, set_blocks (<[b := BSolve (add_dependency dep blk)]> (blocks s)) s)
    | None => (Raise InvalidReference, s)
    end.

(** [AssignBlock(func, other)]: the new block object. *)
Definition AssignBlock_init (func other : obj) : M nat :=
  self <- new_block (BAssign {| ab_dependencies := []; ab_outputs := [] |}) ;;
  dep <- get_block_output func ;;
  add_dependency_to self dep ;;;
  dep <- get_block_output other ;;
  add_dependency_to self dep ;;;
  bo <- get_block_output func ;;
  save_output bo ;;;
  bo <- get_block_output other ;;
  save_output bo ;;;
  bo <- create_block_output func ;;
  add_output self bo ;;;
  ret self.

(** [Function.assign(self, other, annotate_tape=...)]. *)
Definition assign (self other : obj) (annotate_tape : option bool) : M unit :=
  (if default true annotate_tape then
     block <- AssignBlock_init self other ;;
     add_block block
   else ret tt) ;;;
  Function_assign self other.

(** ** More relations between states *)

(** [functions_kept n0 s s']: when every identity from [n0] on is unused
    in [s], it is in [s'] too and the Functions below [n0] have the same
    data in [s'] as in [s]. *)
Definition functions_kept (n0 : nat) (s s' : state) : Prop :=
  (n0 <= next_id s)%nat ->
  (n0 <= next_id s')%nat /\
  forall i, (i < n0)%nat -> functions s' !! i = functions s !! i.

(** [accumulators_only deps s s']: between [s] and [s'] the tape, the
    blocks and the attachments are the same, every block output has kept
    its value and its checkpoint, and the block outputs outside [deps] are
    the same altogether. *)
Definition accumulators_only (deps : list nat) (s s' : state) : Prop :=
  tape s' = tape s /\ blocks s' = blocks s /\ attached s' = attached s /\
  forall k,
    output <$> block_outputs s' !! k = output <$> block_outputs s !! k /\
    checkpoint <$> block_outputs s' !! k = checkpoint <$> block_outputs s !! k /\
    (k ∉ deps -> block_outputs s' !! k = block_outputs s !! k).

(** [replayed s s']: between [s] and [s'] the tape, the blocks, the
    attachments and the boundary conditions are the same, and every block
    output has kept its value and its accumulated adjoint. *)
Definition replayed (s s' : state) : Prop :=
  tape s' = tape s /\ blocks s' = blocks s /\ attached s' = attached s /\
  bconds s' = bconds s /\
  forall k,
    output <$> block_outputs s' !! k = output <$> block_outputs s !! k /\
    adj_value <$> block_outputs s' !! k = adj_value <$> block_outputs s !! k.

(** The shape of the contribution a dependency of class [k] receives. *)
Definition contribution_of (k : kind) (Vu : nat) (c : adj tensor) : Prop :=
  match k with
  | KFunction | KDirichletBC => exists v, c = AVec v
  | KConstant => exists z, c = ANum z
  | KExpression => exists v, c = APairs [(v, Vu)]
  | KOther => False
  end.

(** [contributes bo P m]: a run of [m] either raises, having changed no
    block output and called no solver, or ends, after steps that change no
    block output and call no solver, with one [add_adj_output] on [bo] of a
    contribution that satisfies [P]. *)
Definition contributes (bo : nat) (P : adj tensor -> Prop) (m : M unit) : Prop :=
  forall s r s', m s = (r, s') ->
    (quiet s s' /\ exists e, r = Raise e) \/
    exists s1 c, P c /\ quiet s s1 /\ add_adj_output bo c s1 = (r, s').

(** The event is no backend solve, or it is a linear solve whose
    right-hand side is [rhs]. *)
Definition solves_for (rhs : adj tensor) (e : event) : Prop :=
  match e with
  | ESolveLinear _ _ b => b = rhs
  | ESolveVariational _ _ _ _ | ESolveOther _ => False
  | _ => True
  end.

(** [adjoint_solves rhs s s']: every backend solve called between [s] and
    [s'] is a linear solve with the right-hand side [rhs]. *)
Definition adjoint_solves (rhs : adj tensor) (s s' : state) : Prop :=
  exists l, calls s' = calls s ++ l /\ Forall (solves_for rhs) l.

(** The Jacobian after the loop over the boundary conditions whose
    contents are [ds]: each one is homogenized and applied, in turn. *)
Definition constrained (ds : list bcdata) (t : tensor) : tensor :=
  foldl (fun t d => bc_apply (homogenize d) t) t ds.

End Embedding.

(** ** A symbolic backend

    The free interpretation of the interface: every backend result is the
    term of the calls that produced it.  It is the backend of the
    concrete runs below. *)

Inductive sform :=
| FBase (name : nat) (cs : list obj)
| FAction (f : sform) (u : obj)
| FSub (a b : sform)
| FNeg (a : sform)
| FReplace (f : sform) (m : list (obj * obj))
| FDerivative (f : sform) (w : obj) (d : direction).

#[warnings="-register-all"]
Inductive sym :=
| SData (n : nat)
| SZeroVector (V : nat)
| SAssemble (f : sform)
| STranspose (t : sym)
| SZeroRows (rows : list nat) (t : sym)
| SMatVec (m v : sym)
| SPlus (a b : sym)
| SApply (bc t : sym)
| SSolveLinear (A x : sym) (b : adj sym)
| SSolved (l r : side sform) (bs : list obj)
| SFailed (l r : side sform) (bs : list obj)
| SAssigned (src : obj) (old : sym)
| SDirichlet (value sub : nat)
| SHomogenized (bc : sym)
| SMakeBC (V : nat) (value : sym) (sub : nat).

Definition subst_obj (m : list (obj * obj)) (o : obj) : obj :=
  match list_find (fun p => p.1 = o) m with
  | Some (_, p) => p.2
  | None => o
  end.

Fixpoint sym_coefficients (f : sform) : list obj :=
  match f with
  | FBase _ cs => cs
  | FAction f u => sym_coefficients f ++ [u]
  | FSub a b => sym_coefficients a ++ sym_coefficients b
  | FNeg a => sym_coefficients a
  | FReplace f m => subst_obj m <$> sym_coefficients f
  | FDerivative f _ _ => sym_coefficients f
  end.

Fixpoint sym_sub_domain (bc : sym) : nat :=
  match bc with
  | SDirichlet _ sub => sub
  | SHomogenized bc => sym_sub_domain bc
  | SMakeBC _ _ sub => sub
  | _ => 0
  end%nat.

Definition sym_adj_plus (a c : adj sym) : adj sym :=
  match a, c with
  | _, ANum 0 => a
  | ANum x, ANum y => ANum (x + y)
  | AVec u, AVec v => AVec (SPlus u v)
  | APairs l, APairs l' => APairs (l ++ l')
  | _, _ => a
  end.

Definition symbolic : Backend := {|
  form := sform;
  tensor := sym;
  bcdata := sym;
  coefficients := sym_coefficients;
  action := FAction;
  form_sub := FSub;
  form_neg := FNeg;
  replace := fun f m => FReplace f (map_to_list m);
  derivative := FDerivative;
  zero_vector := SZeroVector;
  assemble := fun _ f => SAssemble f;
  transpose := STranspose;
  zero_rows := SZeroRows;
  mat_vec := SMatVec;
  inner := fun _ _ => 1;
  solve_linear := fun A x b => Some (SSolveLinear A x b);
  homogenize := SHomogenized;
  bc_apply := SApply;
  boundary_dofs := fun bc => [sym_sub_domain bc];
  user_sub_domain := sym_sub_domain;
  make_bc := SMakeBC;
  solve_variational := fun _ _ l r _ bs => Some (SSolved l r bs);
  solve_failed := fun _ _ l r _ bs => SFailed l r bs;
  assign_from := fun src d =>
    Some {| fn_space := fn_space d; fn_vector := SAssigned src (fn_vector d) |};
  adj_plus := sym_adj_plus;
  adj_plus_zero := fun a =>
    match a as a0 return sym_adj_plus a0 (ANum 0) = a0 with
    | ANum _ => eq_refl
    | AVec _ => eq_refl
    | APairs _ => eq_refl
    end
|}.

Module Examples.

#[local] Existing Instance symbolic.

(** The objects of one time step of the Burgers test: the unknown [u], the
    copy [u_ck] saved for its previous value, the previous step [u_old], a
    Dirichlet condition [bc] and the residual [F(u; u_old)]. *)
Definition u : obj := Obj KFunction 1.
Definition u_ck : obj := Obj KFunction 2.
Definition u_old : obj := Obj KFunction 3.
Definition bc : obj := Obj KDirichletBC 4.
Definition F : sform := FBase 0 [u; u_old].

Definition fn (n : nat) : FunctionData sym :=
  {| fn_space := 0%nat; fn_vector := SData n |}.

(** The state in which [solve(F == 0, u, bc)] is called: the block outputs
    5, 6 and 7 are attached to [u] (saved as [u_ck]), [u_old] and [bc]. *)
Definition recording : state :=
  {| next_id := 8;
     functions := {[ 1%nat := fn 1; 2%nat := fn 2; 3%nat := fn 3 ]};
     bconds := {[ 4%nat := SDirichlet 7 1 ]};
     block_outputs :=
       {[ 5%nat := {| output := u; checkpoint := Some u_ck; adj_value := ANum 0 |};
          6%nat := {| output := u_old; checkpoint := None; adj_value := ANum 0 |};
          7%nat := {| output := bc; checkpoint := None; adj_value := ANum 0 |} ]};
     attached := {[ u := 5%nat; u_old := 6%nat; bc := 7%nat ]};
     blocks := ∅;
     tape := [];
     calls := [] |}.

Definition args : list (pyarg sform) :=
  [AEquation (SForm F) (SNum 0); AObj u; AObj bc].

(** A linear-algebra solve: a matrix and two vectors. *)
Definition la_args : list (pyarg sform) :=
  [AObj (Obj KOther 20); AObj (Obj KOther 21); AObj (Obj KOther 22)].

(** The block the constructor returns, before any output is added. *)
Definition constructed : SolveBlock :=
  {| sb_dependencies := [7; 5; 6]%nat; sb_outputs := [];
     lhs := SForm F; rhs := SNum 0; func := u; bcs := [bc]; linear := false |}.

(** The block [solve] records: object 8, with output 9. *)
Definition blk : SolveBlock :=
  {| sb_dependencies := [7; 5; 6]%nat; sb_outputs := [9%nat];
     lhs := SForm F; rhs := SNum 0; func := u; bcs := [bc]; linear := false |}.

(** The output of the block, with [dJdu] accumulated on it. *)
Definition out_u (dJdu : adj sym) : BlockOutput :=
  {| output := u; checkpoint := None; adj_value := dJdu |}.

(** The state of a backward sweep reaching the block. *)
Definition recorded (dJdu : adj sym) : state :=
  {| next_id := 10;
     functions := {[ 1%nat := fn 1; 2%nat := fn 2; 3%nat := fn 3 ]};
     bconds := {[ 4%nat := SDirichlet 7 1 ]};
     block_outputs :=
       {[ 5%nat := {| output := u; checkpoint := Some u_ck; adj_value := ANum 0 |};
          6%nat := {| output := u_old; checkpoint := None; adj_value := ANum 0 |};
          7%nat := {| output := bc; checkpoint := None; adj_value := ANum 0 |};
          9%nat := out_u dJdu ]};
     attached := {[ u := 9%nat; u_old := 6%nat; bc := 7%nat ]};
     blocks := {[ 8%nat := BSolve blk ]};
     tape := [8%nat];
     calls := [] |}.

(** The residual with the coefficients replaced, and its Jacobian. *)
Definition F_rep : sform := FReplace F [(u_old, u_old); (u, u)].
Definition J : sym := SAssemble (FDerivative F_rep u (TrialFunction 0)).

(** [u_old.assign(u)] recorded after the solve: the prior block output of
    [u_old] (6) and the block output of [u] (9) are the dependencies, 12 is
    the output; it wraps the live [u_old] and was saved as the copy 11. *)
Definition source_u : BlockOutput :=
  {| output := u; checkpoint := Some (Obj KFunction 10); adj_value := ANum 0 |}.

Definition out_u_old (a : adj sym) : BlockOutput :=
  {| output := u_old; checkpoint := Some (Obj KFunction 11); adj_value := a |}.

Definition assign_blk : AssignBlock :=
  {| ab_dependencies := [6; 9]%nat; ab_outputs := [12%nat] |}.

Definition assigned (a : adj sym) : state :=
  {| next_id := 13;
     functions := {[ 1%nat := fn 1; 3%nat := fn 3; 10%nat := fn 10; 11%nat := fn 11 ]};
     bconds := ∅;
     block_outputs :=
       {[ 6%nat := {| output := u_old; checkpoint := None; adj_value := ANum 0 |};
          9%nat := source_u;
          12%nat := out_u_old a ]};
     attached := {[ u := 9%nat; u_old := 12%nat ]};
     blocks := {[ 8%nat := BAssign assign_blk ]};
     tape := [8%nat];
     calls := [] |}.

(** The block outputs attached to [u] and to [u_old] before the solve. *)
Definition dep_u : BlockOutput :=
  {| output := u; checkpoint := Some u_ck; adj_value := ANum 0 |}.

Definition dep_u_old : BlockOutput :=
  {| output := u_old; checkpoint := None; adj_value := ANum 0 |}.

(** A block whose left-hand side is a number and not a form. *)
Definition no_form_blk : SolveBlock :=
  {| sb_dependencies := []; sb_outputs := [9%nat];
     lhs := SNum 1; rhs := SNum 0; func := u; bcs := []; linear := false |}.

End Examples.

(** * Properties *)

Section Properties.
Context `{B : Backend}.

(** ** Reasoning about computations *)

Lemma bind_inv {A C} (m : M A) (k : A -> M C) s r s' :
  bind m k s = (r, s') ->
  (exists a s1, m s = (Ok a, s1) /\ k a s1 = (r, s')) \/
  (exists e, m s = (Raise e, s') /\ r = Raise e).
Proof.
  unfold bind. destruct (m s) as [[a|e] s1]; intros H.
  - left. eauto.
  - right. exists e. by simplify_eq.
Qed.

Lemma bind_Ok_inv {A C} (m : M A) (k : A -> M C) s c s' :
  bind m k s = (Ok c, s') ->
  exists a s1, m s = (Ok a, s1) /\ k a s1 = (Ok c, s').
Proof.
  intros H. apply bind_inv in H as [H|(e & _ & H)]; [done | discriminate].
Qed.

Lemma bind_Ok {A C} (m : M A) (k : A -> M C) s a s1 :
  m s = (Ok a, s1) -> bind m k s = k a s1.
Proof. unfold bind. by intros ->. Qed.

Lemma bind_Raise {A C} (m : M A) (k : A -> M C) s e s1 :
  m s = (Raise e, s1) -> bind m k s = (Raise e, s1).
Proof. unfold bind. by intros ->. Qed.

Section Preserves.
Context (R : relation state) (HR : PreOrder R).

Lemma preserves_ret {A} (a : A) : preserves R (ret a).
Proof. intros s r s' [= _ <-]. reflexivity. Qed.

Lemma preserves_raise {A} e : preserves R (@raise _ A e).
Proof. intros s r s' [= _ <-]. reflexivity. Qed.

Lemma preserves_gets {A} (f : state -> A) : preserves R (gets f).
Proof. intros s r s' [= _ <-]. reflexivity. Qed.

Lemma preserves_modify (f : state -> state) :
  (forall s, R s (f s)) -> preserves R (modify f).
Proof. intros Hf s r s' [= _ <-]. apply Hf. Qed.

Lemma preserves_bind {A C} (m : M A) (k : A -> M C) :
  preserves R m -> (forall a, preserves R (k a)) -> preserves R (bind m k).
Proof.
  intros Hm Hk s r s' H.
  apply bind_inv in H as [(a & s1 & H1 & H2)|(e & H1 & _)].
  - etrans; [by eapply Hm | by eapply Hk].
  - by eapply Hm.
Qed.

Lemma preserves_foldM {A X} (f : A -> X -> M A) xs :
  (forall a x, preserves R (f a x)) -> forall a, preserves R (foldM f a xs).
Proof.
  intros Hf. induction xs as [|x xs IH]; intros a; simpl.
  - apply preserves_ret.
  - apply preserves_bind; auto.
Qed.

Lemma preserves_index {A} (xs : list A) i : preserves R (index xs i).
Proof.
  unfold index. destruct (xs !! i); [apply preserves_ret | apply preserves_raise].
Qed.

(** A computation that never changes the state preserves [R]. *)
Lemma preserves_read_only {A} (m : M A) : preserves eq m -> preserves R m.
Proof. intros Hm s r s' H. by rewrite (Hm _ _ _ H). Qed.

End Preserves.

#[local] Instance eq_state_preorder : PreOrder (@eq state).
Proof. split; [by intros ? | by intros ? ? ? -> ->]. Qed.

(** Decompose [preserves R m] along the structure of [m]. *)
Ltac frame_step :=
  lazymatch goal with
  | |- preserves _ (ret _) => apply preserves_ret; tc_solve
  | |- preserves _ (raise _) => apply preserves_raise; tc_solve
  | |- preserves _ (gets _) => apply preserves_gets; tc_solve
  | |- preserves _ (index _ _) => apply preserves_index; tc_solve
  | |- preserves _ (bind _ _) => apply preserves_bind; [tc_solve | | intros ?]
  | |- preserves _ (foldM _ _ _) => apply preserves_foldM; [tc_solve | intros ? ?]
  | |- preserves _ (if ?b then _ else _) => destruct b
  | |- preserves _ (match ?x with _ => _ end) => destruct x
  | |- preserves _ (let _ := _ in _) => cbv zeta
  end.

Create HintDb frames.

Ltac frame :=
  repeat first
    [ frame_step
    | solve [auto with frames]
    | solve [apply preserves_read_only; [tc_solve | auto with frames]] ].

(** *** Readers *)

Lemma block_output_read_only bo : preserves eq (block_output bo).
Proof.
  intros s r s'. unfold block_output.
  destruct (block_outputs s !! bo); by intros [= _ <-].
Qed.

Lemma get_block_output_read_only o : preserves eq (get_block_output o).
Proof.
  intros s r s'. unfold get_block_output.
  destruct (attached s !! o); by intros [= _ <-].
Qed.

Lemma function_data_read_only o : preserves eq (function_data o).
Proof.
  intros s r s'. unfold function_data.
  destruct o as [[] i]; try by intros [= _ <-].
  destruct (functions s !! i); by intros [= _ <-].
Qed.

Lemma bc_data_read_only o : preserves eq (bc_data o).
Proof.
  intros s r s'. unfold bc_data.
  destruct o as [[] i]; try by intros [= _ <-].
  destruct (bconds s !! i); by intros [= _ <-].
Qed.

#[local] Hint Resolve block_output_read_only get_block_output_read_only
  function_data_read_only bc_data_read_only : frames.

Lemma get_output_read_only bo : preserves eq (get_output bo).
Proof. unfold get_output. frame. Qed.

Lemma get_saved_output_read_only bo : preserves eq (get_saved_output bo).
Proof. unfold get_saved_output. frame. Qed.

Lemma get_adj_output_read_only bo : preserves eq (get_adj_output bo).
Proof. unfold get_adj_output. frame. Qed.

Lemma function_space_read_only o : preserves eq (function_space o).
Proof. unfold function_space. frame. Qed.

Lemma vector_read_only o : preserves eq (vector o).
Proof. unfold vector. frame. Qed.

Lemma as_object_read_only a : preserves eq (as_object a).
Proof. unfold as_object. frame. Qed.

Lemma as_form_read_only sd : preserves eq (as_form sd).
Proof. unfold as_form. frame. Qed.

Lemma side_coefficients_read_only sd : preserves eq (side_coefficients sd).
Proof. unfold side_coefficients. frame. Qed.

#[local] Hint Resolve get_output_read_only get_saved_output_read_only
  get_adj_output_read_only function_space_read_only vector_read_only
  as_object_read_only as_form_read_only side_coefficients_read_only : frames.

Lemma add_dependencies_read_only cs self :
  preserves eq (add_dependencies cs self).
Proof. unfold add_dependencies. frame. Qed.

#[local] Hint Resolve add_dependencies_read_only : frames.

(** The constructor only builds the block: it changes nothing else. *)
Lemma SolveBlock_init_read_only args : preserves eq (SolveBlock_init args).
Proof. unfold SolveBlock_init. frame. Qed.

(** ** Construction of a SolveBlock *)

Lemma add_dependencies_fields cs self s blk s' :
  add_dependencies cs self s = (Ok blk, s') ->
  sb_outputs blk = sb_outputs self /\ lhs blk = lhs self /\ rhs blk = rhs self /\
  func blk = func self /\ bcs blk = bcs self /\ linear blk = linear self.
Proof.
  unfold add_dependencies. revert self s.
  induction cs as [|c cs IH]; intros self s; simpl.
  - by intros [= <- _].
  - intros H. apply bind_Ok_inv in H as (self1 & s1 & H1 & H2).
    apply bind_Ok_inv in H1 as (bo & s2 & _ & [= <- _]).
    apply IH in H2. simpl in H2. done.
Qed.

Lemma add_dependencies_raises cs self s e s' :
  add_dependencies cs self s = (Raise e, s') -> e = AttributeError.
Proof.
  unfold add_dependencies. revert self s.
  induction cs as [|c cs IH]; intros self s; simpl; [done|].
  intros H. apply bind_inv in H as [(self1 & s1 & _ & H2)|(e' & H1 & [= <-])].
  - by eapply IH.
  - apply bind_inv in H1 as [(bo & s2 & _ & [=])|(e' & H1 & [= <-])].
    unfold get_block_output in H1. by destruct (attached s !! c); simplify_eq.
Qed.

Lemma add_dependencies_attached cs self s :
  (forall c, c ∈ cs -> is_Some (attached s !! c)) ->
  exists blk, add_dependencies cs self s = (Ok blk, s).
Proof.
  unfold add_dependencies. revert self.
  induction cs as [|c cs IH]; intros self Hcs; simpl; [by eexists|].
  destruct (Hcs c) as [bo Hbo]; [by left|].
  destruct (IH (add_dependency bo self)) as [blk Hblk].
  { intros c' Hc'. apply Hcs. by right. }
  exists blk. unfold bind at 1, bind at 1, get_block_output. by rewrite Hbo.
Qed.

(** What a successful construction returns. *)
Lemma SolveBlock_init_Ok args s blk s' :
  SolveBlock_init args s = (Ok blk, s') ->
  exists l r u,
    args !! 0%nat = Some (AEquation l r) /\ args !! 1%nat = Some (AObj u) /\
    lhs blk = l /\ rhs blk = r /\ func blk = u /\ sb_outputs blk = [] /\
    linear blk = is_form l && is_form r.
Proof.
  unfold SolveBlock_init, index. intros H.
  destruct (args !! 0%nat) as [a0|] eqn:H0; [|done].
  rewrite (bind_Ok _ _ _ a0 s) in H by done.
  destruct a0 as [l r| |]; try done.
  destruct (args !! 1%nat) as [a1|] eqn:H1; [|done].
  rewrite (bind_Ok _ _ _ a1 s) in H by done.
  destruct a1 as [|u|]; try done.
  rewrite (bind_Ok _ _ _ u s) in H by done.
  apply bind_Ok_inv in H as (bs & s1 & _ & H).
  apply bind_Ok_inv in H as (self1 & s2 & Hlin & H).
  apply bind_Ok_inv in H as (self2 & s3 & Hbcs & H).
  apply bind_Ok_inv in H as (cs & s4 & _ & H).
  apply add_dependencies_fields in H as (Ho & Hl & Hr & Hf & _ & Hn).
  apply add_dependencies_fields in Hbcs as (Ho' & Hl' & Hr' & Hf' & _ & Hn').
  rewrite Ho, Hl, Hr, Hf, Hn, Ho', Hl', Hr', Hf', Hn'.
  exists l, r, u.
  destruct (is_form l && is_form r).
  - apply bind_Ok_inv in Hlin as (cs' & s5 & _ & Hlin).
    by apply add_dependencies_fields in Hlin as (-> & -> & -> & -> & _ & ->).
  - by injection Hlin as <- _.
Qed.

(** C8: when the first argument of a SolveBlock is not an equation (a
    linear-algebra solve is requested), construction raises
    NotImplementedError at once; the annotated [solve] raises it before
    anything is recorded: the tape, the block store, the block outputs and
    the call log (hence the backend) are untouched. *)
Theorem SolveBlock_rejects_linear_algebra args a0 annotate_tape s :
  args !! 0%nat = Some a0 ->
  is_equation a0 = false ->
  default true annotate_tape = true ->
  SolveBlock_init args s = (Raise NotImplementedError, s) /\
  solve args annotate_tape s = (Raise NotImplementedError, s).
Proof.
  intros H0 Heq Hann.
  assert (Hinit : SolveBlock_init args s = (Raise NotImplementedError, s)).
  { unfold SolveBlock_init, index. rewrite H0.
    rewrite (bind_Ok _ _ _ a0 s) by done. by destruct a0. }
  split; [done|].
  unfold solve. rewrite Hann.
  apply bind_Raise. by apply bind_Raise.
Qed.

(** C7 (amended): the linear flag of a constructed block is true iff both
    sides of the equation are forms.  A right-hand side that is not a form
    raises nothing: with the unknown, the boundary conditions and the
    coefficients of the left-hand side attached to block outputs, the
    block is constructed as nonlinear.  A left-hand side that is not a
    form makes the construction fail, with an IndexError or an
    AttributeError and never a dedicated construction error. *)
Theorem SolveBlock_linear_flag s :
  (forall args blk s',
     SolveBlock_init args s = (Ok blk, s') ->
     exists l r, args !! 0%nat = Some (AEquation l r) /\
       lhs blk = l /\ rhs blk = r /\
       (linear blk = true <-> is_form l = true /\ is_form r = true)) /\
  (forall f z u bs,
     (forall c, c ∈ bs ++ coefficients f -> is_Some (attached s !! c)) ->
     exists blk,
       SolveBlock_init [AEquation (SForm f) (SNum z); AObj u; AList bs] s = (Ok blk, s) /\
       linear blk = false) /\
  (forall z r rest res s',
     SolveBlock_init (AEquation (SNum z) r :: rest) s = (res, s') ->
     res = Raise IndexError \/ res = Raise AttributeError).
Proof.
  split_and!.
  - intros args blk s' H.
    apply SolveBlock_init_Ok in H as (l & r & u & H0 & _ & Hl & Hr & _ & _ & Hlin).
    exists l, r. split_and!; try done.
    rewrite Hlin. apply andb_true_iff.
  - intros f z u bs Hatt.
    destruct (add_dependencies_attached bs
                {| sb_dependencies := []; sb_outputs := []; lhs := SForm f;
                   rhs := SNum z; func := u; bcs := bs; linear := false |} s)
      as [blk1 H1].
    { intros c Hc. apply Hatt. set_solver. }
    destruct (add_dependencies_attached (coefficients f) blk1 s) as [blk2 H2].
    { intros c Hc. apply Hatt. set_solver. }
    exists blk2. split.
    + unfold SolveBlock_init, index. simpl.
      rewrite (bind_Ok _ _ _ (AEquation (SForm f) (SNum z)) s) by done.
      rewrite (bind_Ok _ _ _ (AObj u) s) by done.
      rewrite (bind_Ok _ _ _ u s) by done.
      rewrite (bind_Ok _ _ _ bs s) by done.
      rewrite (bind_Ok _ _ _ _ s) by done.
      rewrite (bind_Ok _ _ _ _ _ H1).
      rewrite (bind_Ok _ _ _ (coefficients f) s) by done.
      done.
    + apply add_dependencies_fields in H2 as (_ & _ & _ & _ & _ & ->).
      by apply add_dependencies_fields in H1 as (_ & _ & _ & _ & _ & ->).
  - intros z r rest res s' H.
    unfold SolveBlock_init, index in H. simpl in H.
    rewrite (bind_Ok _ _ _ (AEquation (SNum z) r) s) in H by done.
    apply bind_inv in H as [(a1 & s1 & _ & H)|(e & H & ->)]; last first.
    { unfold ret, raise in H. destruct (rest !! 0%nat); simplify_eq. by left. }
    apply bind_inv in H as [(u & s2 & _ & H)|(e & H & ->)]; last first.
    { unfold as_object, ret, raise in H. destruct a1; simplify_eq; by right. }
    apply bind_inv in H as [(bs & s3 & _ & H)|(e & H & ->)]; last first.
    { right. unfold as_object, bind, ret, raise in H.
      destruct (rest !! 1%nat) as [[]|]; by simplify_eq. }
    apply bind_inv in H as [(self1 & s4 & _ & H)|(e & H & ->)]; [|by simpl in H].
    apply bind_inv in H as [(self2 & s5 & _ & H)|(e & H & ->)]; last first.
    { right. by apply add_dependencies_raises in H as ->. }
    apply bind_inv in H as [(cs & s6 & H & _)|(e & H & ->)]; [done|].
    right. unfold side_coefficients, raise in H. by simplify_eq.
Qed.

(** ** The annotated solve *)

Lemma solve_eq_calls l r u bs s res s' :
  solve_eq l r u bs s = (res, s') ->
  calls s' = calls s ++ [ESolveVariational l r u bs] /\
  blocks s' = blocks s /\ tape s' = tape s /\
  block_outputs s' = block_outputs s /\ bconds s' = bconds s.
Proof.
  unfold solve_eq, log, modify, bind. intros H.
  repeat case_match; by simplify_eq.
Qed.

Lemma backend_solve_calls args s res s' :
  backend_solve args s = (res, s') ->
  exists e, is_forward_solve e = true /\ calls s' = calls s ++ [e] /\
    blocks s' = blocks s /\ tape s' = tape s.
Proof.
  unfold backend_solve. intros H.
  repeat case_match;
    first [ apply solve_eq_calls in H as (? & ? & ? & _); by eexists (ESolveVariational _ _ _ _)
          | injection H as _ <-; by eexists (ESolveOther _) ].
Qed.

(** C9 (amended): in the annotated [solve], the output is attached to the
    block before the forward backend solve runs.  Every annotated call
    that returns has appended exactly three events to the log: the block
    is added to the tape, its output is attached, and then the backend
    solves; the block on the tape owns that single output. *)
Theorem solve_attaches_output_before_forward_solve args annotate_tape s s' :
  default true annotate_tape = true ->
  solve args annotate_tape s = (Ok tt, s') ->
  exists e blk,
    is_forward_solve e = true /\
    calls s' = calls s ++ [EAddBlock (next_id s);
                           EAddOutput (next_id s) (S (next_id s)); e] /\
    tape s' = tape s ++ [next_id s] /\
    blocks s' !! next_id s = Some (BSolve blk) /\
    sb_outputs blk = [S (next_id s)].
Proof.
  intros Hann H. unfold solve in H. rewrite Hann in H.
  apply bind_Ok_inv in H as ([] & s1 & Hrec & Hsolve).
  apply bind_Ok_inv in Hrec as (blk & s2 & Hinit & Hrec).
  pose proof (SolveBlock_init_read_only _ _ _ _ Hinit) as <-.
  apply SolveBlock_init_Ok in Hinit as (l & r & u & _ & H1 & _ & _ & _ & Hout & _).
  unfold index in Hrec. rewrite H1 in Hrec.
  unfold new_block, add_block, create_block_output, add_output, fresh, modify, ret,
    as_object, bind in Hrec.
  simpl in Hrec. rewrite lookup_insert_eq in Hrec.
  injection Hrec as <-.
  apply backend_solve_calls in Hsolve as (e & He & Hcalls & Hblocks & Htape).
  simpl in *. eexists e, _.
  rewrite Hcalls, Hblocks, Htape, lookup_insert_eq, Hout, <- !(assoc_L (++)).
  done.
Qed.

(** ** AssignBlock *)

Lemma block_output_lookup bo b s :
  block_outputs s !! bo = Some b -> block_output bo s = (Ok b, s).
Proof. unfold block_output. by intros ->. Qed.

Lemma index_lookup {A} (xs : list A) i x s :
  xs !! i = Some x -> index xs i s = (Ok x, s).
Proof. unfold index. by intros ->. Qed.


(** [backend.Function.assign] between two Functions. *)
Lemma Function_assign_run dst src s d v :
  okind dst = KFunction -> okind src = KFunction ->
  functions s !! oid dst = Some d -> functions s !! oid src = Some v ->
  exists s',
    Function_assign dst src s = (Ok tt, s') /\
    functions s' = <[oid dst := v]> (functions s) /\
    block_outputs s' = block_outputs s /\
    calls s' = calls s ++ [EAssign dst src].
Proof.
  destruct dst as [kd i], src as [ks j]. simpl. intros -> -> Hd Hv.
  unfold Function_assign, log, modify, function_data, bind. simpl.
  rewrite Hd. simpl. rewrite Hv. by eexists.
Qed.


(** A run of [AssignBlock.recompute] between Functions. *)
Lemma AssignBlock_recompute_run self s dep out bo_out bo_dep d_dst d_src :
  ab_dependencies self !! 1%nat = Some dep ->
  ab_outputs self !! 0%nat = Some out ->
  block_outputs s !! out = Some bo_out ->
  block_outputs s !! dep = Some bo_dep ->
  okind (saved_output bo_out) = KFunction ->
  okind (saved_output bo_dep) = KFunction ->
  functions s !! oid (saved_output bo_out) = Some d_dst ->
  functions s !! oid (saved_output bo_dep) = Some d_src ->
  exists s',
    AssignBlock_recompute self s = (Ok tt, s') /\
    functions s' = <[oid (saved_output bo_out) := d_src]> (functions s) /\
    block_outputs s' = block_outputs s.
Proof.
  intros Hdep Hout Hbo Hbd Hkd Hks Hd Hs.
  destruct (Function_assign_run _ _ s _ _ Hkd Hks Hd Hs) as (s' & Hrun & Hf & Hb & _).
  exists s'. split; [|done].
  unfold AssignBlock_recompute, get_saved_output.
  rewrite (bind_Ok _ _ _ _ _ (index_lookup _ _ _ s Hdep)).
  rewrite (bind_Ok _ _ _ _ _ (index_lookup _ _ _ s Hout)).
  rewrite (bind_Ok _ _ _ (saved_output bo_out) s)
    by (by rewrite (bind_Ok _ _ _ _ _ (block_output_lookup _ _ _ Hbo))).
  by rewrite (bind_Ok _ _ _ (saved_output bo_dep) s)
    by (by rewrite (bind_Ok _ _ _ _ _ (block_output_lookup _ _ _ Hbd))).
Qed.

(** C6 (amended): [AssignBlock.recompute] copies the data of the source's
    saved output into the object [get_saved_output] returns for the block's
    output, and into nothing else.  That object is the output's checkpoint
    when it has one, and the target's live value only when it has none:
    with a checkpoint that is another object, the live value keeps its
    data. *)
Theorem AssignBlock_recompute_writes_saved_output
    self s dep out bo_out bo_dep d_dst d_src :
  ab_dependencies self !! 1%nat = Some dep ->
  ab_outputs self !! 0%nat = Some out ->
  block_outputs s !! out = Some bo_out ->
  block_outputs s !! dep = Some bo_dep ->
  let dst := saved_output bo_out in
  let src := saved_output bo_dep in
  okind dst = KFunction ->
  okind src = KFunction ->
  functions s !! oid dst = Some d_dst ->
  functions s !! oid src = Some d_src ->
  exists s',
    AssignBlock_recompute self s = (Ok tt, s') /\
    functions s' = <[oid dst := d_src]> (functions s) /\
    (checkpoint bo_out = None ->
     functions s' !! oid (output bo_out) = Some d_src) /\
    (forall ck, checkpoint bo_out = Some ck -> oid ck ≠ oid (output bo_out) ->
     functions s' !! oid (output bo_out) = functions s !! oid (output bo_out)).
Proof.
  intros Hdep Hout Hbo Hbd dst src Hkd Hks Hd Hs.
  destruct (AssignBlock_recompute_run self s dep out bo_out bo_dep d_dst d_src)
    as (s' & Hrun & Hf & _); try done.
  exists s'. split_and!; try done.
  - intros Hck. rewrite Hf. subst dst. unfold saved_output. rewrite Hck. simpl.
    by rewrite lookup_insert_eq.
  - intros ck Hck Hne. rewrite Hf. subst dst. unfold saved_output. rewrite Hck.
    simpl. by rewrite lookup_insert_ne.
Qed.

(** ** SolveBlock.evaluate_adj up to the test of dJdu *)

#[local] Instance quiet_preorder : PreOrder quiet.
Proof.
  split.
  - intros s. split; [done|]. exists []. by rewrite app_nil_r.
  - intros s1 s2 s3 [Hb1 (l1 & Hc1 & Hl1)] [Hb2 (l2 & Hc2 & Hl2)].
    split; [congruence|]. exists (l1 ++ l2).
    rewrite Hc2, Hc1, (assoc_L (++)). split; [done|]. by apply Forall_app.
Qed.

Lemma quiet_functions s f n : quiet s (set_functions f (set_next_id n s)).
Proof. split; [done|]. exists []. by rewrite app_nil_r. Qed.

Lemma quiet_log s e : is_solve e = false -> quiet s (set_calls (calls s ++ [e]) s).
Proof. intros He. split; [done|]. exists [e]. split; [done|]. by constructor. Qed.

Lemma new_Function_quiet V : preserves quiet (new_Function V).
Proof.
  intros s r s' [= _ <-]. apply (quiet_functions s _ (S (next_id s))).
Qed.

Lemma log_quiet e : is_solve e = false -> preserves quiet (log e).
Proof. intros He s r s' [= _ <-]. by apply quiet_log. Qed.

#[local] Hint Resolve new_Function_quiet : frames.
#[local] Hint Extern 1 (preserves quiet (log _)) =>
  apply log_quiet; reflexivity : frames.

Lemma backend_replace_quiet F m : preserves quiet (backend_replace F m).
Proof. unfold backend_replace. frame. Qed.

Lemma backend_derivative_quiet F w d : preserves quiet (backend_derivative F w d).
Proof. unfold backend_derivative. frame. Qed.

Lemma backend_assemble_quiet f : preserves quiet (backend_assemble f).
Proof. unfold backend_assemble. frame. Qed.

#[local] Hint Resolve backend_replace_quiet backend_derivative_quiet
  backend_assemble_quiet : frames.

(** Whatever its outcome, the first part of [evaluate_adj] changes no
    block output and calls no solver. *)
Lemma linearise_quiet self : preserves quiet (linearise self).
Proof. unfold linearise. frame. Qed.

(** *** The calls of the first part *)

Lemma read_only_state {A} (m : M A) s r s' :
  preserves eq m -> m s = (r, s') -> s' = s.
Proof. intros Hm H. symmetry. by eapply Hm. Qed.

Lemma new_Function_Ok V s o s' :
  new_Function V s = (Ok o, s') ->
  calls s' = calls s /\ block_outputs s' = block_outputs s /\ bconds s' = bconds s.
Proof. by intros [= _ <-]. Qed.

Lemma log_Ok e s r s' :
  log e s = (r, s') -> s' = set_calls (calls s ++ [e]) s.
Proof. by intros [= _ <-]. Qed.

Lemma backend_replace_Ok F m s f s' :
  backend_replace F m s = (Ok f, s') ->
  exists f0, F = SForm f0 /\ f = replace f0 m /\
    s' = set_calls (calls s ++ [EReplace f0 m]) s.
Proof.
  unfold backend_replace. destruct F as [f0|z]; [|done].
  intros [= <- <-]. by exists f0.
Qed.

Lemma backend_derivative_Ok F w d s f s' :
  backend_derivative F w d s = (Ok f, s') ->
  f = derivative F w d /\ s' = set_calls (calls s ++ [EDerivative F w d]) s.
Proof. by intros [= <- <-]. Qed.

Lemma backend_assemble_Ok f s t s' :
  backend_assemble f s = (Ok t, s') ->
  t = assemble (functions s) f /\ s' = set_calls (calls s ++ [EAssemble f]) s.
Proof. by intros [= <- <-]. Qed.

(** A run of the first part that returns has read [dJdu] from the block's
    first output and has called the backend to replace the coefficients,
    to differentiate the residual and to assemble the Jacobian. *)
Lemma linearise_Ok self s loc s' :
  linearise self s = (Ok loc, s') ->
  block_outputs s' = block_outputs s /\
  bconds s' = bconds s /\
  sb_outputs self !! 0%nat = Some (fwd_block_output loc) /\
  (exists bo, block_outputs s !! fwd_block_output loc = Some bo /\
              dJdu loc = adj_value bo) /\
  exists tmp_u F m w d,
    F_form loc = replace F m /\
    dFdu loc = assemble (functions s') (derivative (replace F m) w d) /\
    calls s' = calls s ++ action_calls self tmp_u ++
      [EReplace F m; EDerivative (replace F m) w d;
       EAssemble (derivative (replace F m) w d)].
Proof.
  unfold linearise. intros H.
  apply bind_Ok_inv in H as (fwd & s1 & Hfwd & H).
  unfold index in Hfwd. destruct (sb_outputs self !! 0%nat) as [fwd'|] eqn:Hout; [|done].
  injection Hfwd as -> <-.
  apply bind_Ok_inv in H as (u & s1 & Hu & H).
  apply read_only_state in Hu as ->; [|frame].
  apply bind_Ok_inv in H as (Vu & s1 & HV & H).
  apply read_only_state in HV as ->; [|frame].
  apply bind_Ok_inv in H as (av & s1 & Hav & H).
  apply new_Function_Ok in Hav as (Hc1 & Hb1 & Hd1).
  apply bind_Ok_inv in H as ([tmp_u F] & s2 & Hp & H).
  assert (calls s2 = calls s ++ action_calls self tmp_u /\
          block_outputs s2 = block_outputs s /\ bconds s2 = bconds s)
    as (Hc2 & Hb2 & Hd2).
  { unfold action_calls. destruct (linear self).
    - apply bind_Ok_inv in Hp as (Vf & s3 & HVf & Hp).
      apply read_only_state in HVf as ->; [|frame].
      apply bind_Ok_inv in Hp as (tu & s3 & Htu & Hp).
      apply new_Function_Ok in Htu as (Hc3 & Hb3 & Hd3).
      apply bind_Ok_inv in Hp as (l & s4 & Hl & Hp).
      destruct (lhs self) as [l'|]; [|done]. injection Hl as -> <-.
      apply bind_Ok_inv in Hp as ([] & s4 & Hlog & Hp).
      apply log_Ok in Hlog as ->.
      apply bind_Ok_inv in Hp as (r & s4 & Hr & Hp).
      apply read_only_state in Hr as ->; [|frame].
      injection Hp as <- _ <-. simpl. by rewrite Hc3, Hb3, Hd3, Hc1, Hb1, Hd1.
    - injection Hp as _ _ <-. by rewrite app_nil_r. }
  apply bind_Ok_inv in H as (rc & s3 & Hrc & H).
  apply read_only_state in Hrc as ->; [|frame].
  apply bind_Ok_inv in H as (saved & s3 & Hsv & H).
  apply read_only_state in Hsv as ->; [|frame].
  apply bind_Ok_inv in H as (F' & s3 & HF & H).
  apply backend_replace_Ok in HF as (F0 & -> & -> & ->).
  apply bind_Ok_inv in H as (saved' & s3 & Hsv' & H).
  apply read_only_state in Hsv' as ->; [|frame].
  apply bind_Ok_inv in H as (Vu' & s3 & HV' & H).
  apply read_only_state in HV' as ->; [|frame].
  apply bind_Ok_inv in H as (dF & s3 & HdF & H).
  apply backend_derivative_Ok in HdF as (-> & ->).
  apply bind_Ok_inv in H as (A & s3 & HA & H).
  apply backend_assemble_Ok in HA as (-> & ->).
  apply bind_Ok_inv in H as (g & s3 & Hg & H).
  pose proof (read_only_state _ _ _ _ (get_adj_output_read_only _) Hg) as ->.
  injection H as <- <-. simpl.
  split_and!; try done.
  - unfold get_adj_output in Hg.
    apply bind_Ok_inv in Hg as (bo & s4 & Hbo & [= <- _]).
    unfold block_output in Hbo. simpl in Hbo. rewrite Hb2 in Hbo.
    exists bo. by destruct (block_outputs s !! fwd) eqn:E; simplify_eq.
  - exists tmp_u, F0, (<[tmp_u:=saved]> rc), saved', (TrialFunction Vu').
    by rewrite Hc2, <- !(assoc_L (++)).
Qed.

(** A contribution that is exactly zero leaves the accumulator as it is. *)
Lemma accumulate_zero (a c : adj tensor) :
  is_zero c = true -> accumulate a c = a.
Proof.
  intros Hc. destruct c as [y| |]; try done.
  apply bool_decide_eq_true in Hc as ->.
  unfold accumulate. destruct (is_zero a) eqn:Ha; [|apply adj_plus_zero].
  destruct a as [x| |]; try done. by apply bool_decide_eq_true in Ha as ->.
Qed.

(** C2 (amended): a block whose output's accumulated adjoint is the zero
    sentinel when [evaluate_adj] is called.  Whatever the outcome of the
    call, no block output changes (so every dependency keeps its
    accumulated adjoint) and no backend solve is invoked.  An AssignBlock
    calls the backend not at all.  A SolveBlock still calls it before the
    test: a call that returns has differentiated the residual and
    assembled the Jacobian. *)
Theorem evaluate_adj_zero_adjoint_changes_nothing b s out bo r s' :
  get_outputs b !! 0%nat = Some out ->
  block_outputs s !! out = Some bo ->
  is_zero (adj_value bo) = true ->
  evaluate_adj b s = (r, s') ->
  block_outputs s' = block_outputs s /\
  exists l,
    calls s' = calls s ++ l /\
    Forall (fun e => is_solve e = false) l /\
    (forall self, b = BAssign self -> l = []) /\
    (forall self, b = BSolve self -> r = Ok tt -> existsb is_assemble l = true).
Proof.
  intros Hout Hbo Hz H. destruct b as [self|self]; simpl in *.
  - unfold SolveBlock_evaluate_adj in H.
    apply bind_inv in H as [(loc & s1 & Hlin & H)|(e & Hlin & ->)].
    + pose proof (linearise_Ok _ _ _ _ Hlin)
        as (Hb & _ & Hfwd & (bo' & Hbo' & HdJ) & (tu & F & m & w & d & _ & _ & Hc)).
      assert (bo' = bo) as -> by congruence.
      rewrite HdJ, Hz in H. injection H as <- <-.
      split; [done|]. eexists. split; [exact Hc|]. split_and!.
      * apply Forall_app. split.
        { unfold action_calls. repeat case_match; by repeat constructor. }
        by repeat constructor.
      * done.
      * intros _ _ _. rewrite existsb_app. apply orb_true_iff. by right.
    + destruct (linearise_quiet _ _ _ _ Hlin) as [Hb (l & Hc & Hl)].
      split; [done|]. exists l. by split_and!.
  - unfold AssignBlock_evaluate_adj in H.
    rewrite (bind_Ok _ _ _ _ _ (index_lookup _ _ _ s Hout)) in H.
    rewrite (bind_Ok _ _ _ (adj_value bo) s) in H
      by (unfold get_adj_output; by rewrite (bind_Ok _ _ _ _ _ (block_output_lookup _ _ _ Hbo))).
    assert (Hsame : block_outputs s' = block_outputs s /\ calls s' = calls s).
    { apply bind_inv in H as [(dep & s1 & Hdep & H)|(e & Hdep & ->)].
      - apply read_only_state in Hdep as ->; [|frame].
        unfold add_adj_output in H.
        apply bind_inv in H as [(bd & s1 & Hbd & H)|(e & Hbd & ->)].
        + pose proof (read_only_state _ _ _ _ (block_output_read_only _) Hbd) as ->.
          injection H as _ <-. simpl. split; [|done].
          unfold block_output in Hbd.
          destruct (block_outputs s !! dep) as [bd'|] eqn:E; [|done].
          injection Hbd as ->. apply insert_id. rewrite E. f_equal.
          destruct bd as [o c a]. simpl. f_equal. by rewrite accumulate_zero.
        + by apply read_only_state in Hbd as ->; [|frame].
      - by apply read_only_state in Hdep as ->; [|frame]. }
    destruct Hsame as [Hb Hc]. split; [done|]. exists [].
    rewrite app_nil_r. by split_and!.
Qed.

(** ** Boundary conditions during evaluate_adj *)

Lemma homogenizes_fresh_mono n0 n1 e :
  (n0 <= n1)%nat -> homogenizes_fresh n1 e -> homogenizes_fresh n0 e.
Proof. destruct e; simpl; lia. Qed.

#[local] Instance originals_kept_preorder : PreOrder originals_kept.
Proof.
  split.
  - intros s. split_and!; [done..|]. exists []. by rewrite app_nil_r.
  - intros s1 s2 s3 (Hn1 & Hb1 & l1 & Hc1 & Hl1) (Hn2 & Hb2 & l2 & Hc2 & Hl2).
    split_and!.
    + lia.
    + intros i Hi. rewrite Hb2 by lia. by apply Hb1.
    + exists (l1 ++ l2). rewrite Hc2, Hc1, (assoc_L (++)). split; [done|].
      apply Forall_app. split; [done|].
      eapply Forall_impl; [exact Hl2|]. intros e. by apply homogenizes_fresh_mono.
Qed.

(** A state that differs from [s] in the stores other than the boundary
    conditions, and in a log extended by events that homogenize nothing. *)
Lemma originals_kept_intro s s' l :
  (next_id s <= next_id s')%nat ->
  bconds s' = bconds s ->
  calls s' = calls s ++ l ->
  Forall (homogenizes_fresh (next_id s)) l ->
  originals_kept s s'.
Proof. intros Hn Hb Hc Hl. split_and!; [done| by rewrite Hb |by exists l]. Qed.

Lemma fresh_originals_kept : preserves originals_kept fresh.
Proof.
  intros s r s' [= _ <-]. apply originals_kept_intro with []; simpl;
    [lia | done | by rewrite app_nil_r | done].
Qed.

Lemma log_originals_kept e :
  (forall n, homogenizes_fresh n e) -> preserves originals_kept (log e).
Proof.
  intros He s r s' [= _ <-]. apply originals_kept_intro with [e]; simpl;
    [lia | done | done | by constructor].
Qed.

Lemma modify_functions_originals_kept f :
  preserves originals_kept (modify (fun s => set_functions (f s) s)).
Proof.
  intros s r s' [= _ <-]. apply originals_kept_intro with []; simpl;
    [lia | done | by rewrite app_nil_r | done].
Qed.

Lemma modify_block_outputs_originals_kept f :
  preserves originals_kept (modify (fun s => set_block_outputs (f s) s)).
Proof.
  intros s r s' [= _ <-]. apply originals_kept_intro with []; simpl;
    [lia | done | by rewrite app_nil_r | done].
Qed.

(** The copy lives at a fresh identity, and only the copy is homogenized. *)
Lemma homogenized_copy_originals_kept bc :
  preserves originals_kept (homogenized_copy bc).
Proof.
  intros s r s' H.
  unfold homogenized_copy, DirichletBC_copy, bc_homogenize, bc_data, fresh, log,
    modify, bind, ret in H.
  simpl in H. repeat case_match; simplify_eq; try reflexivity.
  all: split_and!; simpl;
    [ lia
    | intros j Hj; rewrite ?lookup_insert_ne by lia; done
    | eexists; rewrite <- ?(assoc_L (++)); split; [done|];
      simpl; by repeat constructor ].
Qed.

Lemma DirichletBC_new_originals_kept V x sub :
  preserves originals_kept (DirichletBC_new V x sub).
Proof.
  intros s r s' [= _ <-]. split_and!; simpl; [lia | | ].
  - intros j Hj. by rewrite lookup_insert_ne by lia.
  - exists [EDirichletBCNew (next_id s) V sub]. split; [done|]. by repeat constructor.
Qed.

#[local] Hint Resolve fresh_originals_kept modify_functions_originals_kept
  modify_block_outputs_originals_kept homogenized_copy_originals_kept
  DirichletBC_new_originals_kept : frames.
#[local] Hint Extern 1 (preserves originals_kept (log _)) =>
  apply log_originals_kept; intros ?; exact I : frames.

Lemma linearise_originals_kept self : preserves originals_kept (linearise self).
Proof.
  unfold linearise, new_Function, backend_replace, backend_derivative,
    backend_assemble.
  frame.
Qed.

Lemma propagate_originals_kept self loc :
  preserves originals_kept (propagate self loc).
Proof.
  unfold propagate, homogenize_and_apply, dependency_adj, collect_bc_rows,
    apply_bc, set_vector, add_adj_output, new_Function, backend_derivative,
    backend_assemble.
  frame.
Qed.

(** C10: [SolveBlock.evaluate_adj] never changes a boundary condition
    that existed before the call, whatever the outcome of the call: the
    boundary conditions recorded on the block keep their prescribed
    values.  Every homogenization of the call is performed on an object
    created during the call, the fresh copy. *)
Theorem SolveBlock_evaluate_adj_keeps_boundary_conditions self s r s' :
  SolveBlock_evaluate_adj self s = (r, s') ->
  (forall i, (i < next_id s)%nat -> bconds s' !! i = bconds s !! i) /\
  (forall bc d, bc ∈ bcs self -> (oid bc < next_id s)%nat ->
     bconds s !! oid bc = Some d -> bconds s' !! oid bc = Some d) /\
  exists l, calls s' = calls s ++ l /\
    forall n, EHomogenize n ∈ l -> (next_id s <= n)%nat.
Proof.
  intros H.
  assert (Hk : preserves originals_kept (SolveBlock_evaluate_adj self)).
  { unfold SolveBlock_evaluate_adj. frame;
      auto using linearise_originals_kept, propagate_originals_kept. }
  destruct (Hk _ _ _ H) as (Hn & Hb & l & Hc & Hl).
  split_and!.
  - done.
  - intros bc d _ Hi Hd. by rewrite Hb.
  - exists l. split; [done|]. intros n Hin.
    rewrite Forall_forall in Hl. by apply (Hl _ Hin).
Qed.

(** ** Replay: the substitution of the dependencies *)

Lemma substitute_read_only self acc bo : preserves eq (substitute self acc bo).
Proof. unfold substitute. frame. Qed.

#[local] Hint Resolve substitute_read_only : frames.

Lemma get_output_Ok bo s c s' :
  get_output bo s = (Ok c, s') ->
  s' = s /\ exists b, block_outputs s !! bo = Some b /\ c = output b.
Proof.
  intros H. pose proof (read_only_state _ _ _ _ (get_output_read_only _) H) as ->.
  split; [done|]. unfold get_output, block_output, bind, ret in H.
  destruct (block_outputs s !! bo) as [b|]; [|done]. exists b. by simplify_eq.
Qed.

Lemma get_saved_output_Ok bo s c s' :
  get_saved_output bo s = (Ok c, s') ->
  s' = s /\ exists b, block_outputs s !! bo = Some b /\ c = saved_output b.
Proof.
  intros H. pose proof (read_only_state _ _ _ _ (get_saved_output_read_only _) H) as ->.
  split; [done|]. unfold get_saved_output, block_output, bind, ret in H.
  destruct (block_outputs s !! bo) as [b|]; [|done]. exists b. by simplify_eq.
Qed.

(** One iteration: a dependency equal to its saved output changes nothing;
    any other one is entered in the replacement of each side it occurs
    in, and rebinds [func] when it is the block's function in the
    left-hand side. *)
Lemma substitute_Ok self acc bo s acc' s' :
  substitute self acc bo s = (Ok acc', s') ->
  exists b, block_outputs s !! bo = Some b /\
    let c := output b in
    let c_rep := saved_output b in
    (c = c_rep /\ acc' = acc) \/
    (c ≠ c_rep /\ exists l0, lhs self = SForm l0 /\
       rl_func acc' =
         (if bool_decide (c ∈ coefficients l0) && bool_decide (c = func self)
          then c_rep else rl_func acc) /\
       replace_lhs_coeffs acc' =
         (if bool_decide (c ∈ coefficients l0)
          then <[c := c_rep]> (replace_lhs_coeffs acc)
          else replace_lhs_coeffs acc) /\
       if linear self
       then exists r0, rhs self = SForm r0 /\
              replace_rhs_coeffs acc' =
                (if bool_decide (c ∈ coefficients r0)
                 then <[c := c_rep]> (replace_rhs_coeffs acc)
                 else replace_rhs_coeffs acc)
       else replace_rhs_coeffs acc' = replace_rhs_coeffs acc).
Proof.
  unfold substitute. intros H.
  apply bind_Ok_inv in H as (c & s1 & Hc & H).
  apply get_output_Ok in Hc as (-> & b & Hb & ->).
  apply bind_Ok_inv in H as (c_rep & s1 & Hr & H).
  apply get_saved_output_Ok in Hr as (-> & b' & Hb' & ->).
  assert (b' = b) as -> by congruence.
  exists b. split; [done|]. simpl.
  case_bool_decide as Hne; last first.
  { left. split; [done|]. by injection H as <- _. }
  right. split; [done|].
  destruct (lhs self) as [l0|] eqn:Hl; [|done].
  exists l0. split; [done|]. simpl in H.
  rewrite (bind_Ok _ _ _ (coefficients l0) s) in H by done.
  destruct (linear self).
  - destruct (rhs self) as [r0|] eqn:Hr; [|done]. simpl in H.
    rewrite (bind_Ok _ _ _ (coefficients r0) s) in H by done.
    injection H as <- _.
    split_and!; [| |exists r0; split; [done|]]; by repeat case_bool_decide.
  - injection H as <- _.
    split_and!; by repeat case_bool_decide.
Qed.

Lemma substituted_nil s cs m : substituted s [] cs m m.
Proof. split_and!; [by left | done | by intros ? ? ?%elem_of_nil]. Qed.

Lemma substituted_cons s x xs cs m m1 m' b :
  block_outputs s !! x = Some b ->
  m1 = (if bool_decide (output b ≠ saved_output b) && bool_decide (output b ∈ cs)
        then <[output b := saved_output b]> m else m) ->
  substituted s xs cs m1 m' ->
  substituted s (x :: xs) cs m m'.
Proof.
  intros Hb -> (Hs & Hm & Hc). split_and!.
  - intros c r Hcr. destruct (Hs c r Hcr) as [H1|(? & ? & bo & b' & ? & ? & ? & ?)].
    + destruct (bool_decide (output b ≠ saved_output b)) eqn:E1;
        destruct (bool_decide (output b ∈ cs)) eqn:E2; simpl in H1; auto.
      apply bool_decide_eq_true in E1, E2.
      destruct (decide (output b = c)) as [<-|Hne].
      * rewrite lookup_insert_eq in H1. injection H1 as <-.
        right. split_and!; try done. exists x, b. split_and!; try done. by left.
      * rewrite lookup_insert_ne in H1 by done. by left.
    + right. split_and!; try done. exists bo, b'. split_and!; try done. by right.
  - intros c Hc'. apply Hm.
    destruct (_ && _); [|done].
    destruct (decide (output b = c)) as [<-|Hne].
    + rewrite lookup_insert_eq. by eexists.
    + by rewrite lookup_insert_ne.
  - intros bo b' [->|Hin]%elem_of_cons Hb' Hin' Hne.
    + assert (b' = b) as -> by congruence.
      apply Hm. rewrite !bool_decide_eq_true_2 by done. simpl.
      rewrite lookup_insert_eq. by eexists.
    + by eapply Hc.
Qed.

Lemma scan_Ok self xs : forall acc s acc' s',
  foldM (substitute self) acc xs s = (Ok acc', s') ->
  s' = s /\
  (forall l0, lhs self = SForm l0 ->
     substituted s xs (coefficients l0) (replace_lhs_coeffs acc) (replace_lhs_coeffs acc') /\
     (rl_func acc = default (func self) (replace_lhs_coeffs acc !! func self) ->
      rl_func acc' = default (func self) (replace_lhs_coeffs acc' !! func self))) /\
  (forall r0, linear self = true -> rhs self = SForm r0 ->
     substituted s xs (coefficients r0) (replace_rhs_coeffs acc) (replace_rhs_coeffs acc')).
Proof.
  induction xs as [|x xs IH]; intros acc s acc' s' H; simpl in H.
  { injection H as <- <-.
    split_and!; [done | intros; split; [apply substituted_nil | done]
                | intros; apply substituted_nil]. }
  apply bind_Ok_inv in H as (acc1 & s1 & Hstep & H).
  pose proof (read_only_state _ _ _ _ (substitute_read_only _ _ _) Hstep) as ->.
  apply IH in H as (-> & Hl & Hr).
  apply substitute_Ok in Hstep as (b & Hb & Hcase). simpl in Hcase.
  split; [done|]. split.
  - intros l0 Hl0. destruct (Hl l0 Hl0) as [Hsub Hfunc]. split.
    + eapply substituted_cons; [exact Hb | | exact Hsub].
      destruct Hcase as [[Heq ->]|(Hne & l0' & Hl0' & _ & -> & _)].
      * by rewrite bool_decide_eq_false_2 by (by intros ?).
      * assert (l0' = l0) as -> by congruence.
        by rewrite (bool_decide_eq_true_2 _ Hne).
    + intros Hacc. apply Hfunc.
      destruct Hcase as [[Heq ->]|(Hne & l0' & Hl0' & -> & -> & _)]; [done|].
      repeat case_bool_decide; simpl; try done.
      * match goal with E : output b = func self |- _ => rewrite <- E end.
        by rewrite lookup_insert_eq.
      * by rewrite lookup_insert_ne.
  - intros r0 Hlin Hr0. specialize (Hr r0 Hlin Hr0).
    eapply substituted_cons; [exact Hb | | exact Hr].
    destruct Hcase as [[Heq ->]|(Hne & l0' & _ & _ & _ & Hrhs)].
    + by rewrite bool_decide_eq_false_2 by (by intros ?).
    + rewrite Hlin in Hrhs. destruct Hrhs as (r0' & Hr0' & ->).
      assert (r0' = r0) as -> by congruence.
      by rewrite (bool_decide_eq_true_2 _ Hne).
Qed.

(** ** Replay: the solve and the checkpoint *)


Lemma function_data_Ok o s d s' :
  function_data o s = (Ok d, s') ->
  s' = s /\ okind o = KFunction /\ functions s !! oid o = Some d.
Proof.
  unfold function_data. destruct o as [[] i]; try done. simpl.
  destruct (functions s !! i); [|done]. by intros [= <- <-].
Qed.

Lemma function_data_lookup o s d :
  okind o = KFunction -> functions s !! oid o = Some d ->
  function_data o s = (Ok d, s).
Proof. destruct o as [k i]. simpl. intros -> Hd. unfold function_data. by rewrite Hd. Qed.

Lemma solve_eq_Ok l r u bs s s' :
  solve_eq l r u bs s = (Ok tt, s') ->
  exists d v,
    okind u = KFunction /\ functions s !! oid u = Some d /\
    solve_variational (functions s) (bconds s) l r (oid u) bs = Some v /\
    functions s' = <[oid u := {| fn_space := fn_space d; fn_vector := v |}]> (functions s) /\
    calls s' = calls s ++ [ESolveVariational l r u bs] /\
    block_outputs s' = block_outputs s /\ bconds s' = bconds s /\
    next_id s' = next_id s.
Proof.
  unfold solve_eq, log, modify, bind. destruct u as [[] i]; try done. simpl.
  destruct (functions s !! i) as [d|] eqn:Hd; [|done].
  destruct (solve_variational _ _ _ _ _ _) as [v|] eqn:Hv; [|done].
  intros [= <-]. by exists d, v.
Qed.


Lemma _ad_create_checkpoint_Ok o s ck s' :
  _ad_create_checkpoint o s = (Ok ck, s') ->
  exists d,
    okind o = KFunction /\ functions s !! oid o = Some d /\
    ck = Obj KFunction (next_id s) /\
    functions s' = <[next_id s := d]> (functions s) /\
    calls s' = calls s ++ [EFunctionCopy (oid o) (next_id s)] /\
    block_outputs s' = block_outputs s /\ bconds s' = bconds s /\
    next_id s' = S (next_id s).
Proof.
  unfold _ad_create_checkpoint. intros H.
  apply bind_Ok_inv in H as (d & s1 & Hd & H).
  apply function_data_Ok in Hd as (-> & Hk & Hd).
  injection H as <- <-. by exists d.
Qed.
















(** ** Calls that are not annotated *)

Lemma solve_eq_frame l r u bs s res s' :
  solve_eq l r u bs s = (res, s') ->
  attached s' = attached s /\ next_id s' = next_id s.
Proof.
  unfold solve_eq, log, modify, bind. intros H.
  repeat case_match; by simplify_eq.
Qed.

Lemma backend_solve_frame args s res s' :
  backend_solve args s = (res, s') ->
  block_outputs s' = block_outputs s /\ attached s' = attached s /\
  next_id s' = next_id s /\ bconds s' = bconds s.
Proof.
  unfold backend_solve. intros H.
  repeat case_match;
    first [ pose proof (solve_eq_frame _ _ _ _ _ _ _ H) as (? & ?);
            apply solve_eq_calls in H as (_ & _ & _ & ? & ?); done
          | by injection H as _ <- ].
Qed.

Lemma Function_assign_frame dst src s res s' :
  Function_assign dst src s = (res, s') ->
  tape s' = tape s /\ blocks s' = blocks s /\ block_outputs s' = block_outputs s /\
  attached s' = attached s /\ bconds s' = bconds s /\ next_id s' = next_id s /\
  calls s' = calls s ++ [EAssign dst src].
Proof.
  unfold Function_assign, function_data, log, modify, bind, raise. intros H.
  repeat case_match; by simplify_eq.
Qed.

(** X1: with [annotate_tape=False], [solve] and [Function.assign] record
    nothing.  Whatever the outcome, the tape, the block store, the block
    outputs and the attachments are as before, and the only call is the
    backend's: one forward solve, or the one assignment. *)
Theorem unannotated_calls_record_nothing s r s' :
  (forall args,
     solve args (Some false) s = (r, s') ->
     tape s' = tape s /\ blocks s' = blocks s /\
     block_outputs s' = block_outputs s /\ attached s' = attached s /\
     exists e, is_forward_solve e = true /\ calls s' = calls s ++ [e]) /\
  (forall self other,
     assign self other (Some false) s = (r, s') ->
     tape s' = tape s /\ blocks s' = blocks s /\
     block_outputs s' = block_outputs s /\ attached s' = attached s /\
     calls s' = calls s ++ [EAssign self other]).
Proof.
  split.
  - intros args H. unfold solve in H. simpl in H.
    rewrite (bind_Ok _ _ _ tt s) in H by done.
    pose proof (backend_solve_frame _ _ _ _ H) as (Hb & Ha & _ & _).
    apply backend_solve_calls in H as (e & He & Hc & Hbl & Ht).
    split_and!; try done. by exists e.
  - intros self other H. unfold assign in H. simpl in H.
    rewrite (bind_Ok _ _ _ tt s) in H by done.
    by apply Function_assign_frame in H as (? & ? & ? & ? & _ & _ & ?).
Qed.

(** ** What the constructor of a SolveBlock builds *)

Lemma get_block_output_Ok o s bo s' :
  get_block_output o s = (Ok bo, s') -> s' = s /\ attached s !! o = Some bo.
Proof.
  unfold get_block_output. destruct (attached s !! o); [|done]. by intros [= <- <-].
Qed.

Lemma add_dependencies_deps cs : forall self s blk s',
  add_dependencies cs self s = (Ok blk, s') ->
  NoDup (sb_dependencies self) ->
  NoDup (sb_dependencies blk) /\
  forall bo, bo ∈ sb_dependencies blk <->
    bo ∈ sb_dependencies self \/ exists c, c ∈ cs /\ attached s !! c = Some bo.
Proof.
  unfold add_dependencies.
  induction cs as [|c cs IH]; intros self s blk s' H Hnd; simpl in H.
  - injection H as <- _. split; [done|]. intros bo. split; [by left|].
    intros [?|(c & Hc & _)]; [done|]. by apply elem_of_nil in Hc.
  - apply bind_Ok_inv in H as (self1 & s1 & H1 & H2).
    apply bind_Ok_inv in H1 as (bo1 & s2 & Hbo & [= <- <-]).
    apply get_block_output_Ok in Hbo as (-> & Hbo).
    apply IH in H2 as [Hnd' Hin].
    + split; [done|]. intros bo. rewrite Hin. simpl.
      case_bool_decide as Hdec.
      * split.
        -- intros [?|(c' & Hc' & ?)]; [by left|]. right. exists c'. split; [by right|done].
        -- intros [?|(c' & [->|Hc']%elem_of_cons & Hatt)]; [by left| |].
           ++ left. congruence.
           ++ right. by exists c'.
      * rewrite elem_of_app, list_elem_of_singleton. split.
        -- intros [[?| ->]|(c' & Hc' & ?)]; [by left| |].
           ++ right. exists c. split; [by left|done].
           ++ right. exists c'. split; [by right|done].
        -- intros [?|(c' & [->|Hc']%elem_of_cons & Hatt)]; [by left; left| |].
           ++ left. right. congruence.
           ++ right. by exists c'.
    + simpl. case_bool_decide as Hdec; [done|].
      apply NoDup_app. split_and!; [done | | apply NoDup_singleton].
      intros x Hx ->%list_elem_of_singleton. done.
Qed.

(** The boundary conditions and the dependencies of a constructed block. *)
Lemma SolveBlock_init_dependencies args s blk s' :
  SolveBlock_init args s = (Ok blk, s') ->
  bcs blk = match args !! 2%nat with
            | Some (AList l) => l
            | Some (AObj bc) => [bc]
            | _ => []
            end /\
  NoDup (sb_dependencies blk) /\
  exists f, lhs blk = SForm f /\
    forall bo, bo ∈ sb_dependencies blk <->
      exists c, attached s !! c = Some bo /\
        (c ∈ bcs blk \/ c ∈ coefficients f \/
         (linear blk = true /\ exists g, rhs blk = SForm g /\ c ∈ coefficients g)).
Proof.
  intros H. pose proof (SolveBlock_init_Ok _ _ _ _ H)
    as (l & r & u & H0 & H1 & Hl & Hr & Hf & Ho & Hlin).
  unfold SolveBlock_init, index in H. rewrite H0 in H.
  rewrite (bind_Ok _ _ _ _ s) in H by done. simpl in H.
  rewrite H1 in H. rewrite (bind_Ok _ _ _ _ s) in H by done.
  rewrite (bind_Ok _ _ _ u s) in H by done.
  apply bind_Ok_inv in H as (bs & s1 & Hbs & H).
  assert (s1 = s /\ bs = match args !! 2%nat with
                         | Some (AList l) => l
                         | Some (AObj bc) => [bc]
                         | _ => []
                         end) as [-> Hbs'].
  { unfold as_object, bind, ret, raise in Hbs.
    destruct (args !! 2%nat) as [[| |]|]; by simplify_eq. }
  apply bind_Ok_inv in H as (self1 & s1 & H2 & H).
  apply bind_Ok_inv in H as (self2 & s2 & H3 & H).
  apply bind_Ok_inv in H as (cs & s3 & H4 & H).
  assert (s1 = s /\ NoDup (sb_dependencies self1) /\ bcs self1 = bs /\
          forall bo, bo ∈ sb_dependencies self1 <->
            exists c, attached s !! c = Some bo /\ linear blk = true /\
              exists g, rhs blk = SForm g /\ c ∈ coefficients g)
    as (-> & Hnd1 & Hb1 & Hin1).
  { rewrite Hlin, Hr. destruct (is_form l && is_form r) eqn:E.
    - apply bind_Ok_inv in H2 as (rcs & s4 & Hrcs & H2).
      destruct r as [g|]; [|done]. injection Hrcs as <- <-.
      pose proof (read_only_state _ _ _ _ (add_dependencies_read_only _ _) H2) as ->.
      pose proof (add_dependencies_fields _ _ _ _ _ H2) as (_ & _ & _ & _ & Hb & _).
      apply add_dependencies_deps in H2 as [Hnd Hin]; [|by apply NoDup_nil].
      split_and!; try done. intros bo. rewrite Hin. simpl. split.
      + intros [[]%elem_of_nil|(c & Hc & Hatt)]. exists c. split_and!; try done.
        by exists g.
      + intros (c & Hatt & _ & g' & [= <-] & Hc). right. by exists c.
    - injection H2 as <- <-. simpl. split_and!; try done; try by apply NoDup_nil.
      intros bo. split; [by intros ?%elem_of_nil | by intros (? & ? & ? & ?)]. }
  pose proof (read_only_state _ _ _ _ (add_dependencies_read_only _ _) H3) as ->.
  pose proof (add_dependencies_fields _ _ _ _ _ H3) as (_ & _ & _ & _ & Hb2 & _).
  apply add_dependencies_deps in H3 as [Hnd2 Hin2]; [|done].
  destruct l as [f|]; [|done]. injection H4 as <- <-.
  pose proof (add_dependencies_fields _ _ _ _ _ H) as (_ & _ & _ & _ & Hb3 & _).
  apply add_dependencies_deps in H as [Hnd3 Hin3]; [|done].
  rewrite Hb3, Hb2, Hb1. split_and!; [done..|].
  exists f. split; [done|]. intros bo. rewrite Hin3, Hin2, Hin1. split.
  - intros [[(c & ? & ? & ?)|(c & ? & ?)]|(c & ? & ?)]; exists c; auto.
  - intros (c & Hatt & [?|[?|?]]).
    + left. right. by exists c.
    + right. by exists c.
    + left. left. by exists c.
Qed.

(** X3: what a successful construction stores.  The function is the
    second argument, an object, and the block has no output yet.  The boundary
    conditions are the third argument as a list (the list itself, a
    single condition wrapped, none when the argument is absent).  The
    dependencies are, each once, exactly the block outputs attached to the
    boundary conditions, to the coefficients of the left-hand side and,
    for a linear block, to the coefficients of the right-hand side. *)
Theorem SolveBlock_init_contents args s blk s' :
  SolveBlock_init args s = (Ok blk, s') ->
  (forall o, args !! 1%nat = Some (AObj o) -> func blk = o) /\
  sb_outputs blk = [] /\
  bcs blk = match args !! 2%nat with
            | Some (AList l) => l
            | Some (AObj bc) => [bc]
            | _ => []
            end /\
  NoDup (sb_dependencies blk) /\
  exists f, lhs blk = SForm f /\
    forall bo, bo ∈ sb_dependencies blk <->
      exists c, attached s !! c = Some bo /\
        (c ∈ bcs blk \/ c ∈ coefficients f \/
         (linear blk = true /\ exists g, rhs blk = SForm g /\ c ∈ coefficients g)).
Proof.
  intros H.
  pose proof (SolveBlock_init_Ok _ _ _ _ H) as (l & r & u & _ & H1 & _ & _ & Hf & Ho & _).
  apply SolveBlock_init_dependencies in H as (Hbcs & Hnd & Hdeps).
  split_and!; try done. intros o Ho'. congruence.
Qed.

(** X2: how the constructor fails, in a call whose second argument, when
    there is one, is an object.  Whatever it raises, it has changed
    nothing: an IndexError when there are fewer than two arguments, a
    NotImplementedError when the first argument is not an equation, and
    otherwise an AttributeError.  The annotated [solve] raises the same
    exception with the state unchanged, before the block reaches the tape
    and before the backend is called. *)
Theorem SolveBlock_init_failure args s e s' :
  (forall a1, args !! 1%nat = Some a1 -> exists o, a1 = AObj o) ->
  SolveBlock_init args s = (Raise e, s') ->
  s' = s /\
  ((e = IndexError /\ (length args < 2)%nat) \/
   (e = NotImplementedError /\
    exists a0, args !! 0%nat = Some a0 /\ is_equation a0 = false) \/
   e = AttributeError) /\
  forall annotate_tape, default true annotate_tape = true ->
    solve args annotate_tape s = (Raise e, s).
Proof.
  intros Hobj H.
  pose proof (read_only_state _ _ _ _ (SolveBlock_init_read_only _) H) as ->.
  split; [done|]. split.
  - unfold SolveBlock_init, index in H.
    destruct (args !! 0%nat) as [a0|] eqn:H0; last first.
    { injection H as <-. left. split; [done|].
      apply lookup_ge_None in H0. lia. }
    rewrite (bind_Ok _ _ _ a0 s) in H by done.
    destruct a0 as [l r|o|os]; last first.
    { injection H as <-. right. left. split; [done|]. by eexists. }
    { injection H as <-. right. left. split; [done|]. by eexists. }
    destruct (args !! 1%nat) as [a1|] eqn:H1; last first.
    { injection H as <-. left. split; [done|].
      apply lookup_ge_None in H1. lia. }
    rewrite (bind_Ok _ _ _ a1 s) in H by done.
    right. right.
    apply bind_inv in H as [(u & s2 & _ & H)|(e' & H & [= <-])]; last first.
    { unfold as_object, ret, raise in H. by destruct a1; simplify_eq. }
    apply bind_inv in H as [(bs & s3 & _ & H)|(e' & H & [= <-])]; last first.
    { unfold as_object, bind, ret, raise in H.
      destruct (args !! 2%nat) as [[]|]; by simplify_eq. }
    apply bind_inv in H as [(self1 & s4 & _ & H)|(e' & H & [= <-])]; last first.
    { destruct (is_form l && is_form r); [|done].
      apply bind_inv in H as [(cs & s5 & _ & H)|(e'' & H & [= <-])].
      - by apply add_dependencies_raises in H.
      - unfold side_coefficients, ret, raise in H. by destruct r; simplify_eq. }
    apply bind_inv in H as [(self2 & s5 & _ & H)|(e' & H & [= <-])]; last first.
    { by apply add_dependencies_raises in H. }
    apply bind_inv in H as [(cs & s6 & _ & H)|(e' & H & [= <-])].
    + by apply add_dependencies_raises in H.
    + unfold side_coefficients, ret, raise in H. by destruct l; simplify_eq.
  - intros annotate_tape Hann. unfold solve. rewrite Hann.
    apply bind_Raise. by apply bind_Raise.
Qed.

(** ** Blocks without an output *)

Lemma index_nil {A} i s : index (@nil A) i s = (Raise IndexError, s).
Proof. unfold index. by rewrite lookup_nil. Qed.

(** X4: a block that has no output.  [evaluate_adj] raises IndexError at
    once, before any backend call, and so does the replay of an
    AssignBlock: the state is unchanged.  The replay of a SolveBlock
    never returns either, but its IndexError comes last: when it is
    raised, the backend has solved the equation and the solved Function
    has been copied. *)
Theorem block_without_output b s :
  get_outputs b = [] ->
  evaluate_adj b s = (Raise IndexError, s) /\
  (forall self, b = BAssign self -> recompute b s = (Raise IndexError, s)) /\
  (forall self r s', b = BSolve self -> recompute b s = (r, s') ->
     exists e, r = Raise e /\
       (e = IndexError ->
        exists l m rr u,
          calls s' = calls s ++ l ++ [ESolveVariational m rr u (bcs self);
                                      EFunctionCopy (oid u) (next_id s)] /\
          functions s' !! next_id s = functions s' !! oid u /\
          is_Some (functions s' !! oid u))).
Proof.
  intros Hout. split_and!.
  - destruct b as [self|self]; simpl in *.
    + unfold SolveBlock_evaluate_adj, linearise. rewrite Hout.
      apply bind_Raise, bind_Raise, index_nil.
    + unfold AssignBlock_evaluate_adj. rewrite Hout. apply bind_Raise, index_nil.
  - intros self ->. simpl in *. unfold AssignBlock_recompute. rewrite Hout.
    unfold index at 1. destruct (ab_dependencies self !! 1%nat); [|done].
    rewrite (bind_Ok _ _ _ n s) by done. apply bind_Raise, index_nil.
  - intros self r s' -> H. simpl in *. unfold SolveBlock_recompute in H.
    rewrite Hout in H.
    apply bind_inv in H as [(acc & s1 & Hscan & H)|(e & Hscan & ->)]; last first.
    { exists e. split; [done|]. intros ->.
      exfalso. clear -Hscan.
      assert (forall xs acc s e s', foldM (substitute self) acc xs s = (Raise e, s') ->
                e ≠ IndexError) as Hno.
      { induction xs as [|x xs IH]; intros acc0 s0 e0 s0' H0; simpl in H0; [done|].
        apply bind_inv in H0 as [(a & s1 & _ & H0)|(e' & H0 & [= <-])]; [by eapply IH|].
        unfold substitute, get_output, get_saved_output, block_output,
          side_coefficients, bind, ret, raise in H0.
        repeat case_match; by simplify_eq. }
      by eapply Hno. }
    pose proof (scan_Ok _ _ _ _ _ _ Hscan) as (-> & _ & _).
    apply bind_inv in H as [(l & s1 & Hl & H)|(e & Hl & ->)]; last first.
    { exists e. split; [done|]. intros ->.
      unfold backend_replace, as_form, log, modify, bind, ret, raise in Hl.
      repeat case_match; by simplify_eq. }
    apply backend_replace_Ok in Hl as (l0 & Hl0 & -> & ->).
    apply bind_inv in H as [(rr & s2 & Hr & H)|(e & Hr & ->)]; last first.
    { exists e. split; [done|]. intros ->.
      unfold backend_replace, as_form, log, modify, bind, ret, raise in Hr.
      repeat case_match; by simplify_eq. }
    assert (exists l2, calls s2 = calls s ++ l2 /\ next_id s2 = next_id s)
      as (l2 & Hc2 & Hn2).
    { destruct (linear self).
      - apply bind_Ok_inv in Hr as (r' & s3 & Hr & [= _ <-]).
        apply backend_replace_Ok in Hr as (r0 & _ & _ & ->). simpl.
        eexists. by rewrite <- (assoc_L (++)).
      - injection Hr as _ <-. by eexists. }
    apply bind_inv in H as [([] & s3 & Hsolve & H)|(e & Hsolve & ->)]; last first.
    { exists e. split; [done|]. intros ->.
      unfold solve_eq, log, modify, bind, ret, raise in Hsolve.
      repeat case_match; by simplify_eq. }
    apply solve_eq_Ok in Hsolve as (d & v & Hk & Hd & Hv & Hf3 & Hc3 & _ & _ & Hn3).
    apply bind_inv in H as [(ck & s4 & Hck & H)|(e & Hck & ->)]; last first.
    { exfalso. unfold _ad_create_checkpoint in Hck.
      rewrite (bind_Ok _ _ _ _ _ (function_data_lookup _ s3 _ Hk
                 ltac:(by rewrite Hf3, lookup_insert_eq))) in Hck.
      done. }
    apply _ad_create_checkpoint_Ok in Hck as (d' & _ & Hd' & -> & Hf4 & Hc4 & _ & _ & _).
    rewrite (bind_Raise _ _ _ _ _ (index_nil 0%nat s4)) in H.
    injection H as <- <-.
    exists IndexError. split; [done|]. intros _.
    eexists l2, _, _, _. split_and!.
    + by rewrite Hc4, Hc3, Hc2, Hn3, Hn2, <- !(assoc_L (++)).
    + rewrite Hf4, Hn3, Hn2, lookup_insert_eq.
      destruct (decide (next_id s = oid (rl_func acc))) as [->|Hne].
      * by rewrite lookup_insert_eq.
      * by rewrite lookup_insert_ne.
    + rewrite Hf4.
      destruct (decide (next_id s3 = oid (rl_func acc))) as [->|Hne].
      * rewrite lookup_insert_eq. by eexists.
      * rewrite lookup_insert_ne by done. rewrite Hd'. by eexists.
Qed.

(** ** Frames of evaluate_adj *)

Lemma preserves_foldM_elem {A X} (R : relation state) (HR : PreOrder R)
    (f : A -> X -> M A) xs :
  (forall a x, x ∈ xs -> preserves R (f a x)) ->
  forall a, preserves R (foldM f a xs).
Proof.
  induction xs as [|x xs IH]; intros Hf a; simpl.
  - by apply preserves_ret.
  - apply preserves_bind; [done | apply Hf; by left |].
    intros a'. apply IH. intros a'' y Hy. apply Hf. by right.
Qed.

(** Hints first: a lemma on a loop or on a named step takes precedence
    over its decomposition. *)
Ltac frame_by_hints :=
  repeat first
    [ solve [auto with frames]
    | solve [apply preserves_read_only; [tc_solve | auto with frames]]
    | frame_step ].

(** *** The Functions that exist before the call *)

#[local] Instance functions_kept_preorder n0 : PreOrder (functions_kept n0).
Proof.
  split.
  - by intros s Hn.
  - intros s1 s2 s3 H1 H2 Hn.
    destruct (H1 Hn) as [Hn2 Hf1]. destruct (H2 Hn2) as [Hn3 Hf2].
    split; [done|]. intros i Hi. rewrite Hf2 by done. by apply Hf1.
Qed.

Lemma functions_kept_intro n0 s s' :
  (next_id s <= next_id s')%nat ->
  (forall i, (i < next_id s)%nat -> functions s' !! i = functions s !! i) ->
  functions_kept n0 s s'.
Proof. intros Hn Hf Hn0. split; [lia|]. intros i Hi. apply Hf. lia. Qed.

Lemma fresh_functions_kept n0 : preserves (functions_kept n0) fresh.
Proof. intros s r s' [= _ <-]. apply functions_kept_intro; simpl; [lia|done]. Qed.

Lemma log_functions_kept n0 e : preserves (functions_kept n0) (log e).
Proof. intros s r s' [= _ <-]. by apply functions_kept_intro. Qed.

Lemma modify_bconds_functions_kept n0 f :
  preserves (functions_kept n0) (modify (fun s => set_bconds (f s) s)).
Proof. intros s r s' [= _ <-]. by apply functions_kept_intro. Qed.

Lemma modify_block_outputs_functions_kept n0 f :
  preserves (functions_kept n0) (modify (fun s => set_block_outputs (f s) s)).
Proof. intros s r s' [= _ <-]. by apply functions_kept_intro. Qed.

Lemma new_Function_functions_kept n0 V : preserves (functions_kept n0) (new_Function V).
Proof.
  intros s r s' [= _ <-]. apply functions_kept_intro; simpl; [lia|].
  intros i Hi. by rewrite lookup_insert_ne by lia.
Qed.

(** Writing into a Function created at or after [n0]. *)
Lemma set_vector_functions_kept n0 o v :
  (n0 <= oid o)%nat -> preserves (functions_kept n0) (set_vector o v).
Proof.
  intros Ho s r s' H Hn. unfold set_vector, function_data, modify, bind in H.
  repeat case_match; simplify_eq; simpl in *; split; try done.
  intros i Hi. by rewrite lookup_insert_ne by lia.
Qed.

(** A Function created during the call can be written into. *)
Lemma preserves_new_Function_bind n0 {C} V (k : obj -> M C) :
  (forall o, (n0 <= oid o)%nat -> preserves (functions_kept n0) (k o)) ->
  preserves (functions_kept n0) (bind (new_Function V) k).
Proof.
  intros Hk s r s' H Hn.
  apply bind_inv in H as [(o & s1 & Ho & H)|(e & Ho & _)]; [|done].
  pose proof (new_Function_functions_kept n0 V _ _ _ Ho Hn) as [Hn1 Hf1].
  assert (Hoid : (n0 <= oid o)%nat).
  { injection Ho as <- _. simpl. lia. }
  destruct (Hk o Hoid _ _ _ H Hn1) as [Hn2 Hf2].
  split; [done|]. intros i Hi. rewrite Hf2 by done. by apply Hf1.
Qed.

#[local] Hint Resolve fresh_functions_kept log_functions_kept
  modify_bconds_functions_kept modify_block_outputs_functions_kept
  new_Function_functions_kept : frames.
#[local] Hint Extern 1 (preserves (functions_kept _) (set_vector _ _)) =>
  apply set_vector_functions_kept; assumption : frames.

Ltac frame_functions :=
  repeat first
    [ lazymatch goal with
      | |- preserves (functions_kept _) (bind (new_Function _) _) =>
          apply preserves_new_Function_bind; intros ? ?
      end
    | frame_step
    | solve [auto with frames]
    | solve [apply preserves_read_only; [tc_solve | auto with frames]] ].

Lemma propagate_functions_kept n0 self loc :
  (n0 <= oid (adj_var loc))%nat ->
  preserves (functions_kept n0) (propagate self loc).
Proof.
  intros Hav.
  unfold propagate, homogenize_and_apply, homogenized_copy, DirichletBC_copy,
    bc_homogenize, dependency_adj, collect_bc_rows, apply_bc, DirichletBC_new,
    add_adj_output, backend_derivative, backend_assemble.
  frame_functions.
Qed.

Lemma linearise_functions_kept n0 self :
  preserves (functions_kept n0) (linearise self).
Proof.
  unfold linearise, backend_replace, backend_derivative, backend_assemble.
  frame.
Qed.

(** The locals a returning first part ends with: the adjoint variable is
    a Function created by the call, on the space of the solution. *)
Lemma linearise_locals self s loc s' :
  linearise self s = (Ok loc, s') ->
  adj_var loc = Obj KFunction (next_id s) /\
  exists out b d,
    sb_outputs self !! 0%nat = Some out /\ block_outputs s !! out = Some b /\
    okind (output b) = KFunction /\ functions s !! oid (output b) = Some d /\
    V loc = fn_space d /\ dJdu loc = adj_value b.
Proof.
  intros H. pose proof (linearise_Ok _ _ _ _ H) as (_ & _ & Hfwd & (bo & Hbo & HdJ) & _).
  unfold linearise in H.
  apply bind_Ok_inv in H as (fwd & s1 & Hfwd' & H).
  unfold index in Hfwd'. rewrite Hfwd in Hfwd'. injection Hfwd' as <- <-.
  apply bind_Ok_inv in H as (u & s1 & Hu & H).
  apply get_output_Ok in Hu as (-> & b & Hb & ->).
  assert (b = bo) as -> by congruence.
  apply bind_Ok_inv in H as (Vu & s1 & HV & H).
  unfold function_space in HV. apply bind_Ok_inv in HV as (d & s2 & Hd & [= <- <-]).
  apply function_data_Ok in Hd as (-> & Hk & Hd).
  apply bind_Ok_inv in H as (av & s1 & Hav & H).
  injection Hav as <- <-.
  apply bind_Ok_inv in H as ([tmp_u F] & s2 & _ & H).
  do 8 (apply bind_Ok_inv in H as (? & ? & _ & H)).
  unfold ret in H. injection H as Hloc _.
  pose proof (f_equal adj_var Hloc) as Ha. pose proof (f_equal V Hloc) as HV.
  simpl in Ha, HV. split; [done|].
  by exists (fwd_block_output loc), bo, d.
Qed.

(** X5: the backward sweep never alters forward data.  Whatever its
    outcome, [evaluate_adj] leaves every Function that exists before the
    call with the data it had: a SolveBlock writes only into the Functions
    it creates (the adjoint variable, the placeholder of a linear block,
    the adjoint of a boundary condition), an AssignBlock into none. *)
Theorem evaluate_adj_keeps_functions b s r s' :
  evaluate_adj b s = (r, s') ->
  forall i, (i < next_id s)%nat -> functions s' !! i = functions s !! i.
Proof.
  intros H.
  assert (functions_kept (next_id s) s s') as Hk.
  { destruct b as [self|self]; simpl in H.
    - unfold SolveBlock_evaluate_adj in H.
      apply bind_inv in H as [(loc & s1 & Hlin & H)|(e & Hlin & _)].
      + etrans; [by eapply linearise_functions_kept|].
        apply linearise_locals in Hlin as [Hav _].
        destruct (is_zero (dJdu loc)).
        * injection H as _ <-. reflexivity.
        * eapply propagate_functions_kept; [|done]. rewrite Hav. simpl. lia.
      + by eapply linearise_functions_kept.
    - assert (preserves (functions_kept (next_id s)) (AssignBlock_evaluate_adj self))
        as Hp.
      { unfold AssignBlock_evaluate_adj, add_adj_output. frame. }
      by eapply Hp. }
  by apply Hk.
Qed.

(** *** The block outputs *)

#[local] Instance accumulators_only_preorder deps : PreOrder (accumulators_only deps).
Proof.
  split.
  - by intros s.
  - intros s1 s2 s3 (Ht1 & Hb1 & Ha1 & H1) (Ht2 & Hb2 & Ha2 & H2).
    split_and!; [congruence..|]. intros k.
    destruct (H1 k) as (Ho1 & Hc1 & Hk1), (H2 k) as (Ho2 & Hc2 & Hk2).
    split_and!; [congruence..|]. intros Hk. rewrite Hk2 by done. by apply Hk1.
Qed.

Lemma accumulators_only_intro deps s s' :
  tape s' = tape s -> blocks s' = blocks s -> attached s' = attached s ->
  block_outputs s' = block_outputs s ->
  accumulators_only deps s s'.
Proof. intros Ht Hb Ha Ho. split_and!; try done. intros k. by rewrite Ho. Qed.

Lemma fresh_accumulators_only deps : preserves (accumulators_only deps) fresh.
Proof. intros s r s' [= _ <-]. by apply accumulators_only_intro. Qed.

Lemma log_accumulators_only deps e : preserves (accumulators_only deps) (log e).
Proof. intros s r s' [= _ <-]. by apply accumulators_only_intro. Qed.

Lemma modify_functions_accumulators_only deps f :
  preserves (accumulators_only deps) (modify (fun s => set_functions (f s) s)).
Proof. intros s r s' [= _ <-]. by apply accumulators_only_intro. Qed.

Lemma modify_bconds_accumulators_only deps f :
  preserves (accumulators_only deps) (modify (fun s => set_bconds (f s) s)).
Proof. intros s r s' [= _ <-]. by apply accumulators_only_intro. Qed.

Lemma new_Function_accumulators_only deps V :
  preserves (accumulators_only deps) (new_Function V).
Proof. intros s r s' [= _ <-]. by apply accumulators_only_intro. Qed.

Lemma add_adj_output_accumulators_only deps bo c :
  bo ∈ deps -> preserves (accumulators_only deps) (add_adj_output bo c).
Proof.
  intros Hin s r s' H. unfold add_adj_output, block_output, modify, bind in H.
  destruct (block_outputs s !! bo) as [b|] eqn:Hb; simplify_eq; [|reflexivity].
  split_and!; try done. intros k. simpl.
  destruct (decide (k = bo)) as [->|Hne].
  - rewrite lookup_insert_eq, Hb. split_and!; try done.
  - by rewrite lookup_insert_ne.
Qed.

#[local] Hint Resolve fresh_accumulators_only log_accumulators_only
  modify_functions_accumulators_only modify_bconds_accumulators_only
  new_Function_accumulators_only : frames.
#[local] Hint Extern 1 (preserves (accumulators_only _) (add_adj_output _ _)) =>
  apply add_adj_output_accumulators_only; assumption : frames.

Lemma dependency_adj_accumulators_only deps self loc bs bo :
  bo ∈ deps -> preserves (accumulators_only deps) (dependency_adj self loc bs bo).
Proof.
  intros Hin.
  unfold dependency_adj, collect_bc_rows, apply_bc, DirichletBC_new, set_vector,
    backend_derivative, backend_assemble.
  frame.
Qed.

Lemma sensitivities_accumulators_only self loc bs a :
  preserves (accumulators_only (sb_dependencies self))
    (foldM (fun _ bo => dependency_adj self loc bs bo) a (sb_dependencies self)).
Proof.
  apply preserves_foldM_elem; [tc_solve|].
  intros _ bo Hin. by apply dependency_adj_accumulators_only.
Qed.

#[local] Hint Resolve sensitivities_accumulators_only : frames.

Lemma SolveBlock_evaluate_adj_accumulators_only self :
  preserves (accumulators_only (sb_dependencies self)) (SolveBlock_evaluate_adj self).
Proof.
  unfold SolveBlock_evaluate_adj, linearise, propagate, homogenize_and_apply,
    homogenized_copy, DirichletBC_copy, bc_homogenize, apply_bc, set_vector,
    backend_replace, backend_derivative, backend_assemble.
  frame_by_hints.
Qed.

Lemma AssignBlock_evaluate_adj_accumulators_only self :
  preserves (accumulators_only (ab_dependencies self)) (AssignBlock_evaluate_adj self).
Proof.
  intros s r s' H. unfold AssignBlock_evaluate_adj in H.
  apply bind_inv in H as [(out & s1 & Hout & H)|(e & Hout & _)]; last first.
  { by apply read_only_state in Hout as ->; [|frame]. }
  apply read_only_state in Hout as ->; [|frame].
  apply bind_inv in H as [(a & s1 & Ha & H)|(e & Ha & _)]; last first.
  { by apply read_only_state in Ha as ->; [|frame]. }
  apply read_only_state in Ha as ->; [|frame].
  apply bind_inv in H as [(dep & s1 & Hdep & H)|(e & Hdep & _)]; last first.
  { by apply read_only_state in Hdep as ->; [|frame]. }
  pose proof (read_only_state _ _ _ _ (preserves_index eq _ _ _) Hdep) as ->.
  unfold index in Hdep.
  destruct (ab_dependencies self !! 1%nat) as [dep'|] eqn:E; [|done].
  injection Hdep as ->.
  eapply add_adj_output_accumulators_only; [|done].
  by eapply list_elem_of_lookup_2.
Qed.

(** X6: what the backward sweep touches.  Whatever its outcome,
    [evaluate_adj] leaves the tape, the blocks and the attachments as
    they are; every block output keeps its value and its checkpoint, and
    the block outputs that are not dependencies of the block are
    unchanged: only accumulated adjoints of the block's dependencies can
    change. *)
Theorem evaluate_adj_changes_only_dependency_adjoints b s r s' :
  evaluate_adj b s = (r, s') ->
  tape s' = tape s /\ blocks s' = blocks s /\ attached s' = attached s /\
  forall k,
    output <$> block_outputs s' !! k = output <$> block_outputs s !! k /\
    checkpoint <$> block_outputs s' !! k = checkpoint <$> block_outputs s !! k /\
    (k ∉ get_dependencies b -> block_outputs s' !! k = block_outputs s !! k).
Proof.
  intros H. destruct b as [self|self]; simpl in *.
  - by apply SolveBlock_evaluate_adj_accumulators_only in H.
  - by apply AssignBlock_evaluate_adj_accumulators_only in H.
Qed.

(** ** The contributions of SolveBlock.evaluate_adj *)

Lemma fresh_quiet : preserves quiet fresh.
Proof. intros s r s' [= _ <-]. split; [done|]. exists []. by rewrite app_nil_r. Qed.

Lemma modify_functions_quiet f :
  preserves quiet (modify (fun s => set_functions (f s) s)).
Proof. intros s r s' [= _ <-]. split; [done|]. exists []. by rewrite app_nil_r. Qed.

Lemma modify_bconds_quiet f :
  preserves quiet (modify (fun s => set_bconds (f s) s)).
Proof. intros s r s' [= _ <-]. split; [done|]. exists []. by rewrite app_nil_r. Qed.

#[local] Hint Resolve fresh_quiet modify_functions_quiet modify_bconds_quiet : frames.

Lemma collect_bc_rows_quiet bs : preserves quiet (collect_bc_rows bs).
Proof. unfold collect_bc_rows. frame. Qed.

Lemma apply_bc_quiet bc t : preserves quiet (apply_bc bc t).
Proof. unfold apply_bc. frame. Qed.

Lemma DirichletBC_new_quiet V x sub : preserves quiet (DirichletBC_new V x sub).
Proof. unfold DirichletBC_new. frame. Qed.

Lemma set_vector_quiet o v : preserves quiet (set_vector o v).
Proof. unfold set_vector. frame. Qed.

Lemma homogenize_and_apply_quiet bs t : preserves quiet (homogenize_and_apply bs t).
Proof.
  unfold homogenize_and_apply, homogenized_copy, DirichletBC_copy, bc_homogenize,
    apply_bc.
  frame.
Qed.

#[local] Hint Resolve collect_bc_rows_quiet apply_bc_quiet DirichletBC_new_quiet
  set_vector_quiet homogenize_and_apply_quiet : frames.

Lemma contributes_add bo (P : adj tensor -> Prop) c :
  P c -> contributes bo P (add_adj_output bo c).
Proof. intros Hc s r s' H. right. exists s, c. by split_and!. Qed.

Lemma contributes_bind {A} bo (P : adj tensor -> Prop) (m : M A) k :
  preserves quiet m -> (forall a, contributes bo P (k a)) ->
  contributes bo P (bind m k).
Proof.
  intros Hm Hk s r s' H.
  apply bind_inv in H as [(a & s1 & H1 & H2)|(e & H1 & ->)].
  - destruct (Hk a _ _ _ H2) as [[Hq He]|(s2 & c & Hc & Hq & Hadd)].
    + left. split; [|done]. etrans; [by eapply Hm | done].
    + right. exists s2, c. split_and!; try done. etrans; [by eapply Hm | done].
  - left. split; [by eapply Hm | by eexists].
Qed.

Ltac contribute :=
  repeat first
    [ apply contributes_add; simpl; by eauto
    | apply contributes_bind; [frame | intros ?]
    | progress cbv zeta ].

(** One iteration of the last loop: either no block output changes, and
    then a returning iteration was on the block's own function or on a
    value that is neither a Function, a Constant, a DirichletBC nor an
    Expression; or the iteration returns and the dependency has received
    one contribution, of the shape of its class. *)
Lemma dependency_adj_effect self loc bs bo s r s' :
  dependency_adj self loc bs bo s = (r, s') ->
  (block_outputs s' = block_outputs s /\
   (r = Ok tt -> exists b, block_outputs s !! bo = Some b /\
      (output b = func self \/ okind (output b) = KOther))) \/
  (exists b c,
     block_outputs s !! bo = Some b /\ output b ≠ func self /\
     contribution_of (okind (output b)) (V loc) c /\ r = Ok tt /\
     block_outputs s' =
       <[bo := {| output := output b; checkpoint := checkpoint b;
                  adj_value := accumulate (adj_value b) c |}]> (block_outputs s)).
Proof.
  unfold dependency_adj. intros H.
  apply bind_inv in H as [(c & s1 & Hc & H)|(e & Hc & ->)]; last first.
  { left. by apply read_only_state in Hc as ->; [|frame]. }
  apply get_output_Ok in Hc as (-> & b & Hb & ->).
  case_bool_decide as Hne; last first.
  { injection H as <- <-. left. split; [done|]. intros _. exists b.
    split; [done|]. left. by destruct (decide (output b = func self)). }
  destruct (okind (output b)) eqn:Hk.
  5: { injection H as <- <-. left. split; [done|]. intros _. exists b. auto. }
  all: match type of H with
       | ?m _ = _ =>
           assert (contributes bo (contribution_of (okind (output b)) (V loc)) m)
             as Hm by (rewrite Hk; contribute)
       end.
  all: destruct (Hm _ _ _ H) as [[[Hq _] [e ->]]|(s1 & c & HP & [Hq _] & Hadd)];
    [left; by split|].
  all: right; exists b, c.
  all: unfold add_adj_output, block_output, modify, bind in Hadd.
  all: rewrite Hq, Hb in Hadd; injection Hadd as <- <-; simpl.
  all: rewrite Hq, Hk; split_and!; try done; by rewrite <- Hk.
Qed.

(** The last loop, over the dependencies [xs]. *)
Lemma sensitivities_effect self loc bs : forall xs s r s',
  foldM (fun _ bo => dependency_adj self loc bs bo) tt xs s = (r, s') ->
  (forall k,
     k ∉ xs \/ (exists b, block_outputs s !! k = Some b /\
                  (output b = func self \/ okind (output b) = KOther)) ->
     block_outputs s' !! k = block_outputs s !! k) /\
  (r = Ok tt -> NoDup xs ->
   forall k b, k ∈ xs -> block_outputs s !! k = Some b ->
     output b ≠ func self -> okind (output b) ≠ KOther ->
     exists c, contribution_of (okind (output b)) (V loc) c /\
       block_outputs s' !! k =
         Some {| output := output b; checkpoint := checkpoint b;
                 adj_value := accumulate (adj_value b) c |}).
Proof.
  induction xs as [|x xs IH]; intros s r s' H; simpl in H.
  { injection H as <- <-. split; [done|]. by intros _ _ k b ?%elem_of_nil. }
  assert (Hstep : forall r1 s1, dependency_adj self loc bs x s = (r1, s1) ->
            forall k, k ≠ x \/ (exists b, block_outputs s !! k = Some b /\
                         (output b = func self \/ okind (output b) = KOther)) ->
              block_outputs s1 !! k = block_outputs s !! k).
  { intros r1 s1 H1 k Hk.
    apply dependency_adj_effect in H1 as [[-> _]|(b & c & Hb & Hne & HP & _ & ->)];
      [done|].
    destruct (decide (k = x)) as [->|Hkx]; [|by rewrite lookup_insert_ne].
    destruct Hk as [?|(b' & Hb' & [?|Hk])]; [done| |].
    - congruence.
    - assert (b' = b) as -> by congruence. rewrite Hk in HP. done. }
  apply bind_inv in H as [([] & s1 & H1 & H2)|(e & H1 & ->)]; last first.
  { split; [|done]. intros k Hk. eapply Hstep; [done|].
    destruct Hk as [Hk|Hk]; [|by right]. left. intros ->. apply Hk. by left. }
  specialize (Hstep _ _ H1). destruct (IH _ _ _ H2) as [IH1 IH2]. split.
  - intros k Hk. rewrite IH1, Hstep; [done| |].
    + destruct Hk as [Hk|Hk]; [|by right]. left. intros ->. apply Hk. by left.
    + destruct Hk as [Hk|Hk]; [left; intros ?; apply Hk; by right|].
      right. rewrite Hstep; [done|by right].
  - intros -> [Hx Hnd]%NoDup_cons k b [->|Hk]%elem_of_cons Hb Hne Hko.
    + apply dependency_adj_effect in H1
        as [[_ Hskip]|(b' & c & Hb' & _ & HP & _ & Hs1)].
      * destruct (Hskip eq_refl) as (b' & Hb' & Hcase).
        assert (b' = b) as -> by congruence. by destruct Hcase.
      * assert (b' = b) as -> by congruence.
        exists c. split; [done|]. rewrite IH1 by (by left).
        by rewrite Hs1, lookup_insert_eq.
    + apply (IH2 eq_refl Hnd k b Hk); try done.
      rewrite Hstep; [done|]. left. by intros ->.
Qed.

Lemma set_vector_frame o v s r s' :
  set_vector o v s = (r, s') ->
  calls s' = calls s /\ block_outputs s' = block_outputs s.
Proof.
  unfold set_vector, function_data, modify, bind. intros H.
  repeat case_match; by simplify_eq.
Qed.

(** The body after the test of [dJdu]: it raises before any block output
    has changed, or the backend has solved the adjoint system and the
    last loop runs. *)
Lemma propagate_inv self loc s r s' :
  propagate self loc s = (r, s') ->
  (block_outputs s' = block_outputs s /\ exists e, r = Raise e) \/
  exists bs s1 A x v l,
    block_outputs s1 = block_outputs s /\
    solve_linear A x (dJdu loc) = Some v /\
    calls s1 = calls s ++ l ++ [ESolveLinear A x (dJdu loc)] /\
    foldM (fun _ bo => dependency_adj self loc bs bo) tt (sb_dependencies self) s1
      = (r, s').
Proof.
  unfold propagate. intros H.
  apply bind_inv in H as [([bs t] & s1 & Hh & H)|(e & Hh & ->)]; last first.
  { left. split; [|by eexists]. by apply homogenize_and_apply_quiet in Hh as [? _]. }
  apply homogenize_and_apply_quiet in Hh as [Hb1 (l1 & Hc1 & _)].
  apply bind_inv in H as [([] & s2 & Hlog & H)|(e & [=] & _)].
  apply log_Ok in Hlog as ->.
  apply bind_inv in H as [(x & s2 & Hx & H)|(e & Hx & ->)]; last first.
  { left. split; [|by eexists]. by apply read_only_state in Hx as ->; [|frame]. }
  apply read_only_state in Hx as ->; [|frame].
  apply bind_inv in H as [([] & s2 & Hlog & H)|(e & [=] & _)].
  apply log_Ok in Hlog as ->.
  destruct (solve_linear _ _ _) as [v|] eqn:Hv; last first.
  { injection H as <- <-. left. split; [done|]. by eexists. }
  apply bind_inv in H as [([] & s2 & Hset & H)|(e & Hset & ->)]; last first.
  { left. split; [|by eexists]. by apply set_vector_frame in Hset as [_ ->]. }
  apply set_vector_frame in Hset as [Hc2 Hb2].
  right. exists bs, s2, (transpose t), x, v, (l1 ++ [ETranspose t]).
  split_and!; try done.
  - by rewrite Hb2.
  - rewrite Hc2. simpl. by rewrite Hc1, <- !(assoc_L (++)).
Qed.

(** X7: the dependencies [SolveBlock.evaluate_adj] passes over.  A block
    output whose value is the block's own function, or is of none of the
    four classes the loop tests for, is the same after the call as
    before, whatever the outcome: it receives no contribution. *)
Theorem SolveBlock_evaluate_adj_skips_own_function self s r s' k b :
  SolveBlock_evaluate_adj self s = (r, s') ->
  block_outputs s !! k = Some b ->
  output b = func self \/ okind (output b) = KOther ->
  block_outputs s' !! k = Some b.
Proof.
  intros H Hb Hcase. unfold SolveBlock_evaluate_adj in H.
  apply bind_inv in H as [(loc & s1 & Hlin & H)|(e & Hlin & _)]; last first.
  { apply linearise_quiet in Hlin as [-> _]. done. }
  apply linearise_quiet in Hlin as [Hb1 _].
  destruct (is_zero (dJdu loc)).
  { injection H as _ <-. by rewrite Hb1. }
  apply propagate_inv in H as [[-> _]|(bs & s2 & A & x & v & l & Hb2 & _ & _ & H)].
  { by rewrite Hb1. }
  apply sensitivities_effect in H as [H _].
  rewrite H, Hb2, Hb1; [done|]. right. exists b. by rewrite Hb2, Hb1.
Qed.

(** X8: what each dependency receives.  When the adjoint of the output is
    not zero and the call returns, every dependency of the block (each
    listed once) whose value is not the block's own function has received
    exactly one contribution, accumulated on its previous adjoint: a
    vector for a Function and for a DirichletBC, a number for a Constant,
    and for an Expression a one-element list pairing a vector with the
    function space of the solution. *)
Theorem SolveBlock_evaluate_adj_contributions self s s' out b_out k b :
  SolveBlock_evaluate_adj self s = (Ok tt, s') ->
  sb_outputs self !! 0%nat = Some out ->
  block_outputs s !! out = Some b_out ->
  is_zero (adj_value b_out) = false ->
  NoDup (sb_dependencies self) ->
  k ∈ sb_dependencies self ->
  block_outputs s !! k = Some b ->
  output b ≠ func self ->
  okind (output b) ≠ KOther ->
  exists c d,
    functions s !! oid (output b_out) = Some d /\
    contribution_of (okind (output b)) (fn_space d) c /\
    block_outputs s' !! k =
      Some {| output := output b; checkpoint := checkpoint b;
              adj_value := accumulate (adj_value b) c |}.
Proof.
  intros H Hout Hbo Hnz Hnd Hk Hb Hne Hko. unfold SolveBlock_evaluate_adj in H.
  apply bind_Ok_inv in H as (loc & s1 & Hlin & H).
  pose proof (linearise_quiet _ _ _ _ Hlin) as [Hb1 _].
  apply linearise_locals in Hlin
    as (_ & out' & b' & d & Hout' & Hbo' & _ & Hd & HV & HdJ).
  assert (out' = out) as -> by congruence.
  assert (b' = b_out) as -> by congruence.
  rewrite HdJ, Hnz in H.
  apply propagate_inv in H
    as [[_ [e [=]]]|(bs & s2 & A & x & v & l & Hb2 & _ & _ & H)].
  apply sensitivities_effect in H as [_ H].
  destruct (H eq_refl Hnd k b Hk) as (c & Hc & Hk'); try done.
  { by rewrite Hb2, Hb1. }
  exists c, d. by rewrite <- HV.
Qed.

Lemma sensitivities_originals_kept self loc bs a xs :
  preserves originals_kept (foldM (fun _ bo => dependency_adj self loc bs bo) a xs).
Proof.
  unfold dependency_adj, collect_bc_rows, apply_bc, set_vector, add_adj_output,
    new_Function, backend_derivative, backend_assemble.
  frame.
Qed.

(** X9: nothing is propagated without the adjoint solve.  If a run of
    [SolveBlock.evaluate_adj] has changed a block output, then the adjoint
    of the block's output was not zero and the backend's linear solve,
    called during the run with that adjoint as right-hand side, has
    succeeded: a failing adjoint solve leaves every accumulated adjoint
    as it was. *)
Theorem SolveBlock_evaluate_adj_needs_adjoint_solve self s r s' :
  SolveBlock_evaluate_adj self s = (r, s') ->
  block_outputs s' ≠ block_outputs s ->
  exists out b A x v l,
    sb_outputs self !! 0%nat = Some out /\
    block_outputs s !! out = Some b /\
    is_zero (adj_value b) = false /\
    solve_linear A x (adj_value b) = Some v /\
    calls s' = calls s ++ l /\
    ESolveLinear A x (adj_value b) ∈ l.
Proof.
  intros H Hchg. unfold SolveBlock_evaluate_adj in H.
  apply bind_inv in H as [(loc & s1 & Hlin & H)|(e & Hlin & _)]; last first.
  { by apply linearise_quiet in Hlin as [? _]. }
  pose proof (linearise_quiet _ _ _ _ Hlin) as [Hb1 (l1 & Hc1 & _)].
  apply linearise_locals in Hlin
    as (_ & out & b & d & Hout & Hbo & _ & _ & _ & HdJ).
  destruct (is_zero (dJdu loc)) eqn:Hz.
  { injection H as _ <-. done. }
  apply propagate_inv in H
    as [[Hsame _]|(bs & s2 & A & x & v & l & Hb2 & Hv & Hc2 & H)].
  { congruence. }
  apply sensitivities_originals_kept in H as (_ & _ & l3 & Hc3 & _).
  exists out, b, A, x, v, (l1 ++ l ++ [ESolveLinear A x (adj_value b)] ++ l3).
  rewrite <- HdJ. split_and!; try done.
  - by rewrite Hc3, Hc2, Hc1, <- !(assoc_L (++)).
  - rewrite !elem_of_app, list_elem_of_singleton. auto.
Qed.

(** C3 (amended): the short-circuit of [SolveBlock.evaluate_adj] is on
    the native number zero, the test [isinstance(dJdu, (int, float)) and
    dJdu == 0] of the source.  When [dJdu] is that number, a call that
    returns has appended to the log the action (linear blocks only), the
    replacement of the coefficients, the derivative with respect to the
    solution and the assembly of [dFdu], and nothing else: it returns
    right after the Jacobian has been differentiated and assembled, not
    before, and before the boundary conditions, the transposition, the
    linear solve and the sensitivities of the dependencies.  When [dJdu]
    is anything else there is no short-circuit, and a vector is never that
    number, even the zero vector: a call that returns has run the adjoint
    solve with [dJdu] as right-hand side. *)
Theorem SolveBlock_zero_dJdu_returns_after_assembly self s out bo s' :
  sb_outputs self !! 0%nat = Some out ->
  block_outputs s !! out = Some bo ->
  SolveBlock_evaluate_adj self s = (Ok tt, s') ->
  (is_zero (adj_value bo) = true ->
   exists tmp_u F m w d,
     calls s' = calls s ++ action_calls self tmp_u ++
       [EReplace F m; EDerivative (replace F m) w d;
        EAssemble (derivative (replace F m) w d)]) /\
  (is_zero (adj_value bo) = false ->
   exists l A x v,
     calls s' = calls s ++ l /\
     ESolveLinear A x (adj_value bo) ∈ l /\
     solve_linear A x (adj_value bo) = Some v) /\
  (forall V, adj_value bo = AVec (zero_vector V) ->
   exists l A x v,
     calls s' = calls s ++ l /\
     ESolveLinear A x (AVec (zero_vector V)) ∈ l /\
     solve_linear A x (AVec (zero_vector V)) = Some v).
Proof.
  intros Hout Hbo H. unfold SolveBlock_evaluate_adj in H.
  apply bind_Ok_inv in H as (loc & s1 & Hlin & H).
  pose proof (linearise_Ok _ _ _ _ Hlin)
    as (Hb & _ & Hfwd & (bo' & Hbo' & HdJ) & (tu & F & m & w & d & _ & _ & Hc)).
  assert (bo' = bo) as -> by congruence.
  assert (Hsolve : is_zero (adj_value bo) = false ->
            exists l A x v,
              calls s' = calls s ++ l /\
              ESolveLinear A x (adj_value bo) ∈ l /\
              solve_linear A x (adj_value bo) = Some v).
  { intros Hnz. rewrite HdJ, Hnz in H.
    apply propagate_inv in H
      as [[_ [e [=]]]|(bs & s2 & A & x & v & l & _ & Hv & Hc2 & H)].
    apply sensitivities_originals_kept in H as (_ & _ & l3 & Hc3 & _).
    exists (action_calls self tu ++
              [EReplace F m; EDerivative (replace F m) w d;
               EAssemble (derivative (replace F m) w d)] ++
              l ++ [ESolveLinear A x (dJdu loc)] ++ l3), A, x, v.
    rewrite <- HdJ. split_and!; [|  | done].
    - by rewrite Hc3, Hc2, Hc, <- !(assoc_L (++)).
    - rewrite !elem_of_app, list_elem_of_singleton. auto 7. }
  split_and!.
  - intros Hz. rewrite HdJ, Hz in H. injection H as <-. by exists tu, F, m, w, d.
  - exact Hsolve.
  - intros V HV. rewrite <- HV. apply Hsolve. by rewrite HV.
Qed.

(** ** The adjoint solve *)

#[local] Instance adjoint_solves_preorder rhs : PreOrder (adjoint_solves rhs).
Proof.
  split.
  - intros s. exists []. by rewrite app_nil_r.
  - intros s1 s2 s3 (l1 & Hc1 & Hl1) (l2 & Hc2 & Hl2). exists (l1 ++ l2).
    rewrite Hc2, Hc1, (assoc_L (++)). split; [done|]. by apply Forall_app.
Qed.

Lemma adjoint_solves_intro rhs s s' : calls s' = calls s -> adjoint_solves rhs s s'.
Proof. intros Hc. exists []. by rewrite app_nil_r. Qed.

Lemma fresh_adjoint_solves rhs : preserves (adjoint_solves rhs) fresh.
Proof. intros s r s' [= _ <-]. by apply adjoint_solves_intro. Qed.

Lemma log_adjoint_solves rhs e :
  solves_for rhs e -> preserves (adjoint_solves rhs) (log e).
Proof. intros He s r s' [= _ <-]. exists [e]. split; [done|]. by constructor. Qed.

Lemma modify_functions_adjoint_solves rhs f :
  preserves (adjoint_solves rhs) (modify (fun s => set_functions (f s) s)).
Proof. intros s r s' [= _ <-]. by apply adjoint_solves_intro. Qed.

Lemma modify_bconds_adjoint_solves rhs f :
  preserves (adjoint_solves rhs) (modify (fun s => set_bconds (f s) s)).
Proof. intros s r s' [= _ <-]. by apply adjoint_solves_intro. Qed.

Lemma modify_block_outputs_adjoint_solves rhs f :
  preserves (adjoint_solves rhs) (modify (fun s => set_block_outputs (f s) s)).
Proof. intros s r s' [= _ <-]. by apply adjoint_solves_intro. Qed.

Lemma new_Function_adjoint_solves rhs V :
  preserves (adjoint_solves rhs) (new_Function V).
Proof. intros s r s' [= _ <-]. by apply adjoint_solves_intro. Qed.

#[local] Hint Resolve fresh_adjoint_solves modify_functions_adjoint_solves
  modify_bconds_adjoint_solves modify_block_outputs_adjoint_solves
  new_Function_adjoint_solves : frames.
#[local] Hint Extern 1 (preserves (adjoint_solves _) (log _)) =>
  apply log_adjoint_solves; first [exact I | reflexivity] : frames.

Lemma linearise_adjoint_solves rhs self :
  preserves (adjoint_solves rhs) (linearise self).
Proof.
  unfold linearise, backend_replace, backend_derivative, backend_assemble.
  frame.
Qed.

Lemma propagate_adjoint_solves self loc :
  preserves (adjoint_solves (dJdu loc)) (propagate self loc).
Proof.
  unfold propagate, homogenize_and_apply, homogenized_copy, DirichletBC_copy,
    bc_homogenize, dependency_adj, collect_bc_rows, apply_bc, DirichletBC_new,
    set_vector, add_adj_output, backend_derivative, backend_assemble.
  frame.
Qed.

(** X17: the right-hand side of the adjoint solve.  Whatever its
    outcome, [SolveBlock.evaluate_adj] calls no backend solve other than
    the linear solve of the adjoint system, and each such call has, as
    its right-hand side, the adjoint accumulated on the block's output
    exactly as it was read: no boundary condition, homogenized or not, is
    applied to it on the way. *)
Theorem SolveBlock_evaluate_adj_solves_for_output_adjoint self s r s' out b :
  SolveBlock_evaluate_adj self s = (r, s') ->
  sb_outputs self !! 0%nat = Some out ->
  block_outputs s !! out = Some b ->
  exists l, calls s' = calls s ++ l /\
    forall e, e ∈ l -> is_solve e = true ->
      exists A x, e = ESolveLinear A x (adj_value b).
Proof.
  intros H Hout Hb.
  assert (adjoint_solves (adj_value b) s s') as (l & Hc & Hl).
  { unfold SolveBlock_evaluate_adj in H.
    apply bind_inv in H as [(loc & s1 & Hlin & H)|(e & Hlin & _)];
      [|by eapply linearise_adjoint_solves].
    etrans; [by eapply linearise_adjoint_solves|].
    apply linearise_Ok in Hlin as (_ & _ & Hfwd & (b' & Hb' & HdJ) & _).
    assert (b' = b) as -> by congruence.
    destruct (is_zero (dJdu loc)).
    - injection H as _ <-. reflexivity.
    - rewrite <- HdJ. by eapply propagate_adjoint_solves. }
  exists l. split; [done|]. intros e He Hs.
  rewrite Forall_forall in Hl. specialize (Hl e He).
  destruct e; try done. simpl in Hl. subst. by eexists _, _.
Qed.

(** ** The boundary conditions and the adjoint system *)

(** The loop over [self.bcs], when it returns: every condition was a
    DirichletBC, and the tensor it ends with is the one it started with,
    constrained by the homogenized content of each. *)
Lemma homogenize_and_apply_Ok s0 bs : forall acc s bs' t' s',
  foldM (fun acc bc =>
           bind (if isinstance bc KDirichletBC then homogenized_copy bc else ret bc)
             (fun bc => bind (apply_bc bc acc.2)
                          (fun dFdu => ret (acc.1 ++ [bc], dFdu))))
        acc bs s = (Ok (bs', t'), s') ->
  (next_id s0 <= next_id s)%nat ->
  (forall i, (i < next_id s0)%nat -> bconds s !! i = bconds s0 !! i) ->
  (forall bc, bc ∈ bs -> (oid bc < next_id s0)%nat) ->
  exists ds,
    Forall2 (fun bc d => okind bc = KDirichletBC /\ bconds s0 !! oid bc = Some d)
            bs ds /\
    t' = constrained ds acc.2.
Proof.
  induction bs as [|bc bs IH]; intros acc s bs' t' s' H Hn0 Hb0 Hlt; simpl in H.
  { injection H as Hacc _. exists []. split; [constructor|]. by rewrite Hacc. }
  apply bind_Ok_inv in H as (acc1 & s1 & Hstep & H).
  assert (exists d, okind bc = KDirichletBC /\ bconds s !! oid bc = Some d /\
            acc1.2 = bc_apply (homogenize d) acc.2 /\
            (next_id s <= next_id s1)%nat /\
            (forall i, (i < next_id s)%nat -> bconds s1 !! i = bconds s !! i))
    as (d & Hk & Hd & Hacc & Hn & Hb).
  { unfold isinstance, homogenized_copy, DirichletBC_copy, bc_homogenize, apply_bc,
      bc_data, fresh, log, modify, bind, ret, raise in Hstep.
    destruct bc as [k i]. simpl in *.
    repeat case_match; simplify_eq; simpl in *;
      repeat match goal with
             | H : <[?n := _]> _ !! ?n = _ |- _ => rewrite lookup_insert_eq in H
             end;
      simplify_eq.
    eexists. split_and!; [done | done | done | lia |].
    intros j Hj. by rewrite !lookup_insert_ne by lia. }
  assert (Hbc : (oid bc < next_id s0)%nat) by (apply Hlt; by left).
  apply IH in H as (ds & Hds & Ht).
  - exists (d :: ds). split.
    + constructor; [|done]. split; [done|]. by rewrite <- Hb0.
    + by rewrite Ht, Hacc.
  - lia.
  - intros i Hi. rewrite Hb by lia. by apply Hb0.
  - intros bc' Hbc'. apply Hlt. by right.
Qed.

Lemma SolveBlock_evaluate_adj_adjoint_solves self s r s' out b :
  SolveBlock_evaluate_adj self s = (r, s') ->
  sb_outputs self !! 0%nat = Some out ->
  block_outputs s !! out = Some b ->
  adjoint_solves (adj_value b) s s'.
Proof.
  intros H Hout Hb. unfold SolveBlock_evaluate_adj in H.
  apply bind_inv in H as [(loc & s1 & Hlin & H)|(e & Hlin & _)];
    [|by eapply linearise_adjoint_solves].
  etrans; [by eapply linearise_adjoint_solves|].
  apply linearise_Ok in Hlin as (_ & _ & Hfwd & (b' & Hb' & HdJ) & _).
  assert (b' = b) as -> by congruence.
  destruct (is_zero (dJdu loc)).
  - injection H as _ <-. reflexivity.
  - rewrite <- HdJ. by eapply propagate_adjoint_solves.
Qed.

(** C1 (amended): the boundary conditions constrain the Jacobian, and
    the Jacobian only.  When the adjoint [dJdu] of the output is not the
    zero sentinel and [SolveBlock.evaluate_adj] returns, every boundary
    condition recorded on the block is a DirichletBC; the matrix handed
    to the adjoint solve is the assembled Jacobian to which the
    homogenized content of each condition has been applied, in the order
    of [self.bcs], and which has then been transposed; the right-hand
    side of that solve is [dJdu] exactly as it was accumulated on the
    output; and the call makes no other solve with another right-hand
    side. *)
Theorem SolveBlock_evaluate_adj_constrains_jacobian_only self s s' out b :
  SolveBlock_evaluate_adj self s = (Ok tt, s') ->
  sb_outputs self !! 0%nat = Some out ->
  block_outputs s !! out = Some b ->
  is_zero (adj_value b) = false ->
  (forall bc, bc ∈ bcs self -> (oid bc < next_id s)%nat) ->
  exists ds fns f x l1 l2,
    Forall2 (fun bc d => okind bc = KDirichletBC /\ bconds s !! oid bc = Some d)
            (bcs self) ds /\
    EAssemble f ∈ l1 /\
    calls s' = calls s ++ l1 ++
      [ETranspose (constrained ds (assemble fns f));
       ESolveLinear (transpose (constrained ds (assemble fns f))) x (adj_value b)]
      ++ l2 /\
    Forall (solves_for (adj_value b)) (l1 ++ l2).
Proof.
  intros H Hout Hb Hnz Hlt.
  pose proof (SolveBlock_evaluate_adj_adjoint_solves _ _ _ _ _ _ H Hout Hb)
    as (l & Hcl & Hl).
  unfold SolveBlock_evaluate_adj in H.
  apply bind_Ok_inv in H as (loc & s1 & Hlin & H).
  pose proof (linearise_originals_kept _ _ _ _ Hlin) as (Hn1 & _).
  pose proof (linearise_Ok _ _ _ _ Hlin)
    as (_ & Hd1 & Hfwd & (b' & Hb' & HdJ) & (tu & F & m & w & d & _ & HJ & Hc1)).
  assert (b' = b) as -> by congruence.
  rewrite HdJ, Hnz in H. unfold propagate in H.
  apply bind_Ok_inv in H as ([bs t] & s2 & Hh & H).
  pose proof (homogenize_and_apply_quiet _ _ _ _ _ Hh) as [_ (lh & Hc2 & _)].
  unfold homogenize_and_apply in Hh.
  apply (homogenize_and_apply_Ok s) in Hh as (ds & Hds & Ht);
    [| done | intros i Hi; by rewrite Hd1 | done].
  simpl in Ht. subst t.
  apply bind_Ok_inv in H as ([] & s3 & Hlog & H). apply log_Ok in Hlog as ->.
  apply bind_Ok_inv in H as (x & s3 & Hx & H).
  apply read_only_state in Hx as ->; [|frame].
  apply bind_Ok_inv in H as ([] & s3 & Hlog & H). apply log_Ok in Hlog as ->.
  destruct (solve_linear _ _ _) as [v|] eqn:Hv; [|done].
  apply bind_Ok_inv in H as ([] & s3 & Hset & H).
  apply set_vector_frame in Hset as [Hc3 _].
  apply sensitivities_originals_kept in H as (_ & _ & l3 & Hc4 & _).
  set (l1 := action_calls self tu ++
               [EReplace F m; EDerivative (replace F m) w d;
                EAssemble (derivative (replace F m) w d)] ++ lh).
  assert (Hcalls : calls s' = calls s ++ l1 ++
            [ETranspose (constrained ds (dFdu loc));
             ESolveLinear (transpose (constrained ds (dFdu loc))) x (adj_value b)]
            ++ l3).
  { rewrite Hc4, Hc3. simpl. rewrite Hc2, Hc1, HdJ. subst l1.
    by rewrite <- !(assoc_L (++)). }
  exists ds, (functions s1), (derivative (replace F m) w d), x, l1, l3.
  rewrite <- HJ. split_and!; [done | | done |].
  - subst l1. rewrite !elem_of_app, !elem_of_cons. auto 8.
  - rewrite Hcalls in Hcl. apply app_inv_head in Hcl. subst l.
    apply Forall_app in Hl as [Hl1 Hl2]. apply Forall_app in Hl2 as [_ Hl3].
    by apply Forall_app.
Qed.

(** ** Frames of recompute *)

#[local] Instance replayed_preorder : PreOrder replayed.
Proof.
  split.
  - by intros s.
  - intros s1 s2 s3 (Ht1 & Hb1 & Ha1 & Hd1 & H1) (Ht2 & Hb2 & Ha2 & Hd2 & H2).
    split_and!; [congruence..|]. intros k.
    destruct (H1 k) as [Ho1 Hv1], (H2 k) as [Ho2 Hv2]. split; congruence.
Qed.

Lemma replayed_intro s s' :
  tape s' = tape s -> blocks s' = blocks s -> attached s' = attached s ->
  bconds s' = bconds s -> block_outputs s' = block_outputs s ->
  replayed s s'.
Proof. intros Ht Hb Ha Hd Ho. split_and!; try done. intros k. by rewrite Ho. Qed.

Lemma fresh_replayed : preserves replayed fresh.
Proof. intros s r s' [= _ <-]. by apply replayed_intro. Qed.

Lemma log_replayed e : preserves replayed (log e).
Proof. intros s r s' [= _ <-]. by apply replayed_intro. Qed.

Lemma modify_functions_replayed f :
  preserves replayed (modify (fun s => set_functions (f s) s)).
Proof. intros s r s' [= _ <-]. by apply replayed_intro. Qed.

Lemma solve_eq_replayed l r u bs : preserves replayed (solve_eq l r u bs).
Proof.
  intros s res s' H. pose proof (solve_eq_frame _ _ _ _ _ _ _ H) as [Ha _].
  apply solve_eq_calls in H as (_ & ? & ? & ? & ?). by apply replayed_intro.
Qed.

Lemma Function_assign_replayed dst src : preserves replayed (Function_assign dst src).
Proof.
  intros s res s' H.
  apply Function_assign_frame in H as (? & ? & ? & ? & ? & _). by apply replayed_intro.
Qed.

Lemma set_checkpoint_replayed bo ck : preserves replayed (set_checkpoint bo ck).
Proof.
  intros s r s' H. unfold set_checkpoint, block_output, modify, bind in H.
  destruct (block_outputs s !! bo) as [b|] eqn:Hb; simplify_eq; [|reflexivity].
  split_and!; try done. intros k. simpl.
  destruct (decide (k = bo)) as [->|Hne].
  - by rewrite lookup_insert_eq, Hb.
  - by rewrite lookup_insert_ne.
Qed.

#[local] Hint Resolve fresh_replayed log_replayed modify_functions_replayed
  solve_eq_replayed Function_assign_replayed set_checkpoint_replayed : frames.

(** X10: what a replay leaves alone.  Whatever its outcome, [recompute]
    changes neither the tape, the blocks and the attachments, nor a
    boundary condition, nor the value and the accumulated adjoint of any
    block output: of the block outputs, only a checkpoint can change. *)
Theorem recompute_keeps_adjoints b s r s' :
  recompute b s = (r, s') ->
  tape s' = tape s /\ blocks s' = blocks s /\ attached s' = attached s /\
  bconds s' = bconds s /\
  forall k,
    output <$> block_outputs s' !! k = output <$> block_outputs s !! k /\
    adj_value <$> block_outputs s' !! k = adj_value <$> block_outputs s !! k.
Proof.
  assert (preserves replayed (recompute b)) as Hp; [|apply Hp].
  destruct b as [self|self]; simpl.
  - unfold SolveBlock_recompute, backend_replace, _ad_create_checkpoint.
    frame_by_hints.
  - unfold AssignBlock_recompute. frame_by_hints.
Qed.

Lemma solve_eq_others l r u bs s res s' :
  solve_eq l r u bs s = (res, s') ->
  forall i, i ≠ oid u -> functions s' !! i = functions s !! i.
Proof.
  unfold solve_eq, log, modify, bind. intros H i Hi.
  repeat case_match; simplify_eq; simpl in *; by rewrite ?lookup_insert_ne.
Qed.

(** X11: a replay that fails early.  When [SolveBlock.recompute] raises
    an AttributeError or a BackendError (a side that is not a form, an
    unknown that is not a Function, a solve the backend rejects), no
    block output has changed and no object has been created: the
    checkpoint of the output is not refreshed.  If the backend's solve
    was not reached, every Function is as before the call; if the solve
    itself failed, every Function but its unknown is as before (the
    backend solves in place, and what a failing solve leaves in the
    unknown is the backend's). *)
Theorem SolveBlock_recompute_failure self s e s' :
  SolveBlock_recompute self s = (Raise e, s') ->
  e = AttributeError \/ e = BackendError ->
  block_outputs s' = block_outputs s /\ next_id s' = next_id s /\
  exists l, calls s' = calls s ++ l /\
    ((forall ev, ev ∈ l -> is_forward_solve ev = false) ->
     functions s' = functions s) /\
    (forall m rr w bs i, ESolveVariational m rr w bs ∈ l -> i ≠ oid w ->
       functions s' !! i = functions s !! i).
Proof.
  intros H He. unfold SolveBlock_recompute in H.
  assert (Hearly : forall l, calls s' = calls s ++ l ->
            functions s' = functions s -> block_outputs s' = block_outputs s ->
            next_id s' = next_id s ->
            block_outputs s' = block_outputs s /\ next_id s' = next_id s /\
            exists l, calls s' = calls s ++ l /\
              ((forall ev, ev ∈ l -> is_forward_solve ev = false) ->
               functions s' = functions s) /\
              (forall m rr w bs i, ESolveVariational m rr w bs ∈ l -> i ≠ oid w ->
                 functions s' !! i = functions s !! i)).
  { intros l Hc Hf Hb Hn. split_and!; try done. exists l. split_and!; try done.
    intros. by rewrite Hf. }
  apply bind_inv in H as [(acc & s1 & Hscan & H)|(e' & Hscan & _)]; last first.
  { assert (preserves eq (foldM (substitute self)
              {| rl_func := func self; replace_lhs_coeffs := ∅;
                 replace_rhs_coeffs := ∅ |} (sb_dependencies self))) as Hp by frame.
    destruct (Hp _ _ _ Hscan). apply (Hearly []); try done. by rewrite app_nil_r. }
  pose proof (scan_Ok _ _ _ _ _ _ Hscan) as (-> & _ & _).
  assert (Hraise : forall F m s0 e0 s0', backend_replace F m s0 = (Raise e0, s0') ->
            s0' = s0).
  { intros F m s0 e0 s0' H0.
    unfold backend_replace, as_form, log, modify, bind, ret, raise in H0.
    repeat case_match; by simplify_eq. }
  apply bind_inv in H as [(l & s1 & Hl & H)|(e' & Hl & _)]; last first.
  { apply Hraise in Hl as ->. apply (Hearly []); try done. by rewrite app_nil_r. }
  apply backend_replace_Ok in Hl as (l0 & Hl0 & -> & ->).
  set (s1 := set_calls _ s) in H.
  apply bind_inv in H as [(rr & s2 & Hr & H)|(e' & Hr & _)]; last first.
  { destruct (linear self); [|done].
    apply bind_inv in Hr as [(r' & s3 & _ & [=])|(e'' & Hr & _)].
    apply Hraise in Hr as ->. by apply (Hearly [EReplace l0 (replace_lhs_coeffs acc)]). }
  assert (exists l2, calls s2 = calls s ++ l2 /\
            Forall (fun ev => is_forward_solve ev = false) l2 /\
            functions s2 = functions s /\ block_outputs s2 = block_outputs s /\
            next_id s2 = next_id s) as (l2 & Hc2 & Hl2 & Hf2 & Hb2 & Hn2).
  { destruct (linear self).
    - apply bind_Ok_inv in Hr as (r' & s3 & Hr & [= _ <-]).
      apply backend_replace_Ok in Hr as (r0 & _ & _ & ->). simpl.
      eexists. rewrite <- (assoc_L (++)). split; [done|].
      split; [by repeat constructor | done].
    - injection Hr as _ <-. eexists. split; [done|].
      split; [by repeat constructor | done]. }
  apply bind_inv in H as [([] & s3 & Hsolve & H)|(e' & Hsolve & _)]; last first.
  { pose proof (solve_eq_frame _ _ _ _ _ _ _ Hsolve) as [_ Hn3].
    pose proof (solve_eq_others _ _ _ _ _ _ _ Hsolve) as Hoth.
    apply solve_eq_calls in Hsolve as (Hc3 & _ & _ & Hb3 & _).
    split_and!; [congruence.. |].
    eexists (l2 ++ [_]). split_and!.
    - by rewrite Hc3, Hc2, <- (assoc_L (++)).
    - intros Hno. exfalso.
      specialize (Hno _ ltac:(apply elem_of_app; right; by left)). done.
    - intros m rr' w bs i [Hin|Heq%list_elem_of_singleton]%elem_of_app Hi.
      + rewrite Forall_forall in Hl2. by specialize (Hl2 _ Hin).
      + injection Heq as -> -> -> ->. rewrite Hoth by done. by rewrite Hf2. }
  exfalso.
  apply solve_eq_Ok in Hsolve as (d & v & Hk & Hd & Hv & Hf3 & _).
  apply bind_inv in H as [(ck & s4 & Hck & H)|(e' & Hck & _)]; last first.
  { unfold _ad_create_checkpoint in Hck.
    rewrite (bind_Ok _ _ _ _ _ (function_data_lookup _ s3 _ Hk
               ltac:(by rewrite Hf3, lookup_insert_eq))) in Hck.
    done. }
  apply bind_inv in H as [(out & s5 & _ & H)|(e' & Hout & [= <-])].
  - unfold set_checkpoint, block_output, modify, bind in H.
    repeat case_match; simplify_eq; by destruct He.
  - unfold index, ret, raise in Hout.
    destruct (sb_outputs self !! 0%nat); simplify_eq; by destruct He.
Qed.

(** ** Checkpoints *)

Lemma Function_assign_others dst src s r s' :
  Function_assign dst src s = (r, s') ->
  forall i, i ≠ oid dst -> functions s' !! i = functions s !! i.
Proof.
  unfold Function_assign, function_data, log, modify, bind, raise. intros H i Hi.
  repeat case_match; simplify_eq; simpl in *; by rewrite ?lookup_insert_ne.
Qed.

(** X12: a checkpoint is independent of the Function it was taken from.
    [_ad_create_checkpoint] returns a new object that holds the data the
    Function has at that moment; [_ad_restore_at_checkpoint] gives that
    object back, and it still holds that data after the Function has been
    assigned to or solved for again. *)
Theorem checkpoint_survives_writes f s ck s1 :
  _ad_create_checkpoint f s = (Ok ck, s1) ->
  (oid f < next_id s)%nat ->
  exists d,
    function_data f s = (Ok d, s) /\
    ck ≠ f /\
    function_data (_ad_restore_at_checkpoint f ck) s1 = (Ok d, s1) /\
    (forall src r s2,
       Function_assign f src s1 = (r, s2) ->
       function_data (_ad_restore_at_checkpoint f ck) s2 = (Ok d, s2)) /\
    (forall l rr bs r s2,
       solve_eq l rr f bs s1 = (r, s2) ->
       function_data (_ad_restore_at_checkpoint f ck) s2 = (Ok d, s2)).
Proof.
  intros H Hf.
  apply _ad_create_checkpoint_Ok in H as (d & Hk & Hd & -> & Hf1 & _).
  unfold _ad_restore_at_checkpoint.
  assert (Hck : functions s1 !! next_id s = Some d)
    by (by rewrite Hf1, lookup_insert_eq).
  exists d. split_and!.
  - by apply function_data_lookup.
  - intros <-. simpl in Hf. lia.
  - by apply function_data_lookup.
  - intros src r s2 H. apply function_data_lookup; [done|]. simpl.
    rewrite (Function_assign_others _ _ _ _ _ H) by lia. done.
  - intros l rr bs r s2 H. apply function_data_lookup; [done|]. simpl.
    rewrite (solve_eq_others _ _ _ _ _ _ _ H) by lia. done.
Qed.

(** ** The annotated assignment *)

(** A run of the annotated [Function.assign] between two Functions that
    are attached to different block outputs. *)
Lemma assign_run self other annotate_tape s t src bt bsrc d v :
  default true annotate_tape = true ->
  okind self = KFunction -> okind other = KFunction ->
  attached s !! self = Some t -> attached s !! other = Some src -> t ≠ src ->
  block_outputs s !! t = Some bt -> block_outputs s !! src = Some bsrc ->
  output bt = self -> output bsrc = other ->
  functions s !! oid self = Some d -> functions s !! oid other = Some v ->
  (oid self < next_id s)%nat -> (oid other < next_id s)%nat ->
  (t < next_id s)%nat -> (src < next_id s)%nat ->
  exists s',
    assign self other annotate_tape s = (Ok tt, s') /\
    let n := next_id s in
    tape s' = tape s ++ [n] /\
    blocks s' =
      <[n := BAssign {| ab_dependencies := [t; src];
                        ab_outputs := [S (S (S n))] |}]> (blocks s) /\
    block_outputs s' =
      <[S (S (S n)) := {| output := self; checkpoint := None; adj_value := ANum 0 |}]>
        (<[src := {| output := other; checkpoint := Some (Obj KFunction (S (S n)));
                     adj_value := adj_value bsrc |}]>
           (<[t := {| output := self; checkpoint := Some (Obj KFunction (S n));
                      adj_value := adj_value bt |}]> (block_outputs s))) /\
    attached s' = <[self := S (S (S n))]> (attached s) /\
    functions s' = <[oid self := v]> (<[S (S n) := v]> (<[S n := d]> (functions s))) /\
    bconds s' = bconds s /\
    next_id s' = S (S (S (S n))) /\
    calls s' = calls s ++
      [EFunctionCopy (oid self) (S n); EFunctionCopy (oid other) (S (S n));
       EAddOutput n (S (S (S n))); EAddBlock n; EAssign self other].
Proof.
  destruct self as [ks i], other as [ko j], s as [n fs bc bos att bls tp cl].
  simpl. intros Hann -> -> Hat Has Hne Hbt Hbs Hot Hos Hd Hv Hi Hj Ht Hs.
  eexists. split.
  - unfold assign, AssignBlock_init, new_block, save_output, create_checkpoint,
      _ad_create_checkpoint, set_checkpoint, create_block_output, add_output,
      add_block, Function_assign, add_dependency_to, get_block_output,
      block_output, function_data, log, fresh, modify, bind, ret.
    rewrite Hann.
    repeat (simpl;
      first [ rewrite Hat | rewrite Has | rewrite Hbt | rewrite Hbs
            | rewrite Hot | rewrite Hos | rewrite Hd | rewrite Hv
            | rewrite lookup_insert_eq
            | rewrite lookup_insert_ne by (first [lia | congruence])
            | rewrite bool_decide_eq_false_2
                by (rewrite ?elem_of_cons, ?elem_of_nil; intuition congruence) ]).
    reflexivity.
  - simpl. rewrite !insert_insert_eq, <- !(assoc_L (++)). done.
Qed.

(** X13: what an annotated [Function.assign] records.  Between two
    Functions attached to different block outputs the call returns; one
    AssignBlock is appended to the tape, with the prior block output of
    the target and the block output of the source as its dependencies, in
    that order, and one new output, which is attached to the target, has
    no checkpoint and a zero adjoint.  Both dependencies are checkpointed
    before the backend assigns: the checkpoint of the prior target holds
    the data the target had before the call, the checkpoint of the source
    the data the target has after it. *)
Theorem assign_records_an_AssignBlock self other annotate_tape s t src bt bsrc d v :
  default true annotate_tape = true ->
  okind self = KFunction -> okind other = KFunction ->
  attached s !! self = Some t -> attached s !! other = Some src -> t ≠ src ->
  block_outputs s !! t = Some bt -> block_outputs s !! src = Some bsrc ->
  output bt = self -> output bsrc = other ->
  functions s !! oid self = Some d -> functions s !! oid other = Some v ->
  (oid self < next_id s)%nat -> (oid other < next_id s)%nat ->
  (t < next_id s)%nat -> (src < next_id s)%nat ->
  exists s' b out ck_t ck_s,
    assign self other annotate_tape s = (Ok tt, s') /\
    tape s' = tape s ++ [b] /\
    blocks s' !! b =
      Some (BAssign {| ab_dependencies := [t; src]; ab_outputs := [out] |}) /\
    block_outputs s' !! t =
      Some {| output := self; checkpoint := Some ck_t; adj_value := adj_value bt |} /\
    block_outputs s' !! src =
      Some {| output := other; checkpoint := Some ck_s;
              adj_value := adj_value bsrc |} /\
    block_outputs s' !! out =
      Some {| output := self; checkpoint := None; adj_value := ANum 0 |} /\
    attached s' !! self = Some out /\
    function_data ck_t s' = (Ok d, s') /\
    function_data ck_s s' = (Ok v, s') /\
    function_data self s' = (Ok v, s').
Proof.
  intros Hann Hks Hko Hat Has Hne Hbt Hbs Hot Hos Hd Hv Hi Hj Ht Hs.
  destruct (assign_run self other annotate_tape s t src bt bsrc d v)
    as (s' & Hrun & Htp & Hbl & Hbo & Hatt & Hf & _); try done.
  exists s', (next_id s), (S (S (S (next_id s)))),
    (Obj KFunction (S (next_id s))), (Obj KFunction (S (S (next_id s)))).
  split_and!; try done.
  - by rewrite Hbl, lookup_insert_eq.
  - by rewrite Hbo, lookup_insert_ne, lookup_insert_ne, lookup_insert_eq by lia.
  - by rewrite Hbo, lookup_insert_ne, lookup_insert_eq by lia.
  - by rewrite Hbo, lookup_insert_eq.
  - by rewrite Hatt, lookup_insert_eq.
  - apply function_data_lookup; [done|]. simpl.
    by rewrite Hf, lookup_insert_ne, lookup_insert_ne, lookup_insert_eq by lia.
  - apply function_data_lookup; [done|]. simpl.
    by rewrite Hf, lookup_insert_ne, lookup_insert_eq by lia.
  - apply function_data_lookup; [done|]. by rewrite Hf, lookup_insert_eq.
Qed.

(** X14: replaying an assignment right after it was recorded reproduces
    it.  After an annotated [Function.assign] between two Functions, the
    [recompute] of the block it has put on the tape returns, writes the
    checkpointed data of the source into the target itself (the new
    output has no checkpoint), and leaves every Function and every block
    output as the assignment left them. *)
Theorem assign_then_recompute self other annotate_tape s t src bt bsrc d v :
  default true annotate_tape = true ->
  okind self = KFunction -> okind other = KFunction ->
  attached s !! self = Some t -> attached s !! other = Some src -> t ≠ src ->
  block_outputs s !! t = Some bt -> block_outputs s !! src = Some bsrc ->
  output bt = self -> output bsrc = other ->
  functions s !! oid self = Some d -> functions s !! oid other = Some v ->
  (oid self < next_id s)%nat -> (oid other < next_id s)%nat ->
  (t < next_id s)%nat -> (src < next_id s)%nat ->
  exists s' b blk s'' ck,
    assign self other annotate_tape s = (Ok tt, s') /\
    last (tape s') = Some b /\
    blocks s' !! b = Some blk /\
    recompute blk s' = (Ok tt, s'') /\
    checkpoint <$> block_outputs s' !! src = Some (Some ck) /\
    calls s'' = calls s' ++ [EAssign self ck] /\
    functions s'' = functions s' /\
    block_outputs s'' = block_outputs s'.
Proof.
  intros Hann Hks Hko Hat Has Hne Hbt Hbs Hot Hos Hd Hv Hi Hj Ht Hs.
  destruct (assign_run self other annotate_tape s t src bt bsrc d v)
    as (s' & Hrun & Htp & Hbl & Hbo & Hatt & Hf & _); try done.
  set (n := next_id s) in *.
  set (blk := {| ab_dependencies := [t; src]; ab_outputs := [S (S (S n))] |}).
  set (b_out := {| output := self; checkpoint := None; adj_value := ANum 0 |}).
  set (b_src := {| output := other; checkpoint := Some (Obj KFunction (S (S n)));
                   adj_value := adj_value bsrc |}).
  assert (Hfs : functions s' !! oid self = Some v)
    by (by rewrite Hf, lookup_insert_eq).
  destruct (Function_assign_run self (saved_output b_src) s' v v)
    as (s'' & Hrec & Hf'' & Hb'' & Hc''); try done.
  { simpl. by rewrite Hf, lookup_insert_ne, lookup_insert_eq by lia. }
  exists s', n, (BAssign blk), s'', (Obj KFunction (S (S n))).
  split_and!; try done.
  - by rewrite Htp, last_snoc.
  - by rewrite Hbl, lookup_insert_eq.
  - simpl. unfold AssignBlock_recompute, get_saved_output. simpl.
    rewrite (bind_Ok _ _ _ src s') by done.
    rewrite (bind_Ok _ _ _ (S (S (S n))) s') by done.
    rewrite (bind_Ok _ _ _ (saved_output b_out) s').
    2: { rewrite (bind_Ok _ _ _ b_out s'); [done|]. apply block_output_lookup.
         by rewrite Hbo, lookup_insert_eq. }
    rewrite (bind_Ok _ _ _ (saved_output b_src) s').
    2: { rewrite (bind_Ok _ _ _ b_src s'); [done|]. apply block_output_lookup.
         by rewrite Hbo, lookup_insert_ne, lookup_insert_eq by lia. }
    done.
  - by rewrite Hbo, lookup_insert_ne, lookup_insert_eq by lia.
  - rewrite Hf''. by apply insert_id.
Qed.

(** ** A solve followed by an assignment *)

(** An annotated [solve] that returns. *)
Lemma solve_annotated_Ok args annotate_tape s s1 :
  default true annotate_tape = true ->
  solve args annotate_tape s = (Ok tt, s1) ->
  exists blk u s0,
    SolveBlock_init args s = (Ok blk, s) /\
    args !! 1%nat = Some (AObj u) /\
    backend_solve args s0 = (Ok tt, s1) /\
    functions s0 = functions s /\
    let n := next_id s in
    tape s1 = tape s ++ [n] /\
    (exists blk1, blocks s1 = <[n := BSolve blk1]> (blocks s) /\
                  sb_outputs blk1 = [S n] /\
                  sb_dependencies blk1 = sb_dependencies blk /\
                  func blk1 = func blk) /\
    block_outputs s1 =
      <[S n := {| output := u; checkpoint := None; adj_value := ANum 0 |}]>
        (block_outputs s) /\
    attached s1 = <[u := S n]> (attached s) /\
    next_id s1 = S (S n).
Proof.
  intros Hann H. unfold solve in H. rewrite Hann in H.
  apply bind_Ok_inv in H as ([] & s0 & Hrec & Hsolve).
  apply bind_Ok_inv in Hrec as (blk & s2 & Hinit & Hrec).
  pose proof (SolveBlock_init_read_only _ _ _ _ Hinit) as <-.
  pose proof (SolveBlock_init_Ok _ _ _ _ Hinit)
    as (l & r & u & _ & H1 & _ & _ & _ & Hout & _).
  unfold index in Hrec. rewrite H1 in Hrec.
  unfold new_block, add_block, create_block_output, add_output, fresh, modify, ret,
    as_object, bind in Hrec.
  simpl in Hrec. rewrite lookup_insert_eq in Hrec.
  injection Hrec as <-.
  pose proof (backend_solve_frame _ _ _ _ Hsolve) as (Hb & Ha & Hn & _).
  pose proof (backend_solve_calls _ _ _ _ Hsolve) as (e & _ & _ & Hbl & Ht).
  eexists blk, u, _.
  split; [done|]. split; [done|]. split; [exact Hsolve|]. split; [done|].
  cbv zeta. split_and!.
  - by rewrite Ht.
  - eexists. rewrite Hbl. simpl. rewrite insert_insert_eq. split; [done|].
    simpl. by rewrite Hout.
  - by rewrite Hb.
  - by rewrite Ha.
  - by rewrite Hn.
Qed.

(** X15: a solve followed by an assignment of its solution, the step of
    a time loop ([solve(F == 0, u, bc)] then [u_.assign(u)]).  When the
    annotated solve returns, the annotated assignment of the solved
    Function [u] to another Function [u_] returns too; the tape has
    gained the SolveBlock and then the AssignBlock; the source dependency
    of the AssignBlock is the very output of the SolveBlock, and the
    checkpoint that output gets while the assignment is recorded holds the
    solution, as [u_] does afterwards. *)
Theorem solve_then_assign args annotate_tape s s1 u u_ t bt d :
  default true annotate_tape = true ->
  solve args annotate_tape s = (Ok tt, s1) ->
  (length args <= 3)%nat ->
  args !! 1%nat = Some (AObj u) ->
  okind u_ = KFunction -> u_ ≠ u ->
  attached s !! u_ = Some t -> block_outputs s !! t = Some bt -> output bt = u_ ->
  functions s !! oid u_ = Some d ->
  (oid u_ < next_id s)%nat -> (oid u < next_id s)%nat -> (t < next_id s)%nat ->
  exists s2 b1 b2 blk1 blk2 o ck v,
    assign u_ u annotate_tape s1 = (Ok tt, s2) /\
    tape s2 = tape s ++ [b1; b2] /\
    blocks s2 !! b1 = Some (BSolve blk1) /\ sb_outputs blk1 = [o] /\
    blocks s2 !! b2 = Some (BAssign blk2) /\ ab_dependencies blk2 = [t; o] /\
    block_outputs s2 !! o =
      Some {| output := u; checkpoint := Some ck; adj_value := ANum 0 |} /\
    function_data u s1 = (Ok v, s1) /\
    function_data ck s2 = (Ok v, s2) /\
    function_data u_ s2 = (Ok v, s2).
Proof.
  intros Hann Hsolve Hlen H1 Hk Hne Hat Hbt Hot Hd Hi Hj Ht.
  apply solve_annotated_Ok in Hsolve
    as (blk & u' & s0 & Hinit & H1' & Hback & Hf0 & Htp &
        (blk1 & Hbl & Hout & _) & Hbo & Hatt & Hn); [|done].
  assert (u' = u) as -> by congruence.
  pose proof (SolveBlock_init_Ok _ _ _ _ Hinit) as (l & r & u' & H0 & _).
  assert (exists bs, backend_solve args s0 = solve_eq l r u bs s0) as [bs Heq].
  { destruct args as [|a0 [|a1 [|a2 [|a3 rest]]]]; simpl in *; simplify_eq;
      try lia.
    - by eexists.
    - destruct a2; [|by eexists..]. by vm_compute in Hinit. }
  rewrite Heq in Hback.
  apply solve_eq_Ok in Hback as (d0 & w & Hku & Hd0 & _ & Hf1 & _).
  set (n := next_id s) in *.
  set (v := {| fn_space := fn_space d0; fn_vector := w |}) in *.
  assert (Hoid : oid u_ ≠ oid u).
  { intros Heq'. apply Hne. destruct u_, u. simpl in *. congruence. }
  destruct (assign_run u_ u annotate_tape s1 t (S n) bt
              {| output := u; checkpoint := None; adj_value := ANum 0 |} d v)
    as (s2 & Hrun & Htp2 & Hbl2 & Hbo2 & _ & Hf2 & _); try done.
  - by rewrite Hatt, lookup_insert_ne.
  - by rewrite Hatt, lookup_insert_eq.
  - lia.
  - by rewrite Hbo, lookup_insert_ne by lia.
  - by rewrite Hbo, lookup_insert_eq.
  - by rewrite Hf1, lookup_insert_ne, Hf0.
  - by rewrite Hf1, lookup_insert_eq.
  - lia.
  - lia.
  - lia.
  - lia.
  - rewrite Hn in *.
    eexists s2, n, (S (S n)), blk1, _, (S n), _, v. split_and!.
    + done.
    + by rewrite Htp2, Htp, <- (assoc_L (++)).
    + by rewrite Hbl2, lookup_insert_ne, Hbl, lookup_insert_eq by lia.
    + done.
    + by rewrite Hbl2, lookup_insert_eq.
    + done.
    + by rewrite Hbo2, lookup_insert_ne, lookup_insert_eq by lia.
    + apply function_data_lookup; [done|]. by rewrite Hf1, lookup_insert_eq.
    + apply function_data_lookup; [done|]. simpl.
      by rewrite Hf2, lookup_insert_ne, lookup_insert_eq by lia.
    + apply function_data_lookup; [done|]. by rewrite Hf2, lookup_insert_eq.
Qed.

(** ** The recorded graph *)

Lemma save_output_frame bo s r s' :
  save_output bo s = (r, s') ->
  blocks s' = blocks s /\ tape s' = tape s /\ attached s' = attached s /\
  (next_id s <= next_id s')%nat.
Proof.
  unfold save_output, create_checkpoint, _ad_create_checkpoint, set_checkpoint,
    bc_data, function_data, block_output, log, fresh, modify, bind, ret, raise.
  intros H. repeat case_match; simplify_eq; simpl; split_and!; try done; lia.
Qed.

(** The block a returning [AssignBlock(func, other)] has built. *)
Lemma AssignBlock_init_Ok self other s b s1 :
  AssignBlock_init self other s = (Ok b, s1) ->
  b = next_id s /\ tape s1 = tape s /\
  exists blk o,
    blocks s1 !! b = Some (BAssign blk) /\ ab_outputs blk = [o] /\
    (next_id s < o)%nat /\
    forall k, k ∈ ab_dependencies blk -> exists c, attached s !! c = Some k.
Proof.
  unfold AssignBlock_init. intros H.
  apply bind_Ok_inv in H as (b' & s2 & Hb & H).
  injection Hb as <- <-.
  apply bind_Ok_inv in H as (t & s3 & Ht & H).
  apply get_block_output_Ok in Ht as (-> & Ht). simpl in Ht.
  apply bind_Ok_inv in H as ([] & s3 & Hd1 & H).
  unfold add_dependency_to in Hd1. simpl in Hd1.
  rewrite lookup_insert_eq in Hd1. injection Hd1 as <-.
  apply bind_Ok_inv in H as (src & s3 & Hsrc & H).
  apply get_block_output_Ok in Hsrc as (-> & Hsrc). simpl in Hsrc.
  apply bind_Ok_inv in H as ([] & s3 & Hd2 & H).
  unfold add_dependency_to in Hd2. simpl in Hd2.
  rewrite lookup_insert_eq in Hd2. injection Hd2 as <-.
  rewrite !insert_insert_eq in H.
  match type of H with
  | context [BAssign {| ab_dependencies := ?ds; ab_outputs := [] |}] =>
      set (deps := ds) in *
  end.
  assert (Hdeps : forall k, k ∈ deps -> exists c, attached s !! c = Some k).
  { intros k Hk. subst deps. simpl in Hk. case_bool_decide.
    - apply list_elem_of_singleton in Hk as ->. by eexists.
    - apply elem_of_cons in Hk as [->|Hk]; [by eexists|].
      apply list_elem_of_singleton in Hk as ->. by eexists. }
  clearbody deps.
  apply bind_Ok_inv in H as (t' & s3 & Ht' & H).
  apply get_block_output_Ok in Ht' as (-> & _).
  apply bind_Ok_inv in H as ([] & s3 & Hs1 & H).
  apply save_output_frame in Hs1 as (Hbl3 & Htp3 & Hat3 & Hn3).
  apply bind_Ok_inv in H as (src' & s4 & Hsrc' & H).
  apply get_block_output_Ok in Hsrc' as (-> & _).
  apply bind_Ok_inv in H as ([] & s4 & Hs2 & H).
  apply save_output_frame in Hs2 as (Hbl4 & Htp4 & Hat4 & Hn4).
  apply bind_Ok_inv in H as (o & s5 & Ho & H).
  unfold create_block_output, fresh, modify, bind, ret in Ho.
  injection Ho as <- <-.
  apply bind_Ok_inv in H as ([] & s6 & Hadd & H). injection H as <- <-.
  unfold add_output in Hadd. simpl in Hadd. rewrite Hbl4, Hbl3 in Hadd.
  simpl in Hadd. rewrite lookup_insert_eq in Hadd. injection Hadd as <-.
  simpl in *. split; [done|]. split; [by rewrite Htp4, Htp3|].
  eexists _, _. rewrite lookup_insert_eq. split_and!; [done | done | lia | done].
Qed.

Lemma assign_annotated_Ok self other annotate_tape s s1 :
  default true annotate_tape = true ->
  assign self other annotate_tape s = (Ok tt, s1) ->
  tape s1 = tape s ++ [next_id s] /\
  exists blk o,
    blocks s1 !! next_id s = Some (BAssign blk) /\ ab_outputs blk = [o] /\
    (next_id s < o)%nat /\
    forall k, k ∈ ab_dependencies blk -> exists c, attached s !! c = Some k.
Proof.
  intros Hann H. unfold assign in H. rewrite Hann in H.
  apply bind_Ok_inv in H as ([] & s2 & Hrec & H).
  apply bind_Ok_inv in Hrec as (b & s3 & Hinit & Hadd).
  apply AssignBlock_init_Ok in Hinit as (-> & Htp & blk & o & Hbl & Ho & Hlt & Hdeps).
  injection Hadd as <-.
  apply Function_assign_frame in H as (Htp1 & Hbl1 & _).
  simpl in *. split; [by rewrite Htp1, Htp|].
  exists blk, o. by rewrite Hbl1.
Qed.

(** X16: a recorded block depends only on earlier block outputs.  In a
    state whose attachments all refer to block outputs that exist, the
    block an annotated [solve] or [Function.assign] puts on the tape has
    one output, created by the call, and every one of its dependencies is
    a block output that was attached before the call: a block never
    depends on its own output, and the tape stays acyclic. *)
Theorem recorded_blocks_depend_on_earlier_outputs s annotate_tape s1 :
  (forall c bo, attached s !! c = Some bo -> (bo < next_id s)%nat) ->
  default true annotate_tape = true ->
  (forall args,
     solve args annotate_tape s = (Ok tt, s1) ->
     exists b blk o,
       last (tape s1) = Some b /\ blocks s1 !! b = Some (BSolve blk) /\
       sb_outputs blk = [o] /\ attached s1 !! func blk = Some o /\
       forall k, k ∈ sb_dependencies blk ->
         (k < o)%nat /\ exists c, attached s !! c = Some k) /\
  (forall self other,
     assign self other annotate_tape s = (Ok tt, s1) ->
     exists b blk o,
       last (tape s1) = Some b /\ blocks s1 !! b = Some (BAssign blk) /\
       ab_outputs blk = [o] /\
       forall k, k ∈ ab_dependencies blk ->
         (k < o)%nat /\ exists c, attached s !! c = Some k).
Proof.
  intros Hwf Hann. split.
  - intros args H.
    apply solve_annotated_Ok in H
      as (blk & u & s0 & Hinit & H1 & _ & _ & Htp & (blk1 & Hbl & Hout & Hdeps & Hfunc)
          & _ & Hatt & _); [|done].
    pose proof (SolveBlock_init_Ok _ _ _ _ Hinit) as (l & r & u' & _ & H1' & _ & _ & Hf & _).
    assert (u' = u) as -> by congruence.
    apply SolveBlock_init_dependencies in Hinit as (_ & _ & f & _ & Hin).
    exists (next_id s), blk1, (S (next_id s)). split_and!.
    + by rewrite Htp, last_snoc.
    + by rewrite Hbl, lookup_insert_eq.
    + done.
    + by rewrite Hfunc, Hf, Hatt, lookup_insert_eq.
    + intros k Hk. rewrite Hdeps in Hk. apply Hin in Hk as (c & Hc & _).
      split; [|by exists c]. apply Hwf in Hc. lia.
  - intros self other H.
    apply assign_annotated_Ok in H as (Htp & blk & o & Hbl & Ho & Hlt & Hdeps); [|done].
    exists (next_id s), blk, o. split_and!; try done.
    + by rewrite Htp, last_snoc.
    + intros k Hk. destruct (Hdeps k Hk) as (c & Hc).
      split; [|by exists c]. apply Hwf in Hc. lia.
Qed.

End Properties.

(** * Runs on the symbolic backend *)

Import Examples.

#[local] Existing Instance symbolic.


(** C1, counterexample: the loop over the boundary conditions calls
    [bc.apply(dFdu)] only.  On the block of the Burgers step, with the
    Dirichlet condition [bc] and a vector [dJdu] accumulated on the
    output, the calls down to the linear solve are: the replacement, the
    derivative, the assembly, the copy of [bc], its homogenization, one
    application, to the assembled Jacobian, the transposition, and the
    solve, whose right-hand side is [dJdu] as it was accumulated.  No
    boundary condition is applied to [dJdu] anywhere in the call. *)
Theorem evaluate_adj_leaves_dJdu_unconstrained :
  let run := SolveBlock_evaluate_adj blk (recorded (AVec (SData 9))) in
  run.1 = Ok tt /\
  take 8 (calls run.2) =
    [EReplace F ({[u := u; u_old := u_old]} : gmap obj obj);
     EDerivative F_rep u (TrialFunction 0);
     EAssemble (FDerivative F_rep u (TrialFunction 0));
     EDirichletBCCopy 4 11;
     EHomogenize 11;
     EApply 11 J;
     ETranspose (SApply (SHomogenized (SDirichlet 7 1)) J);
     ESolveLinear (STranspose (SApply (SHomogenized (SDirichlet 7 1)) J))
       (SZeroVector 0) (AVec (SData 9))] /\
  forallb (fun e => match e with EApply _ (SData 9) => false | _ => true end)
          (calls run.2) = true.
Proof. vm_compute. done. Qed.

(** C1 on the block of the Burgers step, with a vector [dJdu]. *)
Lemma SolveBlock_evaluate_adj_constrains_jacobian_only_witness :
  let s := recorded (AVec (SData 9)) in
  let run := SolveBlock_evaluate_adj blk s in
  exists ds fns f x l1 l2,
    Forall2 (fun b d => okind b = KDirichletBC /\ bconds s !! oid b = Some d)
            (bcs blk) ds /\
    EAssemble f ∈ l1 /\
    calls run.2 = calls s ++ l1 ++
      [ETranspose (constrained ds (assemble fns f));
       ESolveLinear (transpose (constrained ds (assemble fns f))) x
         (adj_value (out_u (AVec (SData 9))))]
      ++ l2 /\
    Forall (solves_for (adj_value (out_u (AVec (SData 9))))) (l1 ++ l2).
Proof.
  intros s run.
  apply (SolveBlock_evaluate_adj_constrains_jacobian_only (B:=symbolic)
           blk s run.2 9%nat (out_u (AVec (SData 9)))).
  - vm_compute. reflexivity.
  - reflexivity.
  - vm_compute. reflexivity.
  - reflexivity.
  - intros b Hb. apply list_elem_of_singleton in Hb as ->. vm_compute. lia.
Defined.

(** C2, counterexample: the output's accumulated adjoint is the zero
    sentinel and [evaluate_adj] of the SolveBlock nevertheless calls the
    backend assembly. *)
Lemma evaluate_adj_zero_adjoint_still_assembles :
  let run := evaluate_adj (BSolve blk) (recorded (ANum 0)) in
  run.1 = Ok tt /\ existsb is_assemble (calls run.2) = true.
Proof. vm_compute. done. Qed.

(** C2 on the block of the Burgers step, its output at the zero sentinel. *)
Lemma evaluate_adj_zero_adjoint_changes_nothing_witness :
  let run := evaluate_adj (BSolve blk) (recorded (ANum 0)) in
  block_outputs run.2 = block_outputs (recorded (ANum 0)) /\
  exists l,
    calls run.2 = calls (recorded (ANum 0)) ++ l /\
    Forall (fun e => is_solve e = false) l /\
    (forall self, BSolve blk = BAssign self -> l = []) /\
    (forall self, BSolve blk = BSolve self -> run.1 = Ok tt ->
       existsb is_assemble l = true).
Proof.
  apply (evaluate_adj_zero_adjoint_changes_nothing (B:=symbolic)
           (BSolve blk) (recorded (ANum 0)) 9%nat
           (out_u (ANum 0))).
  - reflexivity.
  - vm_compute. reflexivity.
  - reflexivity.
  - apply surjective_pairing.
Defined.

(** C3, counterexample: [dJdu] is exactly zero, and the call has
    differentiated the residual and assembled the Jacobian before it
    returns. *)
Lemma SolveBlock_zero_dJdu_log :
  is_zero (ANum 0 : adj sym) = true /\
  SolveBlock_evaluate_adj blk (recorded (ANum 0)) =
    (Ok tt,
     set_calls
       [EReplace F ({[u := u; u_old := u_old]} : gmap obj obj);
        EDerivative F_rep u (TrialFunction 0);
        EAssemble (FDerivative F_rep u (TrialFunction 0))]
       (set_functions
          {[ 1%nat := fn 1; 2%nat := fn 2; 3%nat := fn 3;
             10%nat := {| fn_space := 0%nat; fn_vector := SZeroVector 0 |} ]}
          (set_next_id 11 (recorded (ANum 0))))).
Proof. split; [done|]. vm_compute. done. Qed.

(** C3 on the block of the Burgers step: with [dJdu] the number zero,
    and with [dJdu] the zero vector. *)
Lemma SolveBlock_zero_dJdu_returns_after_assembly_witness :
  (exists tmp_u F m w d,
     calls (SolveBlock_evaluate_adj blk (recorded (ANum 0))).2 =
       calls (recorded (ANum 0)) ++ action_calls blk tmp_u ++
       [EReplace F m; EDerivative (replace F m) w d;
        EAssemble (derivative (replace F m) w d)]) /\
  (exists l A x v,
     calls (SolveBlock_evaluate_adj blk (recorded (AVec (SZeroVector 0)))).2 =
       calls (recorded (AVec (SZeroVector 0))) ++ l /\
     ESolveLinear A x (AVec (SZeroVector 0)) ∈ l /\
     solve_linear A x (AVec (SZeroVector 0)) = Some v).
Proof.
  split.
  - destruct (SolveBlock_zero_dJdu_returns_after_assembly (B:=symbolic)
                blk (recorded (ANum 0)) 9%nat (out_u (ANum 0))
                (SolveBlock_evaluate_adj (B:=symbolic) blk (recorded (ANum 0))).2)
      as (Hzero & _ & _).
    + reflexivity.
    + vm_compute. reflexivity.
    + vm_compute. reflexivity.
    + apply Hzero. reflexivity.
  - destruct (SolveBlock_zero_dJdu_returns_after_assembly (B:=symbolic)
                blk (recorded (AVec (SZeroVector 0))) 9%nat
                (out_u (AVec (SZeroVector 0)))
                (SolveBlock_evaluate_adj (B:=symbolic) blk
                   (recorded (AVec (SZeroVector 0)))).2)
      as (_ & _ & Hvec).
    + reflexivity.
    + vm_compute. reflexivity.
    + vm_compute. reflexivity.
    + apply (Hvec 0%nat). reflexivity.
Defined.





(** C6, counterexample: the output of the AssignBlock wraps the live
    [u_old] (Function 3) and has the checkpoint 11.  [recompute] copies the
    source's saved data into the checkpoint 11; the live value of the
    target keeps its data. *)
Lemma AssignBlock_recompute_skips_live_target :
  let run := AssignBlock_recompute assign_blk (assigned (ANum 0)) in
  run.1 = Ok tt /\
  output <$> block_outputs (assigned (ANum 0)) !! 12%nat = Some u_old /\
  functions run.2 !! oid u_old = Some (fn 3) /\
  functions run.2 !! 11%nat = Some (fn 10) /\
  calls run.2 = [EAssign (Obj KFunction 11) (Obj KFunction 10)].
Proof. vm_compute. done. Qed.

(** C6 on [u_old.assign(u)]. *)
Lemma AssignBlock_recompute_writes_saved_output_witness :
  exists s',
    AssignBlock_recompute assign_blk (assigned (ANum 0)) = (Ok tt, s') /\
    functions s' = <[11%nat := fn 10]> (functions (assigned (ANum 0))) /\
    (Some (Obj KFunction 11) = None -> functions s' !! oid u_old = Some (fn 10)) /\
    (forall ck, Some (Obj KFunction 11) = Some ck -> oid ck ≠ oid u_old ->
       functions s' !! oid u_old = functions (assigned (ANum 0)) !! oid u_old).
Proof.
  apply (AssignBlock_recompute_writes_saved_output (B:=symbolic)
           assign_blk (assigned (ANum 0)) 9%nat 12%nat
           (out_u_old (ANum 0)) source_u (fn 11) (fn 10)).
  - reflexivity.
  - reflexivity.
  - vm_compute. reflexivity.
  - vm_compute. reflexivity.
  - reflexivity.
  - reflexivity.
  - vm_compute. reflexivity.
  - vm_compute. reflexivity.
Defined.

(** C7, counterexample: the right-hand side of [F == 0] is not a form, and
    the construction raises nothing: it returns the nonlinear block. *)
Lemma SolveBlock_init_accepts_number_rhs :
  is_form (SNum 0 : side sform) = false /\
  SolveBlock_init args recording = (Ok constructed, recording) /\
  linear constructed = false.
Proof. vm_compute. done. Qed.

(** C7 on the arguments of [solve(F == 0, u, bc)]. *)
Lemma SolveBlock_linear_flag_witness :
  (exists l r, args !! 0%nat = Some (AEquation l r) /\
     (false = true <-> is_form l = true /\ is_form r = true)) /\
  (exists blk,
     SolveBlock_init [AEquation (SForm F) (SNum 0); AObj u; AList [bc]] recording
       = (Ok blk, recording) /\ linear blk = false) /\
  (SolveBlock_init [AEquation (SNum 1) (SForm F); AObj u] recording).1
    = Raise AttributeError.
Proof.
  destruct (SolveBlock_linear_flag (B:=symbolic) recording) as (Hflag & Hrhs & Hlhs).
  split_and!.
  - destruct (Hflag args constructed recording)
      as (l & r & H0 & _ & _ & Hiff).
    { vm_compute. reflexivity. }
    by exists l, r.
  - apply Hrhs. intros c Hc.
    repeat (apply elem_of_cons in Hc as [->|Hc]; [vm_compute; by eexists|]).
    by apply elem_of_nil in Hc.
  - destruct (Hlhs 1 (SForm F) [AObj u] _ _ (surjective_pairing _)) as [H|H];
      [|exact H].
    vm_compute in H. discriminate H.
Defined.

(** C8 on a solve of a matrix and two vectors. *)
Lemma SolveBlock_rejects_linear_algebra_witness :
  SolveBlock_init la_args recording = (Raise NotImplementedError, recording) /\
  solve la_args None recording = (Raise NotImplementedError, recording).
Proof.
  apply (SolveBlock_rejects_linear_algebra (B:=symbolic) la_args (AObj (Obj KOther 20)) None
           recording); reflexivity.
Defined.

(** C9, counterexample: in the log of the annotated [solve], the output is
    attached before the forward solve is called, and not after it. *)
Lemma solve_attaches_output_first :
  let run := solve args None recording in
  run.1 = Ok tt /\
  calls run.2 =
    [EAddBlock 8; EAddOutput 8 9; ESolveVariational (SForm F) (SNum 0) u [bc]] /\
  precedes is_add_output is_forward_solve (calls run.2) = true /\
  precedes is_forward_solve is_add_output (calls run.2) = false.
Proof. vm_compute. done. Qed.

(** C9 on [solve(F == 0, u, bc)]. *)
Lemma solve_attaches_output_before_forward_solve_witness :
  exists e blk,
    is_forward_solve e = true /\
    calls (solve args None recording).2 =
      calls recording ++ [EAddBlock 8; EAddOutput 8 9; e] /\
    tape (solve args None recording).2 = tape recording ++ [8%nat] /\
    blocks (solve args None recording).2 !! 8%nat = Some (BSolve blk) /\
    sb_outputs blk = [9%nat].
Proof.
  apply (solve_attaches_output_before_forward_solve (B:=symbolic) args None recording).
  - reflexivity.
  - vm_compute. reflexivity.
Defined.

(** C10 on the block of the Burgers step, with a vector [dJdu]. *)
Lemma SolveBlock_evaluate_adj_keeps_boundary_conditions_witness :
  let run := SolveBlock_evaluate_adj blk (recorded (AVec (SData 9))) in
  (forall i, (i < 10)%nat ->
     bconds run.2 !! i = bconds (recorded (AVec (SData 9))) !! i) /\
  (forall b d, b ∈ [bc] -> (oid b < 10)%nat ->
     bconds (recorded (AVec (SData 9))) !! oid b = Some d ->
     bconds run.2 !! oid b = Some d) /\
  exists l, calls run.2 = calls (recorded (AVec (SData 9))) ++ l /\
    forall n, EHomogenize n ∈ l -> (10 <= n)%nat.
Proof.
  intros run.
  apply (SolveBlock_evaluate_adj_keeps_boundary_conditions (B:=symbolic)
           blk (recorded (AVec (SData 9))) run.1 run.2).
  apply surjective_pairing.
Defined.

(** X1 on [solve(F == 0, u, bc, annotate_tape=False)] and on
    [u_old.assign(u, annotate_tape=False)]. *)
Lemma unannotated_calls_record_nothing_witness :
  (let run := solve args (Some false) recording in
   tape run.2 = tape recording /\ blocks run.2 = blocks recording /\
   block_outputs run.2 = block_outputs recording /\
   attached run.2 = attached recording /\
   exists e, is_forward_solve e = true /\ calls run.2 = calls recording ++ [e]) /\
  (let run := assign u_old u (Some false) (recorded (ANum 0)) in
   tape run.2 = tape (recorded (ANum 0)) /\
   blocks run.2 = blocks (recorded (ANum 0)) /\
   block_outputs run.2 = block_outputs (recorded (ANum 0)) /\
   attached run.2 = attached (recorded (ANum 0)) /\
   calls run.2 = calls (recorded (ANum 0)) ++ [EAssign u_old u]).
Proof.
  split; intros run.
  - apply (proj1 (unannotated_calls_record_nothing (B:=symbolic)
                    recording run.1 run.2) args).
    apply surjective_pairing.
  - apply (proj2 (unannotated_calls_record_nothing (B:=symbolic)
                    (recorded (ANum 0)) run.1 run.2) u_old u).
    apply surjective_pairing.
Defined.

(** X2 on a call with a boundary condition that has no block output. *)
Lemma SolveBlock_init_failure_witness :
  let args := [AEquation (SForm F) (SNum 0); AObj u; AObj (Obj KDirichletBC 30)] in
  recording = recording /\
  ((AttributeError = IndexError /\ (length args < 2)%nat) \/
   (AttributeError = NotImplementedError /\
    exists a0, args !! 0%nat = Some a0 /\ is_equation a0 = false) \/
   AttributeError = AttributeError) /\
  forall annotate_tape, default true annotate_tape = true ->
    solve args annotate_tape recording = (Raise AttributeError, recording).
Proof.
  intros args.
  apply (SolveBlock_init_failure (B:=symbolic)
           args recording AttributeError recording).
  - intros a1 [= <-]. by eexists.
  - vm_compute. reflexivity.
Defined.

(** X3 on the arguments of [solve(F == 0, u, bc)]. *)
Lemma SolveBlock_init_contents_witness :
  (forall o, args !! 1%nat = Some (AObj o) -> func constructed = o) /\
  sb_outputs constructed = [] /\
  bcs constructed = [bc] /\
  NoDup (sb_dependencies constructed) /\
  exists f, lhs constructed = SForm f /\
    forall bo, bo ∈ sb_dependencies constructed <->
      exists c, attached recording !! c = Some bo /\
        (c ∈ bcs constructed \/ c ∈ coefficients f \/
         (linear constructed = true /\
          exists g, rhs constructed = SForm g /\ c ∈ coefficients g)).
Proof.
  apply (SolveBlock_init_contents (B:=symbolic) args recording constructed recording).
  vm_compute. reflexivity.
Defined.

(** X4 on the constructed block, which has no output yet. *)
Lemma block_without_output_witness :
  evaluate_adj (BSolve constructed) recording = (Raise IndexError, recording) /\
  (forall self, BSolve constructed = BAssign self ->
     recompute (BSolve constructed) recording = (Raise IndexError, recording)) /\
  (forall self r s', BSolve constructed = BSolve self ->
     recompute (BSolve constructed) recording = (r, s') ->
     exists e, r = Raise e /\
       (e = IndexError ->
        exists l m rr w,
          calls s' = calls recording ++ l ++
            [ESolveVariational m rr w (bcs self);
             EFunctionCopy (oid w) (next_id recording)] /\
          functions s' !! next_id recording = functions s' !! oid w /\
          is_Some (functions s' !! oid w))).
Proof.
  apply (block_without_output (B:=symbolic) (BSolve constructed) recording).
  reflexivity.
Defined.

(** X5 on the block of the Burgers step, with a vector [dJdu]: the data
    of [u_old]. *)
Lemma evaluate_adj_keeps_functions_witness :
  let run := evaluate_adj (BSolve blk) (recorded (AVec (SData 9))) in
  functions run.2 !! oid u_old = functions (recorded (AVec (SData 9))) !! oid u_old.
Proof.
  intros run.
  apply (evaluate_adj_keeps_functions (B:=symbolic)
           (BSolve blk) (recorded (AVec (SData 9))) run.1 run.2).
  - apply surjective_pairing.
  - vm_compute. lia.
Defined.

(** X6 on the block of the Burgers step, with a vector [dJdu]. *)
Lemma evaluate_adj_changes_only_dependency_adjoints_witness :
  let s := recorded (AVec (SData 9)) in
  let run := evaluate_adj (BSolve blk) s in
  tape run.2 = tape s /\ blocks run.2 = blocks s /\ attached run.2 = attached s /\
  forall k,
    output <$> block_outputs run.2 !! k = output <$> block_outputs s !! k /\
    checkpoint <$> block_outputs run.2 !! k = checkpoint <$> block_outputs s !! k /\
    (k ∉ [7; 5; 6]%nat -> block_outputs run.2 !! k = block_outputs s !! k).
Proof.
  intros s run.
  apply (evaluate_adj_changes_only_dependency_adjoints (B:=symbolic)
           (BSolve blk) s run.1 run.2).
  apply surjective_pairing.
Defined.

(** X7 on the block of the Burgers step: the block output 5 wraps [u],
    the block's own function. *)
Lemma SolveBlock_evaluate_adj_skips_own_function_witness :
  block_outputs (SolveBlock_evaluate_adj blk (recorded (AVec (SData 9)))).2 !! 5%nat
    = Some dep_u.
Proof.
  apply (SolveBlock_evaluate_adj_skips_own_function (B:=symbolic)
           blk (recorded (AVec (SData 9)))
           (SolveBlock_evaluate_adj blk (recorded (AVec (SData 9)))).1).
  - apply surjective_pairing.
  - vm_compute. reflexivity.
  - left. reflexivity.
Defined.

(** X8 on the block of the Burgers step: the block output 6 wraps
    [u_old], a Function. *)
Lemma SolveBlock_evaluate_adj_contributions_witness :
  exists c d,
    functions (recorded (AVec (SData 9))) !! oid (output (out_u (AVec (SData 9))))
      = Some d /\
    contribution_of (okind (output dep_u_old)) (fn_space d) c /\
    block_outputs (SolveBlock_evaluate_adj blk (recorded (AVec (SData 9)))).2 !! 6%nat =
      Some {| output := output dep_u_old; checkpoint := checkpoint dep_u_old;
              adj_value := accumulate (adj_value dep_u_old) c |}.
Proof.
  apply (SolveBlock_evaluate_adj_contributions (B:=symbolic)
           blk (recorded (AVec (SData 9))) _ 9%nat (out_u (AVec (SData 9)))).
  - vm_compute. reflexivity.
  - reflexivity.
  - vm_compute. reflexivity.
  - reflexivity.
  - apply (bool_decide_unpack _). vm_compute. exact I.
  - apply (bool_decide_unpack _). vm_compute. exact I.
  - vm_compute. reflexivity.
  - discriminate.
  - discriminate.
Defined.

(** X9 on the block of the Burgers step, with a vector [dJdu]: the
    accumulator of [u_old] has changed. *)
Lemma SolveBlock_evaluate_adj_needs_adjoint_solve_witness :
  let s := recorded (AVec (SData 9)) in
  let run := SolveBlock_evaluate_adj blk s in
  exists out b A x v l,
    sb_outputs blk !! 0%nat = Some out /\
    block_outputs s !! out = Some b /\
    is_zero (adj_value b) = false /\
    solve_linear A x (adj_value b) = Some v /\
    calls run.2 = calls s ++ l /\
    ESolveLinear A x (adj_value b) ∈ l.
Proof.
  intros s run.
  apply (SolveBlock_evaluate_adj_needs_adjoint_solve (B:=symbolic) blk s run.1 run.2).
  - apply surjective_pairing.
  - intros H. apply (f_equal (fun m => adj_value <$> m !! 6%nat)) in H.
    vm_compute in H. discriminate H.
Defined.

(** X10 on the block of the Burgers step. *)
Lemma recompute_keeps_adjoints_witness :
  let s := recorded (AVec (SData 9)) in
  let run := recompute (BSolve blk) s in
  tape run.2 = tape s /\ blocks run.2 = blocks s /\ attached run.2 = attached s /\
  bconds run.2 = bconds s /\
  forall k,
    output <$> block_outputs run.2 !! k = output <$> block_outputs s !! k /\
    adj_value <$> block_outputs run.2 !! k = adj_value <$> block_outputs s !! k.
Proof.
  intros s run.
  apply (recompute_keeps_adjoints (B:=symbolic) (BSolve blk) s run.1 run.2).
  apply surjective_pairing.
Defined.

(** X11 on a block whose left-hand side is a number. *)
Lemma SolveBlock_recompute_failure_witness :
  let s := recorded (ANum 0) in
  let run := SolveBlock_recompute no_form_blk s in
  block_outputs run.2 = block_outputs s /\ next_id run.2 = next_id s /\
  exists l, calls run.2 = calls s ++ l /\
    ((forall ev, ev ∈ l -> is_forward_solve ev = false) ->
     functions run.2 = functions s) /\
    (forall m rr w bs i, ESolveVariational m rr w bs ∈ l -> i ≠ oid w ->
       functions run.2 !! i = functions s !! i).
Proof.
  intros s run.
  apply (SolveBlock_recompute_failure (B:=symbolic) no_form_blk s BackendError run.2).
  - vm_compute. reflexivity.
  - right. reflexivity.
Defined.

(** X12 on a checkpoint of [u]. *)
Lemma checkpoint_survives_writes_witness :
  let ck := Obj KFunction 8 in
  let s1 := (_ad_create_checkpoint u recording).2 in
  exists d,
    function_data u recording = (Ok d, recording) /\
    ck ≠ u /\
    function_data (_ad_restore_at_checkpoint u ck) s1 = (Ok d, s1) /\
    (forall src r s2,
       Function_assign u src s1 = (r, s2) ->
       function_data (_ad_restore_at_checkpoint u ck) s2 = (Ok d, s2)) /\
    (forall l rr bs r s2,
       solve_eq l rr u bs s1 = (r, s2) ->
       function_data (_ad_restore_at_checkpoint u ck) s2 = (Ok d, s2)).
Proof.
  intros ck s1.
  apply (checkpoint_survives_writes (B:=symbolic) u recording ck s1).
  - vm_compute. reflexivity.
  - vm_compute. lia.
Defined.

(** X13 on [u_old.assign(u)] after the solve. *)
Lemma assign_records_an_AssignBlock_witness :
  let s := recorded (ANum 0) in
  exists s' b out ck_t ck_s,
    assign u_old u None s = (Ok tt, s') /\
    tape s' = tape s ++ [b] /\
    blocks s' !! b =
      Some (BAssign {| ab_dependencies := [6; 9]%nat; ab_outputs := [out] |}) /\
    block_outputs s' !! 6%nat =
      Some {| output := u_old; checkpoint := Some ck_t;
              adj_value := adj_value dep_u_old |} /\
    block_outputs s' !! 9%nat =
      Some {| output := u; checkpoint := Some ck_s;
              adj_value := adj_value (out_u (ANum 0)) |} /\
    block_outputs s' !! out =
      Some {| output := u_old; checkpoint := None; adj_value := ANum 0 |} /\
    attached s' !! u_old = Some out /\
    function_data ck_t s' = (Ok (fn 3), s') /\
    function_data ck_s s' = (Ok (fn 1), s') /\
    function_data u_old s' = (Ok (fn 1), s').
Proof.
  intros s.
  apply (assign_records_an_AssignBlock (B:=symbolic)
           u_old u None s 6%nat 9%nat dep_u_old (out_u (ANum 0)) (fn 3) (fn 1));
    try (vm_compute; reflexivity); try (vm_compute; lia).
Defined.

(** X14 on [u_old.assign(u)] after the solve. *)
Lemma assign_then_recompute_witness :
  let s := recorded (ANum 0) in
  exists s' b blk s'' ck,
    assign u_old u None s = (Ok tt, s') /\
    last (tape s') = Some b /\
    blocks s' !! b = Some blk /\
    recompute blk s' = (Ok tt, s'') /\
    checkpoint <$> block_outputs s' !! 9%nat = Some (Some ck) /\
    calls s'' = calls s' ++ [EAssign u_old ck] /\
    functions s'' = functions s' /\
    block_outputs s'' = block_outputs s'.
Proof.
  intros s.
  apply (assign_then_recompute (B:=symbolic)
           u_old u None s 6%nat 9%nat dep_u_old (out_u (ANum 0)) (fn 3) (fn 1));
    try (vm_compute; reflexivity); try (vm_compute; lia).
Defined.

(** X15 on the Burgers step: [solve(F == 0, u, bc)], then
    [u_old.assign(u)]. *)
Lemma solve_then_assign_witness :
  let s1 := (solve args None recording).2 in
  exists s2 b1 b2 blk1 blk2 o ck v,
    assign u_old u None s1 = (Ok tt, s2) /\
    tape s2 = tape recording ++ [b1; b2] /\
    blocks s2 !! b1 = Some (BSolve blk1) /\ sb_outputs blk1 = [o] /\
    blocks s2 !! b2 = Some (BAssign blk2) /\ ab_dependencies blk2 = [6%nat; o] /\
    block_outputs s2 !! o =
      Some {| output := u; checkpoint := Some ck; adj_value := ANum 0 |} /\
    function_data u s1 = (Ok v, s1) /\
    function_data ck s2 = (Ok v, s2) /\
    function_data u_old s2 = (Ok v, s2).
Proof.
  intros s1.
  apply (solve_then_assign (B:=symbolic)
           args None recording s1 u u_old 6%nat dep_u_old (fn 3));
    try (vm_compute; reflexivity); try (vm_compute; lia).
  discriminate.
Defined.

(** X16 on [solve(F == 0, u, bc)] and on [u_old.assign(u)], each called
    in the state before the solve. *)
Lemma recorded_blocks_depend_on_earlier_outputs_witness :
  (exists b blk o,
     last (tape (solve args None recording).2) = Some b /\
     blocks (solve args None recording).2 !! b = Some (BSolve blk) /\
     sb_outputs blk = [o] /\
     attached (solve args None recording).2 !! func blk = Some o /\
     forall k, k ∈ sb_dependencies blk ->
       (k < o)%nat /\ exists c, attached recording !! c = Some k) /\
  (exists b blk o,
     last (tape (assign u_old u None recording).2) = Some b /\
     blocks (assign u_old u None recording).2 !! b = Some (BAssign blk) /\
     ab_outputs blk = [o] /\
     forall k, k ∈ ab_dependencies blk ->
       (k < o)%nat /\ exists c, attached recording !! c = Some k).
Proof.
  assert (Hwf : forall c bo, attached recording !! c = Some bo ->
                  (bo < next_id recording)%nat).
  { intros c bo H. unfold recording in H. simpl in *.
    apply lookup_insert_Some in H as [[_ <-]|[_ H]]; [lia|].
    apply lookup_insert_Some in H as [[_ <-]|[_ H]]; [lia|].
    apply lookup_singleton_Some in H as [_ <-]. lia. }
  split.
  - destruct (recorded_blocks_depend_on_earlier_outputs (B:=symbolic)
                recording None (solve (B:=symbolic) args None recording).2
                Hwf eq_refl)
      as [Hsolve _].
    apply (Hsolve args). vm_compute. reflexivity.
  - destruct (recorded_blocks_depend_on_earlier_outputs (B:=symbolic)
                recording None (assign (B:=symbolic) u_old u None recording).2
                Hwf eq_refl)
      as [_ Hassign].
    apply (Hassign u_old u). vm_compute. reflexivity.
Defined.

(** X17 on the block of the Burgers step, with a vector [dJdu]. *)
Lemma SolveBlock_evaluate_adj_solves_for_output_adjoint_witness :
  let s := recorded (AVec (SData 9)) in
  let run := SolveBlock_evaluate_adj blk s in
  exists l, calls run.2 = calls s ++ l /\
    forall e, e ∈ l -> is_solve e = true ->
      exists A x, e = ESolveLinear A x (adj_value (out_u (AVec (SData 9)))).
Proof.
  intros s run.
  apply (SolveBlock_evaluate_adj_solves_for_output_adjoint (B:=symbolic)
           blk s run.1 run.2 9%nat).
  - apply surjective_pairing.
  - reflexivity.
  - vm_compute. reflexivity.
Defined.
